(** * Lutheran Radio tools: the FSK text/audio codec

    A shallow embedding of [Tools/TextToAudioEncoder.py],
    [Tools/AudioToTextDecoder.py] and [Tools/generate_tuning_sound.py].  The
    parameters the scripts keep as module-level constants are gathered in
    records, so that the functions can be studied for every choice of them;
    [tools_config] and [tuning_config] hold the values the scripts use.

    Number model.  Python [int] values are [Z] (or [nat]/[N] where the
    source only ever produces non-negative values: loop counters, lengths,
    code points).  Python [str] values made of the characters '0' and '1'
    are [list ascii]; a text is the list of its code points.  A Python
    [float] and a cell of a numpy buffer are the real number of [R] they
    denote.  The tools are written twice.  First every floating-point
    operation is read as the exact operation it approximates: this reading
    carries the statements that do not depend on how a result is rounded
    (lengths, counts, draws, the window a bit is read from, the comparison
    that classifies a window).  Then, in module [Fl], the same lines are
    written with the roundings of the machine kept as parameters: this
    reading carries the statements about the values themselves (the window
    length derived from the product, the samples stored, the bits read
    back).  [Fl.exact], the arithmetic that rounds nothing, gives back the
    first reading. *)

From Stdlib Require Import String.
From Stdlib Require Import List Arith ZArith NArith Lia Ascii Bool.
From Stdlib Require Import Reals Lra.
From Stdlib Require PrimFloat FloatOps SpecFloat.
Import ListNotations.

Set Implicit Arguments.

(** ** The Python run-time: exceptions and the global random generator *)

Module Py.

Inductive exn : Type :=
| ZeroDivisionError
| IndexError
| ValueError.

Inductive outcome (A : Type) : Type :=
| Ok (a : A)
| Raise (e : exn).
Arguments Raise {A} e.

(** The only mutable state the two modules can reach is the generator
    behind the [random] module: the stream of values that successive
    calls of [random.random()] return, and the number of draws made so
    far.  A Python function is a computation over that state which either
    returns a value or raises. *)
Record rng_state : Type := Rng { stream : nat -> R; drawn : nat }.
Definition M (A : Type) : Type := rng_state -> outcome (A * rng_state).

Definition ret {A} (a : A) : M A := fun st => Ok (a, st).
Definition raise {A} (e : exn) : M A := fun _ => Raise e.
Definition bind {A B} (m : M A) (k : A -> M B) : M B :=
  fun st => match m st with
            | Ok (a, st') => k a st'
            | Raise e => Raise e
            end.
Definition lift {A} (o : outcome A) : M A :=
  fun st => match o with
            | Ok a => Ok (a, st)
            | Raise e => Raise e
            end.

(** [random.random()] *)
Definition random : M R :=
  fun st => Ok (stream st (drawn st), Rng (stream st) (S (drawn st))).

(** [random.uniform(a, b)], which the library defines as
    [a + (b - a) * random()]. *)
Definition uniform (a b : R) : M R :=
  bind random (fun u => ret (a + (b - a) * u)%R).

(** [int(x)] on a float: truncation toward zero. *)
Definition int_of_float (x : R) : Z :=
  if Rle_dec 0 x then Int_part x else (- Int_part (- x))%Z.

(** [for x in xs: s = body x s] *)
Fixpoint for_each {A T} (xs : list A) (s : T) (body : A -> T -> M T) : M T :=
  match xs with
  | [] => ret s
  | x :: xs' => bind (body x s) (fun s' => for_each xs' s' body)
  end.

(** [range(n)] and [range(start, stop, step)] for a positive step. *)
Definition range (n : Z) : list nat := seq 0 (Z.to_nat n).
Definition range3 (start stop step : Z) : list Z :=
  map (fun k => start + Z.of_nat k * step)%Z
      (seq 0 (Z.to_nat ((stop - start + step - 1) / step))).

(** [len(l)] *)
Definition len {A} (l : list A) : Z := Z.of_nat (length l).

(** [l[i:j]] for indices that are not negative (the only ones the
    source produces); the slice is clipped to the sequence. *)
Definition slice {A} (l : list A) (i j : Z) : list A :=
  firstn (Z.to_nat j - Z.to_nat i) (skipn (Z.to_nat i) l).

(** [a // b] on integers. *)
Definition floordiv (a b : Z) : outcome Z :=
  if (b =? 0)%Z then Raise ZeroDivisionError else Ok (a / b)%Z.

(** [a / b] on integers: true division, a float. *)
Definition truediv (a b : Z) : outcome R :=
  if (b =? 0)%Z then Raise ZeroDivisionError else Ok (IZR a / IZR b)%R.

(** [chr(n)] *)
Definition chr (n : N) : outcome N :=
  if (n <? 1114112)%N then Ok n else Raise ValueError.

(** [int(s, 2)] on a string of binary digits.  Any other character is
    reported as [ValueError]; the sign, prefix and underscore forms that
    Python also reads do not occur in a bit string. *)
Fixpoint int2_digits (acc : N) (s : list ascii) : outcome N :=
  match s with
  | [] => Ok acc
  | c :: s' =>
      if Ascii.eqb c "0" then int2_digits (2 * acc) s'
      else if Ascii.eqb c "1" then int2_digits (2 * acc + 1) s'
      else Raise ValueError
  end.
Definition int2 (s : list ascii) : outcome N :=
  match s with
  | [] => Raise ValueError
  | _ => int2_digits 0 s
  end.

(** [format(n, 'b')]: the binary digits of [n], most significant first. *)
Fixpoint bin_pos (p : positive) (acc : list ascii) : list ascii :=
  match p with
  | xH => "1"%char :: acc
  | xO q => bin_pos q ("0"%char :: acc)
  | xI q => bin_pos q ("1"%char :: acc)
  end.
Definition bin_digits (n : N) : list ascii :=
  match n with
  | N0 => ["0"%char]
  | Npos p => bin_pos p []
  end.

(** [format(n, '08b')]: zero-padded on the left to a minimum width of 8. *)
Definition format_08b (n : N) : list ascii :=
  let d := bin_digits n in
  repeat "0"%char (8 - length d) ++ d.

End Py.

Import Py.

(** A Python string literal, as the list of its characters. *)
Definition str (s : String.string) : list ascii := String.list_ascii_of_string s.
Arguments str s%_string.

Notation "x <- m ;; k" := (bind m (fun x => k))
  (at level 61, m at next level, right associativity).

(** ** BitCodec: [text_to_binary] and [binary_to_text] *)

(** [''.join(format(ord(char), '08b') for char in text)] *)
Definition text_to_binary (text : list N) : list ascii :=
  concat (map format_08b text).

(** The decoder's [binary_to_text]: first the body of its loop, then the
    loop over [range(0, len(binary), 8)]. *)
Definition binary_to_text_body (binary : list ascii) (i : Z) (text : list N)
  : M (list N) :=
  let byte := slice binary i (i + 8) in
  if (len byte =? 8)%Z
  then n <- lift (int2 byte) ;;
       c <- lift (chr n) ;;
       ret (text ++ [c])
  else ret text.

Definition binary_to_text (binary : list ascii) : M (list N) :=
  for_each (range3 0 (len binary) 8) [] (binary_to_text_body binary).

(** ** The numpy / scipy functions the tools call *)

Module Np.

(** [np.zeros(n, dtype=np.float32)] *)
Definition zeros (n : Z) : outcome (list R) :=
  if (n <? 0)%Z then Raise ValueError else Ok (repeat 0%R (Z.to_nat n)).

(** [a[i] = v] for an index that is not negative. *)
Definition setitem (a : list R) (i : nat) (v : R) : outcome (list R) :=
  if i <? length a then Ok (firstn i a ++ v :: skipn (S i) a)
  else Raise IndexError.

(** [a[i]] for an index that is not negative. *)
Definition getitem (a : list R) (i : nat) : outcome R :=
  match nth_error a i with
  | Some v => Ok v
  | None => Raise IndexError
  end.

(** The sum of [f 0 ... f (n-1)]. *)
Fixpoint rsum (f : nat -> R) (n : nat) : R :=
  match n with
  | O => 0%R
  | S m => (rsum f m + f m)%R
  end.

(** [scipy.fft.fft(x)] of a real sequence: bin [k] is the sum over [j] of
    [x[j] * exp(-2 pi i j k / n)], kept as (real part, imaginary part). *)
Definition fft (x : list R) : list (R * R) :=
  let n := length x in
  map (fun k =>
         (rsum (fun j => nth j x 0 * cos (2 * PI * INR j * INR k / INR n)) n,
          - rsum (fun j => nth j x 0 * sin (2 * PI * INR j * INR k / INR n)) n)%R)
      (seq 0 n).

(** [np.abs] of one complex number. *)
Definition abs_c (z : R * R) : R :=
  sqrt (fst z * fst z + snd z * snd z).

(** [np.argmax(a)]: the index of the first occurrence of the maximum. *)
Fixpoint argmax_from (a : list R) (i best : nat) (m : R) : nat :=
  match a with
  | [] => best
  | x :: a' =>
      if Rlt_dec m x then argmax_from a' (S i) i x
      else argmax_from a' (S i) best m
  end.
Definition argmax (a : list R) : outcome nat :=
  match a with
  | [] => Raise ValueError
  | x :: a' => Ok (argmax_from a' 1 0 x)
  end.

(** [np.fft.fftfreq(n, d)]: the integers [0, 1, ..., (n-1)//2] followed
    by [-(n//2), ..., -1], all divided by [n * d]. *)
Definition fftfreq (n : nat) (d : R) : list R :=
  map (fun k =>
         ((if k <? (n - 1) / 2 + 1 then INR k else INR k - INR n)
          * (1 / (INR n * d)))%R)
      (seq 0 n).

End Np.

(** ** Parameters *)

(** The module-level parameters of the two tools, gathered in one value. *)
Record ModulationConfig : Type := Config {
  sample_rate : Z;
  bit_duration : R;
  amplitude : R;
  frequency_0 : R;
  frequency_1 : R;
  noise_range : R * R
}.

(** The values written in [TextToAudioEncoder.py]; the decoder repeats the
    first, second, fourth and fifth. *)
Definition tools_config : ModulationConfig :=
  {| sample_rate := 22050;
     bit_duration := 2 / 100;
     amplitude := 1 / 10;
     frequency_0 := 1000;
     frequency_1 := 1500;
     noise_range := (- (5 / 100), 5 / 100)%R |}.

(** [samples_per_bit = int(bit_duration * sample_rate)] *)
Definition samples_per_bit (cfg : ModulationConfig) : Z :=
  int_of_float (bit_duration cfg * IZR (sample_rate cfg)).

(** The tools' two factors and their product as the binary64 numbers Python
    computes with: 0.02 is the double [0x1.47ae147ae147bp-6]. *)
Module Binary64.
Import PrimFloat.
Definition bit_duration : float := 0x1.47ae147ae147bp-6%float.
Definition sample_rate : float := 22050%float.
Definition window : float := 441%float.
(** The doubles nearest to 0.3 and to 1/3, and three small integers. *)
Definition three_tenths : float := 0x1.3333333333333p-2%float.
Definition third : float := 0x1.5555555555555p-2%float.
Definition one : float := 1%float.
Definition three : float := 3%float.
Definition ten : float := 10%float.
End Binary64.

(** The same conversion in [generate_tuning_sound.py]:
    [samples_per_segment = int(segment_duration * sample_rate)] with a
    segment of 0.012 s at 22050 Hz. *)
Definition samples_per_segment : Z := int_of_float (12 / 1000 * IZR 22050).

(** ** FSKModulator: [generate_encoded_sound] *)

(** Lines 28 to 32: one pass of the inner loop writes one sample.  The loop
    state is the buffer and [current_sample]. *)
Definition write_sample (cfg : ModulationConfig) (frequency : R) (i : nat)
  (s : list R * nat) : M (list R * nat) :=
  let '(samples, current_sample) := s in
  t <- lift (truediv (Z.of_nat current_sample) (sample_rate cfg)) ;;
  noise <- uniform (fst (noise_range cfg)) (snd (noise_range cfg)) ;;
  let sample_value := (sin (2 * PI * frequency * t) * amplitude cfg + noise)%R in
  samples' <- lift (Np.setitem samples current_sample sample_value) ;;
  ret (samples', S current_sample).

(** Lines 26 to 32: one pass of the outer loop writes the samples of one
    bit. *)
Definition write_bit (cfg : ModulationConfig) (bit : ascii) (s : list R * nat)
  : M (list R * nat) :=
  let '(samples, current_sample) := s in
  let frequency :=
    if Ascii.eqb bit "1" then frequency_1 cfg else frequency_0 cfg in
  for_each (range (samples_per_bit cfg)) (samples, current_sample)
           (write_sample cfg frequency).

Definition generate_encoded_sound (cfg : ModulationConfig) (binary : list ascii)
  : M (list R) :=
  let total_samples := (len binary * samples_per_bit cfg)%Z in
  samples <- lift (Np.zeros total_samples) ;;
  r <- for_each binary (samples, 0%nat) (write_bit cfg) ;;
  ret (fst r).

(** ** FSKDemodulator: [decode_audio_to_binary] *)

(** Lines 20 to 22 of the decoder: the dominant frequency of one segment. *)
Definition dominant_freq (cfg : ModulationConfig) (segment : list R) : M R :=
  d <- lift (truediv 1 (sample_rate cfg)) ;;
  let freqs := Np.fftfreq (length segment) d in
  let fft_vals := map Np.abs_c (Np.fft segment) in
  k <- lift (Np.argmax fft_vals) ;;
  f <- lift (Np.getitem freqs k) ;;
  ret (Rabs f).

(** Lines 24 to 27: the character appended for a dominant frequency. *)
Definition classify (cfg : ModulationConfig) (dominant_freq : R) : ascii :=
  if Rlt_dec (Rabs (dominant_freq - frequency_1 cfg))
             (Rabs (dominant_freq - frequency_0 cfg))
  then "1"%char else "0"%char.

(** Lines 18 to 27: one pass of the loop decodes window [i]. *)
Definition decode_window (cfg : ModulationConfig) (samples : list R) (i : nat)
  (binary : list ascii) : M (list ascii) :=
  let segment :=
    slice samples (Z.of_nat i * samples_per_bit cfg)
                  ((Z.of_nat i + 1) * samples_per_bit cfg) in
  f <- dominant_freq cfg segment ;;
  ret (binary ++ [classify cfg f]).

Definition decode_audio_to_binary (cfg : ModulationConfig) (samples : list R)
  : M (list ascii) :=
  num_bits <- lift (floordiv (len samples) (samples_per_bit cfg)) ;;
  for_each (range num_bits) [] (decode_window cfg samples).

(** ** The whole path: text to sound and back *)

(** [create_text_encoded_audio] followed by [decode_audio_file]; writing the
    buffer to the WAV file and reading it back are taken as the identity on
    a single-channel buffer. *)

Definition round_trip (cfg : ModulationConfig) (s : list N) : M (list N) :=
  samples <- generate_encoded_sound cfg (text_to_binary s) ;;
  binary <- decode_audio_to_binary cfg samples ;;
  binary_to_text binary.

(** ** Vocabulary of the specification *)

(** A bit character and a byte-sized code point. *)
Definition is_bit (c : ascii) : Prop := c = "0"%char \/ c = "1"%char.
Definition is_byte (c : N) : Prop := (c < 256)%N.

(** The eight bits of a byte, most significant first. *)
Definition byte_bits (c : N) : list ascii :=
  map (fun i => if N.testbit c i then "1"%char else "0"%char)
      [7; 6; 5; 4; 3; 2; 1; 0]%N.

(** The number a run of bit characters denotes, most significant first. *)
Definition bits_step (acc : N) (c : ascii) : N :=
  (if Ascii.eqb c "1" then 2 * acc + 1 else 2 * acc)%N.
Definition bits_value (bits : list ascii) : N := fold_left bits_step bits 0%N.

(** The [i]-th group of eight characters of a bit string. *)
Definition chunk8 (binary : list ascii) (i : nat) : list ascii :=
  firstn 8 (skipn (8 * i) binary).

(** The constraints on the parameters, and on the window length derived
    from them. *)
Definition valid_parameters (cfg : ModulationConfig) : Prop :=
  (0 < sample_rate cfg)%Z /\
  (0 < bit_duration cfg)%R /\
  (0 < frequency_0 cfg)%R /\
  (0 < frequency_1 cfg)%R /\
  frequency_0 cfg <> frequency_1 cfg /\
  (0 < amplitude cfg <= 1)%R /\
  (fst (noise_range cfg) <= snd (noise_range cfg))%R.

Definition valid_config (cfg : ModulationConfig) : Prop :=
  valid_parameters cfg /\ (1 <= samples_per_bit cfg)%Z.

Definition noise_free (cfg : ModulationConfig) : Prop :=
  noise_range cfg = (0, 0)%R.

(** [z] is an integer nearest to [x]. *)
Definition nearest_integer (x : R) (z : Z) : Prop :=
  forall z' : Z, (Rabs (x - IZR z) <= Rabs (x - IZR z'))%R.

(** The two tones are further apart than one frequency bin of a window. *)
Definition tones_separated (cfg : ModulationConfig) : Prop :=
  (IZR (sample_rate cfg) / IZR (samples_per_bit cfg)
   < Rabs (frequency_1 cfg - frequency_0 cfg))%R.

(** A configuration with a window of one sample; two with fractional
    products of duration and rate. *)
Definition one_sample_config : ModulationConfig :=
  {| sample_rate := 1;
     bit_duration := 1;
     amplitude := 1;
     frequency_0 := 1;
     frequency_1 := 3;
     noise_range := (0, 0)%R |}.

Definition fractional_config : ModulationConfig :=
  {| sample_rate := 2;
     bit_duration := 7 / 8;
     amplitude := 1;
     frequency_0 := 1;
     frequency_1 := 3;
     noise_range := (0, 0)%R |}.

(** The tone of a bit character, the noise added to sample [n] of a run
    started in generator state [st], and the value the modulator is meant to
    give sample [n]. *)
Definition bit_frequency (cfg : ModulationConfig) (bit : ascii) : R :=
  if Ascii.eqb bit "1" then frequency_1 cfg else frequency_0 cfg.

Definition noise_at (cfg : ModulationConfig) (st : rng_state) (n : nat) : R :=
  (fst (noise_range cfg)
   + (snd (noise_range cfg) - fst (noise_range cfg)) * stream st (drawn st + n))%R.

Definition tone (cfg : ModulationConfig) (st : rng_state) (frequency : R) (n : nat)
  : R :=
  (sin (2 * PI * frequency * (IZR (Z.of_nat n) / IZR (sample_rate cfg)))
   * amplitude cfg + noise_at cfg st n)%R.

Definition wave (cfg : ModulationConfig) (binary : list ascii) (st : rng_state)
  (n : nat) : R :=
  tone cfg st
       (bit_frequency cfg
          (nth (n / Z.to_nat (samples_per_bit cfg)) binary "0"%char))
       n.

(** The window length as a count, the [i]-th window of a buffer, the bin
    [np.argmax] picks in a window and the frequency read off for it. *)
Definition window_length (cfg : ModulationConfig) : nat :=
  Z.to_nat (samples_per_bit cfg).

Definition segment_of (cfg : ModulationConfig) (samples : list R) (i : nat)
  : list R :=
  firstn (window_length cfg) (skipn (i * window_length cfg) samples).

Definition peak_bin (segment : list R) : nat :=
  match map Np.abs_c (Np.fft segment) with
  | [] => 0
  | x :: a => Np.argmax_from a 1 0 x
  end.

Definition dominant_value (cfg : ModulationConfig) (segment : list R) : R :=
  Rabs (nth (peak_bin segment)
            (Np.fftfreq (length segment) (IZR 1 / IZR (sample_rate cfg))) 0%R).

(** A computation that neither reads nor changes the generator state: it is
    one fixed outcome, whatever the state. *)
Definition stateless {A} (m : M A) : Prop :=
  exists o : outcome A, forall st, m st = lift o st.

(** A configuration with windows of two samples, whose one non-zero bin lies
    midway between the two tones. *)
Definition tie_config : ModulationConfig :=
  {| sample_rate := 4;
     bit_duration := 1 / 2;
     amplitude := 1;
     frequency_0 := 1;
     frequency_1 := 3;
     noise_range := (0, 0)%R |}.

(** The angle of [p] steps around the circle of [n] points. *)
Definition step_angle (n p : nat) : R := (2 * PI * INR p / INR n)%R.

(** The distance between two bin numbers, and the bin of a bit character
    when the tones are on bins [k0] and [k1]. *)
Definition bin_gap (k m : nat) : nat := if m <=? k then k - m else m - k.

Definition bin_of (k0 k1 : nat) (bit : ascii) : nat :=
  if Ascii.eqb bit "1" then k1 else k0.

(** The character the modulator takes a character for: only '1' selects
    [frequency_1]. *)
Definition normalize_bit (c : ascii) : ascii :=
  if Ascii.eqb c "1" then "1"%char else "0"%char.

(** A configuration whose bit lasts half a sample period. *)
Definition short_bit_config : ModulationConfig :=
  {| sample_rate := 2;
     bit_duration := 1 / 4;
     amplitude := 1;
     frequency_0 := 1;
     frequency_1 := 3;
     noise_range := (0, 0)%R |}.

(** ** [generate_tuning_sound.py] *)

(** The module-level parameters of the tuning-sound generator. *)
Record TuningConfig : Type := Tuning {
  tuning_sample_rate : Z;
  duration : R;
  segment_duration : R;
  tuning_amplitude : R;
  frequency_range : R * R;
  tuning_noise_range : R * R
}.

(** The values written in the script. *)
Definition tuning_config : TuningConfig :=
  {| tuning_sample_rate := 22050;
     duration := 1 / 2;
     segment_duration := 12 / 1000;
     tuning_amplitude := 1 / 10;
     frequency_range := (500, 1500)%R;
     tuning_noise_range := (- (5 / 100), 5 / 100)%R |}.

(** [a % b] on integers. *)
Definition py_mod (a b : Z) : outcome Z :=
  if (b =? 0)%Z then Raise ZeroDivisionError else Ok (a mod b)%Z.

(** Lines 8 and 10: [total_samples] and [samples_per_segment]. *)
Definition total_samples (tc : TuningConfig) : Z :=
  int_of_float (duration tc * IZR (tuning_sample_rate tc)).

Definition segment_samples (tc : TuningConfig) : Z :=
  int_of_float (segment_duration tc * IZR (tuning_sample_rate tc)).

(** The inner loops of the script (lines 23 to 28 and 32 to 37) are the
    inner loop of the encoder, with the script's own sample rate, amplitude
    and noise range; [write_sample] is used for them at this record. *)
Definition tuning_params (tc : TuningConfig) : ModulationConfig :=
  {| sample_rate := tuning_sample_rate tc;
     bit_duration := segment_duration tc;
     amplitude := tuning_amplitude tc;
     frequency_0 := fst (frequency_range tc);
     frequency_1 := snd (frequency_range tc);
     noise_range := tuning_noise_range tc |}.

(** Lines 22 to 28, and 31 to 37: a frequency is drawn, then [count]
    samples are written with it. *)
Definition write_segment (tc : TuningConfig) (count : Z) (s : list R * nat)
  : M (list R * nat) :=
  let '(samples, current_sample) := s in
  frequency <- uniform (fst (frequency_range tc)) (snd (frequency_range tc)) ;;
  for_each (range count) (samples, current_sample)
           (write_sample (tuning_params tc) frequency).

(** Lines 11 and 12, evaluated when the module is loaded, then the function
    [generate_tuning_sound]. *)
Definition generate_tuning_sound (tc : TuningConfig) : M (list R) :=
  total_segments <- lift (floordiv (total_samples tc) (segment_samples tc)) ;;
  remaining_samples <- lift (py_mod (total_samples tc) (segment_samples tc)) ;;
  samples <- lift (Np.zeros (total_samples tc)) ;;
  r <- for_each (range total_segments) (samples, 0%nat)
         (fun _ s => write_segment tc (segment_samples tc) s) ;;
  r' <- (if (0 <? remaining_samples)%Z
         then write_segment tc remaining_samples r
         else ret r) ;;
  ret (fst r').

(** The constraints under which the script's constants make sense: a
    positive rate, a duration that is not negative, a segment of at least
    one sample, ordered ranges and an amplitude that is not negative. *)
Definition valid_tuning (tc : TuningConfig) : Prop :=
  (0 < tuning_sample_rate tc)%Z /\
  (0 <= duration tc)%R /\
  (1 <= segment_duration tc * IZR (tuning_sample_rate tc))%R /\
  (0 <= tuning_amplitude tc)%R /\
  (fst (frequency_range tc) <= snd (frequency_range tc))%R /\
  (fst (tuning_noise_range tc) <= snd (tuning_noise_range tc))%R.

(** The frequency drawn for segment [s] and the value sample [n] is meant
    to get, for a run started in generator state [st]: each segment makes
    one draw for its frequency and one per sample. *)
Definition segment_frequency (tc : TuningConfig) (st : rng_state) (s : nat) : R :=
  (fst (frequency_range tc)
   + (snd (frequency_range tc) - fst (frequency_range tc))
     * stream st (drawn st + s * (Z.to_nat (segment_samples tc) + 1)))%R.

Definition tuning_wave (tc : TuningConfig) (st : rng_state) (n : nat) : R :=
  let s := n / Z.to_nat (segment_samples tc) in
  (sin (2 * PI * segment_frequency tc st s
        * (INR n / IZR (tuning_sample_rate tc)))
   * tuning_amplitude tc
   + (fst (tuning_noise_range tc)
      + (snd (tuning_noise_range tc) - fst (tuning_noise_range tc))
        * stream st (drawn st + n + s + 1)))%R.

(** A tuning configuration whose segment is shorter than a sample period. *)
Definition short_segment_tuning : TuningConfig :=
  {| tuning_sample_rate := 2;
     duration := 3;
     segment_duration := 1 / 4;
     tuning_amplitude := 1;
     frequency_range := (1, 2)%R;
     tuning_noise_range := (0, 0)%R |}.

(** The tools' parameters with the noise range reduced to a fifth of the
    amplitude. *)
Definition tools_config_low_noise : ModulationConfig :=
  {| sample_rate := 22050;
     bit_duration := 2 / 100;
     amplitude := 1 / 10;
     frequency_0 := 1000;
     frequency_1 := 1500;
     noise_range := (- (2 / 100), 2 / 100)%R |}.

(** A window holding a tone on bin [k] with the disturbance [e] added. *)
Definition noisy_bin_tone (a : R) (n k : nat) (e : nat -> R) : list R :=
  map (fun j => (a * sin (INR j * step_angle n k) + e j)%R) (seq 0 n).

(** The index [np.argmax] returns for a list of magnitudes. *)
Definition peak_of (fft_vals : list R) : nat :=
  match fft_vals with
  | [] => 0
  | x :: a => Np.argmax_from a 1 0 x
  end.

(** ** The tools in the arithmetic of the machine

    The definitions above read every float operation as the exact operation
    it approximates.  Here the three scripts are written once more, line by
    line, with the roundings of the machine kept: a float is still the real
    number it denotes, but every operation returns what the machine rounds
    its exact result to.  The roundings and the library functions are the
    fields of an [arithmetic]: nothing is assumed of them, so what is proved
    for every [arithmetic] holds of binary64 and [np.float32] as long as the
    values stay finite, and [exact] gives back the definitions above.  The
    float parameters of a configuration are the numbers the machine holds
    for them; [sample_rate], an [int], is converted where it meets a
    float. *)

Module Fl.

Record arithmetic : Type := Arithmetic {
  (** the binary64 number an exact result is rounded to *)
  round64 : R -> R;
  (** the number a cell of an [np.float32] array holds after a store *)
  round32 : R -> R;
  (** [np.sin], [np.pi] and [np.abs(scipy.fft.fft(x))] *)
  np_sin : R -> R;
  np_pi : R;
  np_abs_fft : list R -> list R
}.

(** The arithmetic that rounds nothing. *)
Definition exact : arithmetic :=
  {| round64 := fun x => x;
     round32 := fun x => x;
     np_sin := sin;
     np_pi := PI;
     np_abs_fft := fun x => map Np.abs_c (Np.fft x) |}.

(** An arithmetic that rounds in one place: a store into the buffer keeps
    24 binary digits after the point, the rest being cut off. *)
Definition coarse_store : arithmetic :=
  {| round64 := fun x => x;
     round32 := fun x => (IZR (Int_part (x * 16777216)) / 16777216)%R;
     np_sin := sin;
     np_pi := PI;
     np_abs_fft := fun x => map Np.abs_c (Np.fft x) |}.

Section Tools.

Variable ar : arithmetic.

(** An [int] that enters a float operation, and the operations [+], [-]
    and [*] on floats. *)
Definition of_int (z : Z) : R := round64 ar (IZR z).
Definition fadd (x y : R) : R := round64 ar (x + y).
Definition fsub (x y : R) : R := round64 ar (x - y).
Definition fmul (x y : R) : R := round64 ar (x * y).

(** [a / b] on integers, and [x / y] on Python floats. *)
Definition truediv (a b : Z) : outcome R :=
  if (b =? 0)%Z then Raise ZeroDivisionError
  else Ok (round64 ar (IZR a / IZR b)).

Definition float_div (x y : R) : outcome R :=
  if Req_dec_T y 0 then Raise ZeroDivisionError
  else Ok (round64 ar (x / y)).

(** [random.uniform(a, b)]: [a + (b - a) * random()]. *)
Definition uniform (a b : R) : M R :=
  u <- random ;; ret (fadd a (fmul (fsub b a) u)).

(** [bit_duration * sample_rate] and
    [samples_per_bit = int(bit_duration * sample_rate)]. *)
Definition window_product (cfg : ModulationConfig) : R :=
  fmul (bit_duration cfg) (of_int (sample_rate cfg)).

Definition samples_per_bit (cfg : ModulationConfig) : Z :=
  int_of_float (window_product cfg).

(** [TextToAudioEncoder.py], lines 28 to 32. *)
Definition write_sample (cfg : ModulationConfig) (frequency : R) (i : nat)
  (s : list R * nat) : M (list R * nat) :=
  let '(samples, current_sample) := s in
  t <- lift (truediv (Z.of_nat current_sample) (sample_rate cfg)) ;;
  noise <- uniform (fst (noise_range cfg)) (snd (noise_range cfg)) ;;
  let sample_value :=
    fadd (fmul (np_sin ar (fmul (fmul (fmul (of_int 2) (np_pi ar)) frequency) t))
               (amplitude cfg))
         noise in
  samples' <- lift (Np.setitem samples current_sample (round32 ar sample_value)) ;;
  ret (samples', S current_sample).

(** Lines 26 to 32. *)
Definition write_bit (cfg : ModulationConfig) (bit : ascii) (s : list R * nat)
  : M (list R * nat) :=
  let '(samples, current_sample) := s in
  let frequency :=
    if Ascii.eqb bit "1" then frequency_1 cfg else frequency_0 cfg in
  for_each (range (samples_per_bit cfg)) (samples, current_sample)
           (write_sample cfg frequency).

Definition generate_encoded_sound (cfg : ModulationConfig) (binary : list ascii)
  : M (list R) :=
  let total_samples := (len binary * samples_per_bit cfg)%Z in
  samples <- lift (Np.zeros total_samples) ;;
  r <- for_each binary (samples, 0%nat) (write_bit cfg) ;;
  ret (fst r).

(** [np.fft.fftfreq(n, d)]: [val = 1.0 / (n * d)], then the integers
    [0, ..., (n-1)//2, -(n//2), ..., -1] times [val]. *)
Definition fftfreq (n : nat) (d : R) : outcome (list R) :=
  match float_div 1 (fmul (of_int (Z.of_nat n)) d) with
  | Raise e => Raise e
  | Ok val =>
      Ok (map (fun k =>
                 fmul (of_int (if k <? (n - 1) / 2 + 1 then Z.of_nat k
                               else Z.of_nat k - Z.of_nat n))
                      val)
              (seq 0 n))
  end.

(** [AudioToTextDecoder.py], lines 20 to 22. *)
Definition dominant_freq (cfg : ModulationConfig) (segment : list R) : M R :=
  d <- lift (truediv 1 (sample_rate cfg)) ;;
  freqs <- lift (fftfreq (length segment) d) ;;
  let fft_vals := np_abs_fft ar segment in
  k <- lift (Np.argmax fft_vals) ;;
  f <- lift (Np.getitem freqs k) ;;
  ret (Rabs f).

(** Lines 24 to 27. *)
Definition classify (cfg : ModulationConfig) (dominant_freq : R) : ascii :=
  if Rlt_dec (Rabs (fsub dominant_freq (frequency_1 cfg)))
             (Rabs (fsub dominant_freq (frequency_0 cfg)))
  then "1"%char else "0"%char.

(** Lines 18 to 27. *)
Definition decode_window (cfg : ModulationConfig) (samples : list R) (i : nat)
  (binary : list ascii) : M (list ascii) :=
  let segment :=
    slice samples (Z.of_nat i * samples_per_bit cfg)
                  ((Z.of_nat i + 1) * samples_per_bit cfg) in
  f <- dominant_freq cfg segment ;;
  ret (binary ++ [classify cfg f]).

Definition decode_audio_to_binary (cfg : ModulationConfig) (samples : list R)
  : M (list ascii) :=
  num_bits <- lift (floordiv (len samples) (samples_per_bit cfg)) ;;
  for_each (range num_bits) [] (decode_window cfg samples).

(** [create_text_encoded_audio] followed by [decode_audio_file], the WAV
    file keeping the [np.float32] buffer as it is. *)
Definition round_trip (cfg : ModulationConfig) (s : list N) : M (list N) :=
  samples <- generate_encoded_sound cfg (text_to_binary s) ;;
  binary <- decode_audio_to_binary cfg samples ;;
  binary_to_text binary.

(** [generate_tuning_sound.py]: lines 8 and 10, lines 22 to 28 (and 31 to
    37), and lines 11, 12 and 18 to 38. *)
Definition total_samples (tc : TuningConfig) : Z :=
  int_of_float (fmul (duration tc) (of_int (tuning_sample_rate tc))).

Definition segment_product (tc : TuningConfig) : R :=
  fmul (segment_duration tc) (of_int (tuning_sample_rate tc)).

Definition segment_samples (tc : TuningConfig) : Z :=
  int_of_float (segment_product tc).

Definition write_segment (tc : TuningConfig) (count : Z) (s : list R * nat)
  : M (list R * nat) :=
  let '(samples, current_sample) := s in
  frequency <- uniform (fst (frequency_range tc)) (snd (frequency_range tc)) ;;
  for_each (range count) (samples, current_sample)
           (write_sample (tuning_params tc) frequency).

Definition generate_tuning_sound (tc : TuningConfig) : M (list R) :=
  total_segments <- lift (floordiv (total_samples tc) (segment_samples tc)) ;;
  remaining_samples <- lift (py_mod (total_samples tc) (segment_samples tc)) ;;
  samples <- lift (Np.zeros (total_samples tc)) ;;
  r <- for_each (range total_segments) (samples, 0%nat)
         (fun _ s => write_segment tc (segment_samples tc) s) ;;
  r' <- (if (0 <? remaining_samples)%Z
         then write_segment tc remaining_samples r
         else ret r) ;;
  ret (fst r').

(** *** Vocabulary *)

Definition valid_config (cfg : ModulationConfig) : Prop :=
  valid_parameters cfg /\ (1 <= samples_per_bit cfg)%Z.

Definition window_length (cfg : ModulationConfig) : nat :=
  Z.to_nat (samples_per_bit cfg).

(** The value [random.uniform(a, b)] returns when [random()] returns [u]. *)
Definition uniform_value (a b u : R) : R := fadd a (fmul (fsub b a) u).

(** The value stored for sample [n] when its tone has the given frequency
    and [random()] returns [u] for it. *)
Definition sample_value (cfg : ModulationConfig) (frequency : R) (n : nat) (u : R)
  : R :=
  round32 ar
    (fadd (fmul (np_sin ar
                   (fmul (fmul (fmul (of_int 2) (np_pi ar)) frequency)
                         (round64 ar (IZR (Z.of_nat n) / IZR (sample_rate cfg)))))
                (amplitude cfg))
          (uniform_value (fst (noise_range cfg)) (snd (noise_range cfg)) u)).

(** Sample [n] of a run started in generator state [st], for a tone of the
    given frequency and for the sound of a bit string. *)
Definition tone (cfg : ModulationConfig) (st : rng_state) (frequency : R) (n : nat)
  : R :=
  sample_value cfg frequency n (stream st (drawn st + n)).

Definition wave (cfg : ModulationConfig) (binary : list ascii) (st : rng_state)
  (n : nat) : R :=
  tone cfg st
       (bit_frequency cfg (nth (n / window_length cfg) binary "0"%char))
       n.

(** The [i]-th window of a buffer. *)
Definition segment_of (cfg : ModulationConfig) (samples : list R) (i : nat)
  : list R :=
  firstn (window_length cfg) (skipn (i * window_length cfg) samples).

(** [f] is the centre of bin [k] of a window, below the Nyquist bin. *)
Definition tone_on_bin (cfg : ModulationConfig) (k : nat) (f : R) : Prop :=
  0 < k /\ (2 * Z.of_nat k < samples_per_bit cfg)%Z /\
  f = (INR k * (IZR (sample_rate cfg) / IZR (samples_per_bit cfg)))%R.

(** Conditions on the roundings under which [random.uniform(lo, hi)] stays
    within its two bounds: rounding is monotone, leaves alone what is already
    rounded, zero and [lo], and [lo + (hi - lo)] does not come out above
    [hi]. *)
Definition uniform_within (lo hi : R) : Prop :=
  (forall x y, (x <= y)%R -> (round64 ar x <= round64 ar y)%R) /\
  (forall x, round64 ar (round64 ar x) = round64 ar x) /\
  round64 ar 0 = 0%R /\
  round64 ar lo = lo /\
  (round64 ar (lo + round64 ar (hi - lo)) <= hi)%R.

(** The conditions of accuracy under which the decoder reads back what the
    encoder wrote.  Every stored sample lies within a fifth of the amplitude
    of the pure tone of its bit (noise and roundings together). *)
Definition accurate_samples (cfg : ModulationConfig) (binary : list ascii)
  (st : rng_state) : Prop :=
  forall n, n < length binary * window_length cfg ->
    (Rabs (wave cfg binary st n
           - amplitude cfg
             * sin (2 * PI
                    * bit_frequency cfg (nth (n / window_length cfg) binary "0"%char)
                    * (INR n / IZR (sample_rate cfg))))
     <= amplitude cfg / 5)%R.

(** On a window whose samples are no larger than 6/5 of the amplitude, the
    magnitudes the transform returns are as many as the samples, and each is
    within [amplitude * samples_per_bit / 200] of the exact magnitude. *)
Definition accurate_transform (cfg : ModulationConfig) : Prop :=
  forall w, length w = window_length cfg ->
    (forall x, In x w -> (Rabs x <= 6 / 5 * amplitude cfg)%R) ->
    length (np_abs_fft ar w) = length w /\
    forall m, m < window_length cfg ->
      (Rabs (nth m (np_abs_fft ar w) 0 - nth m (map Np.abs_c (Np.fft w)) 0)
       <= amplitude cfg * INR (window_length cfg) / 200)%R.

(** Neither [1 / sample_rate] nor [np.fft.fftfreq] raises for a window, and
    each bin frequency comes out within a quarter of the distance between
    the two tones of its exact value. *)
Definition accurate_frequencies (cfg : ModulationConfig) : Prop :=
  exists d freqs,
    truediv 1 (sample_rate cfg) = Ok d /\
    fftfreq (window_length cfg) d = Ok freqs /\
    forall r, r < window_length cfg ->
      (Rabs (nth r freqs 0
             - nth r (Np.fftfreq (window_length cfg) (1 / IZR (sample_rate cfg))) 0)
       <= Rabs (frequency_1 cfg - frequency_0 cfg) / 4)%R.

(** A difference of at most twice the distance between the two tones is
    rounded to within an eighth of that distance. *)
Definition accurate_differences (cfg : ModulationConfig) : Prop :=
  forall x,
    (Rabs x <= 2 * Rabs (frequency_1 cfg - frequency_0 cfg))%R ->
    (Rabs (round64 ar x - x) <= Rabs (frequency_1 cfg - frequency_0 cfg) / 8)%R.

(** The tuning parameters give a buffer and segments of at least one
    sample. *)
Definition valid_tuning (tc : TuningConfig) : Prop :=
  (0 < tuning_sample_rate tc)%Z /\
  (0 <= total_samples tc)%Z /\
  (1 <= segment_samples tc)%Z.

(** The frequency drawn for segment [s] and sample [n] of the tuning sound:
    each segment makes one draw for its frequency and one per sample. *)
Definition segment_frequency (tc : TuningConfig) (st : rng_state) (s : nat) : R :=
  uniform_value (fst (frequency_range tc)) (snd (frequency_range tc))
    (stream st (drawn st + s * (Z.to_nat (segment_samples tc) + 1))).

Definition tuning_wave (tc : TuningConfig) (st : rng_state) (n : nat) : R :=
  let s := n / Z.to_nat (segment_samples tc) in
  sample_value (tuning_params tc) (segment_frequency tc st s) n
               (stream st (drawn st + n + s + 1)).

End Tools.

End Fl.

(** The tools' parameters with the noise switched off. *)
Definition tools_config_noise_free : ModulationConfig :=
  {| sample_rate := 22050;
     bit_duration := 2 / 100;
     amplitude := 1 / 10;
     frequency_0 := 1000;
     frequency_1 := 1500;
     noise_range := (0, 0)%R |}.

(** * Properties *)

(** ** The monad and the loops *)

Lemma for_each_app {A T} (xs ys : list A) (s : T) body st :
  for_each (xs ++ ys) s body st =
  bind (for_each xs s body) (fun s' => for_each ys s' body) st.
Proof.
  revert s st. induction xs as [|x xs IH]; intros s st; simpl.
  - reflexivity.
  - unfold bind in *. destruct (body x s st) as [[s' st']|e]; [|reflexivity].
    apply IH.
Qed.

Lemma for_each_snoc {A T} (xs : list A) (x : A) (s s' : T) body st st' :
  for_each xs s body st = Ok (s', st') ->
  for_each (xs ++ [x]) s body st = body x s' st'.
Proof.
  intros H. rewrite for_each_app. unfold bind. rewrite H. simpl.
  unfold bind, ret. destruct (body x s' st') as [[? ?]|?]; reflexivity.
Qed.

(** ** BitCodec *)

Lemma bin_pos_length p acc :
  length (bin_pos p acc) = Pos.size_nat p + length acc.
Proof.
  revert acc. induction p as [q IH|q IH|]; intros acc; simpl;
    try rewrite IH; simpl; lia.
Qed.

Lemma size_nat_byte p : Pos.size_nat p <= 8 <-> (N.pos p < 256)%N.
Proof.
  split.
  - intros H. do 8 (destruct p as [p|p|]; try (vm_compute; reflexivity));
      simpl in H; destruct p; simpl in H; lia.
  - intros H. do 8 (destruct p as [p|p|]; try (simpl; lia)).
Qed.

Lemma format_08b_length c :
  length (format_08b c) = Nat.max 8 (length (bin_digits c)).
Proof. unfold format_08b. rewrite length_app, repeat_length. lia. Qed.

Lemma bin_digits_length c :
  length (bin_digits c) <= 8 <-> is_byte c.
Proof.
  unfold is_byte. destruct c as [|p]; simpl.
  - split; intros; lia.
  - rewrite bin_pos_length. simpl. rewrite Nat.add_0_r. apply size_nat_byte.
Qed.

Lemma format_08b_byte c : is_byte c -> format_08b c = byte_bits c.
Proof.
  unfold is_byte. intros H. destruct c as [|p]; [reflexivity|].
  do 8 (destruct p as [p|p|]; try reflexivity); exfalso; lia.
Qed.

Lemma byte_bits_length c : length (byte_bits c) = 8.
Proof. reflexivity. Qed.

Lemma byte_bits_is_bit c : Forall is_bit (byte_bits c).
Proof.
  unfold byte_bits. apply Forall_map, Forall_forall. intros i _.
  destruct (N.testbit c i); [right|left]; reflexivity.
Qed.

Lemma text_to_binary_cons c text :
  text_to_binary (c :: text) = format_08b c ++ text_to_binary text.
Proof. reflexivity. Qed.

Lemma text_to_binary_length_ge text :
  8 * length text <= length (text_to_binary text).
Proof.
  induction text as [|c text IH]; [simpl; lia|].
  rewrite text_to_binary_cons, length_app, format_08b_length. simpl length. lia.
Qed.

Lemma text_to_binary_bytes text :
  Forall is_byte text -> text_to_binary text = flat_map byte_bits text.
Proof.
  induction 1 as [|c text Hc _ IH]; [reflexivity|].
  rewrite text_to_binary_cons, IH, format_08b_byte by assumption. reflexivity.
Qed.

Lemma flat_map_byte_bits_length text :
  length (flat_map byte_bits text) = 8 * length text.
Proof. induction text as [|c text IH]; simpl; [reflexivity|]. simpl in IH. lia. Qed.

Lemma flat_map_byte_bits_is_bit text : Forall is_bit (flat_map byte_bits text).
Proof.
  induction text as [|c text IH]; simpl; [constructor|].
  change (Forall is_bit (byte_bits c ++ flat_map byte_bits text)).
  apply Forall_app. split; [apply byte_bits_is_bit | exact IH].
Qed.

(** [int(s, 2)] on bit characters. *)

Lemma int2_digits_bits s : Forall is_bit s ->
  forall acc, int2_digits acc s = Ok (fold_left bits_step s acc).
Proof.
  induction 1 as [|c s Hc _ IH]; intros acc; simpl; [reflexivity|].
  destruct Hc as [-> | ->]; simpl; apply IH.
Qed.

Lemma fold_bits_bound s : forall acc,
  (fold_left bits_step s acc < (acc + 1) * 2 ^ N.of_nat (length s))%N.
Proof.
  induction s as [|c s IH]; intros acc.
  - simpl. lia.
  - simpl fold_left. specialize (IH (bits_step acc c)).
    replace (N.of_nat (length (c :: s))) with (N.succ (N.of_nat (length s)))
      by (simpl length; lia).
    rewrite N.pow_succ_r'.
    assert (bits_step acc c + 1 <= 2 * (acc + 1))%N
      by (unfold bits_step; destruct (Ascii.eqb c "1"); lia).
    nia.
Qed.

Lemma bits_value_byte s : length s = 8 -> is_byte (bits_value s).
Proof.
  intros H. unfold is_byte, bits_value.
  pose proof (fold_bits_bound s 0) as B. rewrite H in B.
  change (fold_left bits_step s 0 < 256)%N. exact B.
Qed.

Lemma int2_bits s : Forall is_bit s -> s <> [] -> int2 s = Ok (bits_value s).
Proof.
  intros H Hne. destruct s as [|c s]; [congruence|].
  unfold int2. apply (int2_digits_bits H).
Qed.

Lemma chr_byte c : is_byte c -> chr c = Ok c.
Proof.
  unfold is_byte, chr. intros H.
  destruct (N.ltb_spec c 1114112) as [_|H']; [reflexivity|lia].
Qed.

(** The loop of [binary_to_text]. *)

Lemma range3_by_8 (n : nat) :
  range3 0 (Z.of_nat n) 8 = map (fun k => Z.of_nat (8 * k)) (seq 0 ((n + 7) / 8)).
Proof.
  unfold range3.
  replace (Z.to_nat ((Z.of_nat n - 0 + 8 - 1) / 8)) with ((n + 7) / 8).
  - apply map_ext. intros k. lia.
  - replace (Z.of_nat n - 0 + 8 - 1)%Z with (Z.of_nat (n + 7)) by lia.
    change 8%Z with (Z.of_nat 8). rewrite <- Nat2Z.inj_div. lia.
Qed.

Lemma slice_chunk8 (binary : list ascii) k :
  slice binary (Z.of_nat (8 * k)) (Z.of_nat (8 * k) + 8) = chunk8 binary k.
Proof.
  unfold slice, chunk8. f_equal; [lia|]. f_equal. lia.
Qed.

Lemma chunk8_length (binary : list ascii) k :
  length (chunk8 binary k) = Nat.min 8 (length binary - 8 * k).
Proof. unfold chunk8. rewrite length_firstn, length_skipn. reflexivity. Qed.

Lemma Forall_firstn {A} (P : A -> Prop) n l : Forall P l -> Forall P (firstn n l).
Proof.
  intros H. rewrite <- (firstn_skipn n l) in H. apply Forall_app in H. tauto.
Qed.

Lemma Forall_skipn {A} (P : A -> Prop) n l : Forall P l -> Forall P (skipn n l).
Proof.
  intros H. rewrite <- (firstn_skipn n l) in H. apply Forall_app in H. tauto.
Qed.

Lemma chunk8_is_bit binary k : Forall is_bit binary -> Forall is_bit (chunk8 binary k).
Proof. intros H. unfold chunk8. apply Forall_firstn, Forall_skipn, H. Qed.

Lemma binary_to_text_body_full binary k text st :
  Forall is_bit binary -> 8 * k + 8 <= length binary ->
  binary_to_text_body binary (Z.of_nat (8 * k)) text st =
  Ok (text ++ [bits_value (chunk8 binary k)], st).
Proof.
  intros Hb Hk. unfold binary_to_text_body. rewrite slice_chunk8.
  assert (L : length (chunk8 binary k) = 8) by (rewrite chunk8_length; lia).
  unfold len. rewrite L. simpl Z.eqb. cbv iota.
  unfold bind, lift, ret.
  rewrite int2_bits.
  - rewrite chr_byte by (apply bits_value_byte; exact L). reflexivity.
  - apply chunk8_is_bit; exact Hb.
  - intros E. rewrite E in L. discriminate.
Qed.

Lemma binary_to_text_body_short binary k text st :
  length binary < 8 * k + 8 ->
  binary_to_text_body binary (Z.of_nat (8 * k)) text st = Ok (text, st).
Proof.
  intros Hk. unfold binary_to_text_body. rewrite slice_chunk8.
  unfold len. rewrite chunk8_length.
  destruct (Z.eqb_spec (Z.of_nat (Nat.min 8 (length binary - 8 * k))) 8) as [E|_];
    [lia | reflexivity].
Qed.

Lemma binary_to_text_prefix binary st : Forall is_bit binary ->
  forall k, k <= length binary / 8 ->
  for_each (map (fun k => Z.of_nat (8 * k)) (seq 0 k)) []
           (binary_to_text_body binary) st
  = Ok (map (fun i => bits_value (chunk8 binary i)) (seq 0 k), st).
Proof.
  intros Hb. induction k as [|k IH]; intros Hk; [reflexivity|].
  rewrite seq_S, !map_app. cbn [map Nat.add].
  erewrite for_each_snoc by (apply IH; lia).
  rewrite binary_to_text_body_full; [reflexivity | exact Hb |].
  pose proof (Nat.div_mod_eq (length binary) 8). lia.
Qed.

Lemma binary_to_text_spec binary st : Forall is_bit binary ->
  binary_to_text binary st
  = Ok (map (fun i => bits_value (chunk8 binary i)) (seq 0 (length binary / 8)), st).
Proof.
  intros Hb. unfold binary_to_text, len. rewrite range3_by_8.
  pose proof (Nat.div_mod_eq (length binary) 8) as D.
  pose proof (Nat.mod_upper_bound (length binary) 8 ltac:(lia)) as U.
  destruct (Nat.eq_dec (length binary mod 8) 0) as [Z0|NZ].
  - replace ((length binary + 7) / 8) with (length binary / 8).
    + apply binary_to_text_prefix; [exact Hb | lia].
    + apply (Nat.div_unique _ 8 _ 7); lia.
  - replace ((length binary + 7) / 8) with (S (length binary / 8)).
    + rewrite seq_S, map_app. cbn [map Nat.add].
      erewrite for_each_snoc by (apply binary_to_text_prefix; [exact Hb | lia]).
      apply binary_to_text_body_short. lia.
    + apply (Nat.div_unique _ 8 _ (length binary mod 8 - 1)); lia.
Qed.

Lemma fold_bits_bin_pos p : forall acc a,
  fold_left bits_step (bin_pos p acc) a
  = fold_left bits_step acc (a * 2 ^ N.of_nat (Pos.size_nat p) + N.pos p)%N.
Proof.
  induction p as [q IH|q IH|]; intros acc a.
  - cbn [bin_pos]. rewrite IH. cbn [fold_left]. f_equal.
    unfold bits_step. cbn [Ascii.eqb Bool.eqb]. simpl Ascii.eqb.
    replace (N.of_nat (Pos.size_nat q~1)) with (N.succ (N.of_nat (Pos.size_nat q)))
      by (simpl Pos.size_nat; lia).
    rewrite N.pow_succ_r'. lia.
  - cbn [bin_pos]. rewrite IH. cbn [fold_left]. f_equal.
    unfold bits_step. simpl Ascii.eqb.
    replace (N.of_nat (Pos.size_nat q~0)) with (N.succ (N.of_nat (Pos.size_nat q)))
      by (simpl Pos.size_nat; lia).
    rewrite N.pow_succ_r'. lia.
  - cbn [bin_pos fold_left]. f_equal.
    unfold bits_step. simpl Ascii.eqb. change (N.of_nat (Pos.size_nat 1)) with 1%N.
    cbv iota. rewrite N.pow_1_r. lia.
Qed.

Lemma fold_bits_zeros k : forall s,
  fold_left bits_step (repeat "0"%char k ++ s) 0%N = fold_left bits_step s 0%N.
Proof. induction k as [|k IH]; intros s; simpl; [reflexivity | apply IH]. Qed.

Lemma bits_value_format_08b c : bits_value (format_08b c) = c.
Proof.
  unfold bits_value, format_08b. rewrite fold_bits_zeros.
  destruct c as [|p]; [reflexivity|].
  unfold bin_digits. rewrite fold_bits_bin_pos. simpl. reflexivity.
Qed.

Lemma bin_pos_is_bit p : forall acc, Forall is_bit acc -> Forall is_bit (bin_pos p acc).
Proof.
  induction p as [q IH|q IH|]; intros acc H; cbn [bin_pos].
  - apply IH. constructor; [right; reflexivity | exact H].
  - apply IH. constructor; [left; reflexivity | exact H].
  - constructor; [right; reflexivity | exact H].
Qed.

Lemma format_08b_is_bit c : Forall is_bit (format_08b c).
Proof.
  unfold format_08b. apply Forall_app. split.
  - apply Forall_forall. intros x Hx. apply repeat_spec in Hx. left. exact Hx.
  - destruct c as [|p]; cbn [bin_digits].
    + constructor; [left; reflexivity | constructor].
    + apply bin_pos_is_bit. constructor.
Qed.

Lemma text_to_binary_is_bit text : Forall is_bit (text_to_binary text).
Proof.
  induction text as [|c text IH]; [constructor|].
  rewrite text_to_binary_cons. apply Forall_app. split;
    [apply format_08b_is_bit | exact IH].
Qed.

Lemma format_08b_wide c : ~ is_byte c -> 8 < length (format_08b c).
Proof.
  intros H. rewrite format_08b_length.
  pose proof (bin_digits_length c) as B. destruct B as [B _].
  assert (~ length (bin_digits c) <= 8) by tauto. lia.
Qed.

Lemma format_08b_narrow c : is_byte c -> length (format_08b c) = 8.
Proof. intros H. rewrite format_08b_byte by exact H. reflexivity. Qed.

Lemma text_to_binary_length_bytes text :
  length (text_to_binary text) = 8 * length text <-> Forall is_byte text.
Proof.
  induction text as [|c text IH].
  - split; [constructor | reflexivity].
  - rewrite text_to_binary_cons, length_app. simpl length.
    pose proof (text_to_binary_length_ge text) as G.
    pose proof (format_08b_length c) as F.
    split.
    + intros H.
      assert (Hc : is_byte c).
      { apply bin_digits_length. lia. }
      constructor; [exact Hc|]. apply IH.
      rewrite format_08b_narrow in H by exact Hc. lia.
    + intros H. inversion H as [|? ? Hc Ht]; subst.
      rewrite format_08b_narrow by exact Hc. apply IH in Ht. lia.
Qed.

Lemma binary_to_text_bytes binary st text st' :
  Forall is_bit binary -> binary_to_text binary st = Ok (text, st') ->
  Forall is_byte text.
Proof.
  intros Hb H. rewrite binary_to_text_spec in H by exact Hb.
  assert (E : text = map (fun i => bits_value (chunk8 binary i))
                         (seq 0 (length binary / 8))) by congruence.
  rewrite E. apply Forall_map, Forall_forall. intros i Hi.
  apply in_seq in Hi. apply bits_value_byte. rewrite chunk8_length.
  pose proof (Nat.div_mod_eq (length binary) 8). lia.
Qed.

(** C7: for every byte sequence, [text_to_binary] emits, in input order, the
    eight bits of each byte, most significant bit first; the result is a bit
    string of exactly [8 * len(data)] characters. *)
Theorem text_to_binary_msb_first (data : list N) :
  Forall is_byte data ->
  text_to_binary data = flat_map byte_bits data /\
  length (text_to_binary data) = 8 * length data /\
  Forall is_bit (text_to_binary data).
Proof.
  intros H. rewrite (text_to_binary_bytes H). split; [reflexivity|]. split.
  - apply flat_map_byte_bits_length.
  - apply flat_map_byte_bits_is_bit.
Qed.

Lemma text_to_binary_msb_first_witness :
  Forall is_byte [65; 255]%N /\
  text_to_binary [65; 255]%N = str "0100000111111111" /\
  length (text_to_binary [65; 255]%N) = 16.
Proof.
  assert (H : Forall is_byte [65; 255]%N)
    by (repeat constructor).
  split; [exact H|].
  destruct (text_to_binary_msb_first H) as (E & L & _).
  split; [rewrite E; reflexivity | exact L].
Defined.

(** C8: [binary_to_text] groups a bit string into chunks of 8 in order and
    turns each full chunk into its byte; a trailing chunk shorter than 8 is
    dropped without an error, so the result has [len(binary) // 8] bytes and
    is the result for the bit string cut to a multiple of 8; twelve bits give
    one byte and the empty bit string gives the empty text. *)
Theorem binary_to_text_truncates (binary : list ascii) (st : rng_state) :
  Forall is_bit binary ->
  exists text,
    binary_to_text binary st = Ok (text, st) /\
    length text = length binary / 8 /\
    (forall i, i < length binary / 8 ->
               nth i text 0%N = bits_value (chunk8 binary i)) /\
    binary_to_text (firstn (8 * (length binary / 8)) binary) st = Ok (text, st) /\
    (length binary = 12 -> length text = 1) /\
    (binary = [] -> text = []).
Proof.
  intros Hb.
  exists (map (fun i => bits_value (chunk8 binary i)) (seq 0 (length binary / 8))).
  pose proof (Nat.div_mod_eq (length binary) 8) as D.
  split; [apply binary_to_text_spec; exact Hb|].
  split; [rewrite length_map, length_seq; reflexivity|].
  split.
  { intros i Hi.
    rewrite (nth_indep _ 0%N (bits_value (chunk8 binary 0)))
      by (rewrite length_map, length_seq; exact Hi).
    rewrite (map_nth (fun i => bits_value (chunk8 binary i))).
    rewrite seq_nth by exact Hi. reflexivity. }
  split.
  { rewrite binary_to_text_spec by (apply Forall_firstn; exact Hb).
    rewrite length_firstn.
    replace (Nat.min (8 * (length binary / 8)) (length binary))
      with ((length binary / 8) * 8) by lia.
    rewrite Nat.div_mul by discriminate.
    f_equal. f_equal. apply map_ext_in. intros i Hi. apply in_seq in Hi.
    f_equal. unfold chunk8.
    rewrite skipn_firstn_comm, firstn_firstn. f_equal. lia. }
  split.
  - intros L. rewrite length_map, length_seq, L. reflexivity.
  - intros ->. reflexivity.
Qed.

Lemma binary_to_text_truncates_witness :
  Forall is_bit (str "010000011010") /\
  binary_to_text (str "010000011010") (Rng (fun _ => 0%R) 0)
  = Ok ([65%N], Rng (fun _ => 0%R) 0).
Proof.
  assert (H : Forall is_bit (str "010000011010"))
    by (repeat constructor; (left; reflexivity) || (right; reflexivity)).
  split; [exact H|].
  destruct (binary_to_text_truncates (Rng (fun _ => 0%R) 0) H)
    as (text & E & _ & V & _ & _ & _).
  rewrite E. f_equal. f_equal.
  pose proof (binary_to_text_spec (Rng (fun _ => 0%R) 0) H) as E'.
  rewrite E in E'. injection E' as ->. reflexivity.
Defined.

(** C10: [text_to_binary] emits exactly 8 bits per character exactly when
    every code point is below 256.  A code point of 256 or more is written
    with all its binary digits, more than 8, none cut off; the output is then
    longer than [8 * len(text)], and [binary_to_text] reads it back without
    an error as a different text. *)
Theorem text_to_binary_wide_code_points (text : list N) :
  (length (text_to_binary text) = 8 * length text <-> Forall is_byte text) /\
  (forall c, ~ is_byte c ->
             8 < length (format_08b c) /\ bits_value (format_08b c) = c) /\
  (Exists (fun c => ~ is_byte c) text ->
   8 * length text < length (text_to_binary text) /\
   forall st, exists text',
     binary_to_text (text_to_binary text) st = Ok (text', st) /\ text' <> text).
Proof.
  split; [apply text_to_binary_length_bytes|].
  split.
  { intros c Hc. split; [apply format_08b_wide; exact Hc
                        | apply bits_value_format_08b]. }
  intros Hex.
  assert (NB : ~ Forall is_byte text).
  { intros F. apply Exists_exists in Hex. destruct Hex as (c & Hin & Hc).
    rewrite Forall_forall in F. auto. }
  split.
  - pose proof (text_to_binary_length_ge text) as G.
    pose proof (text_to_binary_length_bytes text) as [E _].
    destruct (Nat.eq_dec (length (text_to_binary text)) (8 * length text)) as [e|ne];
      [tauto | lia].
  - intros st. eexists. split.
    + apply binary_to_text_spec, text_to_binary_is_bit.
    + intros E. apply NB. rewrite <- E.
      eapply binary_to_text_bytes;
        [apply text_to_binary_is_bit
        | apply (binary_to_text_spec st), text_to_binary_is_bit].
Qed.

Lemma text_to_binary_wide_code_points_witness :
  Exists (fun c => ~ is_byte c) [256; 65]%N /\
  8 * length [256; 65]%N < length (text_to_binary [256; 65]%N) /\
  text_to_binary [256; 65]%N = str "10000000001000001" /\
  binary_to_text (text_to_binary [256; 65]%N) (Rng (fun _ => 0%R) 0)
  = Ok ([128; 32]%N, Rng (fun _ => 0%R) 0).
Proof.
  assert (H : Exists (fun c => ~ is_byte c) [256; 65]%N)
    by (constructor; unfold is_byte; lia).
  split; [exact H|].
  destruct (text_to_binary_wide_code_points [256; 65]%N) as (_ & _ & W).
  destruct (W H) as (L & _).
  split; [exact L|]. split; reflexivity.
Defined.

(** ** The window length *)

Lemma int_of_float_nonneg x : (0 <= x)%R -> int_of_float x = Int_part x.
Proof. intros H. unfold int_of_float. destruct (Rle_dec 0 x); tauto. Qed.

Lemma int_of_float_bounds x : (0 <= x)%R ->
  (IZR (int_of_float x) <= x < IZR (int_of_float x) + 1)%R.
Proof.
  intros H. rewrite int_of_float_nonneg by exact H.
  destruct (base_Int_part x) as [A B]. lra.
Qed.

Lemma int_of_float_unique x z :
  (0 <= x)%R -> (IZR z <= x < IZR z + 1)%R -> int_of_float x = z.
Proof.
  intros H B. rewrite int_of_float_nonneg by exact H.
  symmetry. apply Int_part_spec. lra.
Qed.

Lemma int_of_float_IZR z : (0 <= z)%Z -> int_of_float (IZR z) = z.
Proof.
  intros H. apply int_of_float_unique; [apply IZR_le in H; lra | lra].
Qed.

Lemma samples_per_bit_tools : samples_per_bit tools_config = 441%Z.
Proof.
  unfold samples_per_bit, tools_config; cbn [bit_duration sample_rate].
  replace (2 / 100 * 22050)%R with (IZR 441) by lra.
  apply int_of_float_IZR. lia.
Qed.

(** The real-number reading agrees with binary64 here: the rounded product
    of the two doubles is exactly 441.0. *)
Lemma samples_per_bit_tools_binary64 :
  PrimFloat.mul Binary64.bit_duration Binary64.sample_rate = Binary64.window.
Proof. reflexivity. Qed.

Lemma samples_per_bit_fractional : samples_per_bit fractional_config = 1%Z.
Proof.
  unfold samples_per_bit, fractional_config; cbn [bit_duration sample_rate].
  apply int_of_float_unique; lra.
Qed.

Lemma samples_per_bit_one_sample : samples_per_bit one_sample_config = 1%Z.
Proof.
  unfold samples_per_bit, one_sample_config; cbn [bit_duration sample_rate].
  apply int_of_float_unique; lra.
Qed.

(** The tuning-sound generator shows the truncation on the repository's own
    constants: 0.012 * 22050 = 264.6 gives 264 samples, where the nearest
    integer is 265. *)
Lemma samples_per_segment_truncated :
  samples_per_segment = 264%Z /\
  ~ nearest_integer (12 / 1000 * IZR 22050) samples_per_segment.
Proof.
  assert (E : samples_per_segment = 264%Z)
    by (unfold samples_per_segment; apply int_of_float_unique; lra).
  split; [exact E|]. rewrite E. intros H. specialize (H 265%Z).
  replace (12 / 1000 * 22050 - 264)%R with (6 / 10)%R in H by lra.
  replace (12 / 1000 * 22050 - 265)%R with (Ropp (4 / 10)) in H by lra.
  rewrite Rabs_Ropp, !Rabs_pos_eq in H by lra. lra.
Qed.

(** C2 as stated fails: under [fractional_config] the product of duration and
    rate is 1.75, the window length the code derives is 1, and 1 is not a
    nearest integer of 1.75. *)
Lemma samples_per_bit_not_rounded :
  valid_config fractional_config /\
  ~ nearest_integer
      (bit_duration fractional_config * IZR (sample_rate fractional_config))
      (samples_per_bit fractional_config).
Proof.
  split.
  - split.
    + unfold valid_parameters, fractional_config; cbn.
      repeat split; try lra; try lia.
    + rewrite samples_per_bit_fractional. lia.
  - rewrite samples_per_bit_fractional. intros H. specialize (H 2%Z).
    unfold fractional_config in H; cbn in H.
    replace (7 / 8 * 2 - 1)%R with (3 / 4)%R in H by lra.
    replace (7 / 8 * 2 - 2)%R with (- (1 / 4))%R in H by lra.
    rewrite Rabs_Ropp in H. rewrite !Rabs_pos_eq in H by lra. lra.
Qed.

(** ** The modulator *)

Lemma setitem_middle pre x rest v :
  Np.setitem (pre ++ x :: rest) (length pre) v = Ok (pre ++ v :: rest).
Proof.
  unfold Np.setitem. rewrite length_app. simpl length.
  destruct (Nat.ltb_spec (length pre) (length pre + S (length rest))) as [_|H];
    [|lia].
  f_equal. f_equal.
  - rewrite firstn_app, Nat.sub_diag, firstn_all. simpl. apply app_nil_r.
  - f_equal. rewrite skipn_app, skipn_all2 by lia.
    replace (S (length pre) - length pre) with 1 by lia. reflexivity.
Qed.

Section Modulator.

Variable cfg : ModulationConfig.
Variable st0 : rng_state.
Hypothesis rate_nonzero : sample_rate cfg <> 0%Z.

Lemma inner_step frequency i pre rest :
  write_sample cfg frequency i (pre ++ 0%R :: rest, length pre)
        (Rng (stream st0) (drawn st0 + length pre))
  = Ok ((pre ++ tone cfg st0 frequency (length pre) :: rest, S (length pre)),
        Rng (stream st0) (drawn st0 + S (length pre))).
Proof.
  unfold write_sample, bind, lift, truediv, uniform, random, bind, ret.
  destruct (Z.eqb_spec (sample_rate cfg) 0) as [E|_]; [contradiction|].
  cbn [stream drawn]. rewrite setitem_middle.
  rewrite Nat.add_succ_r. reflexivity.
Qed.

Lemma inner_loop frequency : forall (xs : list nat) pre m,
  length xs <= m ->
  for_each xs (pre ++ repeat 0%R m, length pre) (write_sample cfg frequency)
           (Rng (stream st0) (drawn st0 + length pre))
  = Ok ((pre ++ map (tone cfg st0 frequency) (seq (length pre) (length xs))
             ++ repeat 0%R (m - length xs),
         length pre + length xs),
        Rng (stream st0) (drawn st0 + (length pre + length xs))).
Proof.
  induction xs as [|x xs IH]; intros pre m Hm.
  - simpl. rewrite Nat.sub_0_r, !Nat.add_0_r. reflexivity.
  - simpl in Hm. destruct m as [|m]; [lia|].
    cbn [for_each repeat]. unfold bind at 1. rewrite inner_step.
    specialize (IH (pre ++ [tone cfg st0 frequency (length pre)]) m ltac:(lia)).
    rewrite length_app in IH. cbn [length] in IH.
    rewrite Nat.add_1_r in IH. rewrite <- app_assoc in IH. cbn [app] in IH.
    rewrite IH. cbn [length seq map Nat.sub].
    f_equal. f_equal.
    + f_equal; [|lia]. rewrite <- app_assoc. reflexivity.
    + f_equal. lia.
Qed.

Lemma outer_loop (w : nat -> R) : forall (bs : list ascii) pre m,
  length bs * (window_length cfg) <= m ->
  (forall i j, i < length bs -> j < (window_length cfg) ->
     w (length pre + i * (window_length cfg) + j)
     = tone cfg st0 (bit_frequency cfg (nth i bs "0"%char))
            (length pre + i * (window_length cfg) + j)) ->
  for_each bs (pre ++ repeat 0%R m, length pre) (write_bit cfg)
           (Rng (stream st0) (drawn st0 + length pre))
  = Ok ((pre ++ map w (seq (length pre) (length bs * (window_length cfg)))
             ++ repeat 0%R (m - length bs * (window_length cfg)),
         length pre + length bs * (window_length cfg)),
        Rng (stream st0) (drawn st0 + (length pre + length bs * (window_length cfg)))).
Proof.
  induction bs as [|b bs IH]; intros pre m Hm Hw.
  - simpl. rewrite Nat.sub_0_r, !Nat.add_0_r. reflexivity.
  - cbn [length Nat.mul] in Hm.
    cbn [for_each]. unfold bind at 1. unfold write_bit at 1.
    pose proof (inner_loop (bit_frequency cfg b) (range (samples_per_bit cfg))
                           pre (m := m)) as L.
    unfold range in L. rewrite length_seq in L. fold (window_length cfg) in L.
    specialize (L ltac:(lia)).
    unfold range. fold (window_length cfg). unfold bit_frequency in L. rewrite L. clear L.
    assert (E : map (tone cfg st0 (if Ascii.eqb b "1" then frequency_1 cfg
                                   else frequency_0 cfg))
                    (seq (length pre) (window_length cfg))
                = map w (seq (length pre) (window_length cfg))).
    { apply map_ext_in. intros n Hn. apply in_seq in Hn.
      specialize (Hw 0 (n - length pre) ltac:(simpl; lia) ltac:(lia)).
      cbn [nth Nat.mul] in Hw.
      replace (length pre + 0 + (n - length pre)) with n in Hw by lia.
      symmetry. exact Hw. }
    rewrite E. clear E.
    specialize (IH (pre ++ map w (seq (length pre) (window_length cfg))) (m - (window_length cfg))).
    rewrite length_app, length_map, length_seq in IH.
    rewrite <- app_assoc in IH. rewrite IH; clear IH.
    + cbn [length Nat.mul]. f_equal. f_equal.
      * f_equal; [|lia]. rewrite <- app_assoc. f_equal.
        rewrite app_assoc, <- map_app, <- seq_app. f_equal.
        f_equal. lia.
      * f_equal. lia.
    + lia.
    + intros i j Hi Hj.
      specialize (Hw (S i) j ltac:(simpl; lia) Hj). cbn [nth] in Hw.
      replace (length pre + (window_length cfg) + i * (window_length cfg) + j)
        with (length pre + S i * (window_length cfg) + j) by (simpl; lia).
      exact Hw.
Qed.

Hypothesis window_nonneg : (0 <= samples_per_bit cfg)%Z.

Lemma generate_encoded_sound_spec (binary : list ascii) :
  generate_encoded_sound cfg binary st0
  = Ok (map (wave cfg binary st0) (seq 0 (length binary * (window_length cfg))),
        Rng (stream st0) (drawn st0 + length binary * (window_length cfg))).
Proof.
  unfold generate_encoded_sound, bind at 1, lift at 1, Np.zeros, len.
  destruct (Z.ltb_spec (Z.of_nat (length binary) * samples_per_bit cfg) 0)
    as [H|_]; [nia|].
  replace (Z.to_nat (Z.of_nat (length binary) * samples_per_bit cfg))
    with (length binary * (window_length cfg)) by (unfold window_length; nia).
  unfold bind at 1.
  pose proof (outer_loop (wave cfg binary st0) binary []
                         (m := length binary * (window_length cfg))) as L.
  cbn [app length] in L. rewrite Nat.add_0_r in L.
  replace (Rng (stream st0) (drawn st0)) with st0 in L by (destruct st0; reflexivity).
  match goal with
  | |- context [for_each binary ?x ?f st0] =>
      change (for_each binary x f st0) with (for_each binary x (write_bit cfg) st0)
  end.
  rewrite L; clear L.
  - unfold ret. cbn [fst]. rewrite Nat.sub_diag. cbn [repeat].
    rewrite app_nil_r. reflexivity.
  - lia.
  - intros i j Hi Hj. cbn [Nat.add]. unfold wave. fold (window_length cfg).
    f_equal. f_equal. f_equal.
    rewrite Nat.div_add_l by lia.
    rewrite Nat.div_small by exact Hj. lia.
Qed.

End Modulator.

(** ** Computations that leave the generator alone *)

Lemma stateless_lift {A} (o : outcome A) : stateless (lift o).
Proof. exists o. reflexivity. Qed.

Lemma stateless_ret {A} (a : A) : stateless (ret a).
Proof. exists (Ok a). reflexivity. Qed.

Lemma stateless_bind {A B} (m : M A) (k : A -> M B) :
  stateless m -> (forall a, stateless (k a)) -> stateless (bind m k).
Proof.
  intros [o Ho] Hk. destruct o as [a|e].
  - destruct (Hk a) as [o' Ho']. exists o'. intros st.
    unfold bind. rewrite Ho. simpl. apply Ho'.
  - exists (Raise e). intros st. unfold bind. rewrite Ho. reflexivity.
Qed.

Lemma stateless_for_each {A T} (xs : list A) (body : A -> T -> M T) :
  (forall x s, stateless (body x s)) -> forall s, stateless (for_each xs s body).
Proof.
  intros Hb. induction xs as [|x xs IH]; intros s; cbn [for_each].
  - apply stateless_ret.
  - apply stateless_bind; [apply Hb | exact IH].
Qed.

Lemma stateless_dominant_freq cfg segment : stateless (dominant_freq cfg segment).
Proof.
  unfold dominant_freq.
  repeat (apply stateless_bind; [apply stateless_lift | intros ?]).
  apply stateless_ret.
Qed.

Lemma stateless_decode cfg samples : stateless (decode_audio_to_binary cfg samples).
Proof.
  unfold decode_audio_to_binary.
  apply stateless_bind; [apply stateless_lift | intros num_bits].
  apply stateless_for_each. intros i binary.
  apply stateless_bind; [apply stateless_dominant_freq | intros f].
  apply stateless_ret.
Qed.

Lemma stateless_binary_to_text binary : stateless (binary_to_text binary).
Proof.
  unfold binary_to_text. apply stateless_for_each. intros i text.
  unfold binary_to_text_body.
  destruct (len (slice binary i (i + 8)) =? 8)%Z; [|apply stateless_ret].
  repeat (apply stateless_bind; [apply stateless_lift | intros ?]).
  apply stateless_ret.
Qed.

(** ** The demodulator *)

Lemma argmax_from_bound a : forall i best m,
  best < i -> Np.argmax_from a i best m < i + length a.
Proof.
  induction a as [|x a IH]; intros i best m H; cbn [Np.argmax_from length].
  - lia.
  - destruct (Rlt_dec m x).
    + specialize (IH (S i) i x ltac:(lia)). lia.
    + specialize (IH (S i) best m ltac:(lia)). lia.
Qed.

Lemma fft_length x : length (Np.fft x) = length x.
Proof. unfold Np.fft. rewrite length_map, length_seq. reflexivity. Qed.

Lemma fftfreq_length n d : length (Np.fftfreq n d) = n.
Proof. unfold Np.fftfreq. rewrite length_map, length_seq. reflexivity. Qed.

Lemma peak_bin_bound segment : segment <> [] -> peak_bin segment < length segment.
Proof.
  intros Hne. unfold peak_bin.
  pose proof (fft_length segment) as L.
  rewrite <- (length_map Np.abs_c) in L.
  destruct (map Np.abs_c (Np.fft segment)) as [|x a].
  - destruct segment; [congruence | discriminate].
  - pose proof (argmax_from_bound a (i := 1) (best := 0) x ltac:(lia)) as B.
    simpl in L. lia.
Qed.

Lemma dominant_freq_spec cfg segment st :
  sample_rate cfg <> 0%Z -> segment <> [] ->
  dominant_freq cfg segment st = Ok (dominant_value cfg segment, st).
Proof.
  intros Hr Hne. pose proof (peak_bin_bound Hne) as B.
  unfold dominant_freq, dominant_value, peak_bin in *.
  unfold bind, lift, truediv, ret.
  destruct (Z.eqb_spec (sample_rate cfg) 0) as [E|_]; [contradiction|].
  unfold Np.argmax.
  destruct (map Np.abs_c (Np.fft segment)) as [|x a] eqn:F.
  - apply (f_equal (@length R)) in F.
    rewrite length_map, fft_length in F. destruct segment; [congruence|discriminate].
  - unfold Np.getitem.
    set (k := Np.argmax_from a 1 0 x) in *.
    set (freqs := Np.fftfreq (length segment) (IZR 1 / IZR (sample_rate cfg))).
    assert (K : k < length freqs) by (unfold freqs; rewrite fftfreq_length; exact B).
    rewrite (nth_error_nth' freqs 0%R K). reflexivity.
Qed.

Section Demodulator.

Variable cfg : ModulationConfig.
Hypothesis rate_nonzero : sample_rate cfg <> 0%Z.
Hypothesis window_pos : (1 <= samples_per_bit cfg)%Z.

Lemma window_length_pos : 1 <= window_length cfg.
Proof. unfold window_length. lia. Qed.

Lemma slice_segment_of (samples : list R) i :
  slice samples (Z.of_nat i * samples_per_bit cfg)
                ((Z.of_nat i + 1) * samples_per_bit cfg)
  = segment_of cfg samples i.
Proof.
  unfold slice, segment_of, window_length. f_equal; [nia|]. f_equal. nia.
Qed.

Lemma segment_of_length (samples : list R) i :
  (i + 1) * window_length cfg <= length samples ->
  length (segment_of cfg samples i) = window_length cfg.
Proof.
  intros H. unfold segment_of. rewrite length_firstn, length_skipn. lia.
Qed.

Lemma decode_body_step samples i binary st :
  (i + 1) * window_length cfg <= length samples ->
  decode_window cfg samples i binary st
  = Ok (binary ++ [classify cfg (dominant_value cfg (segment_of cfg samples i))],
        st).
Proof.
  intros H. unfold decode_window. rewrite slice_segment_of. unfold bind.
  rewrite dominant_freq_spec; [reflexivity | exact rate_nonzero |].
  intros E. apply (f_equal (@length R)) in E.
  rewrite (segment_of_length _ _ H) in E.
  pose proof window_length_pos. simpl in E. lia.
Qed.

Lemma decode_prefix samples st : forall k,
  k <= length samples / window_length cfg ->
  for_each (seq 0 k) [] (decode_window cfg samples) st
  = Ok (map (fun i => classify cfg (dominant_value cfg (segment_of cfg samples i)))
            (seq 0 k), st).
Proof.
  induction k as [|k IH]; intros Hk; [reflexivity|].
  rewrite seq_S, map_app. cbn [map Nat.add].
  erewrite for_each_snoc by (apply IH; lia).
  apply decode_body_step.
  pose proof window_length_pos as P.
  pose proof (Nat.div_mod_eq (length samples) (window_length cfg)) as D.
  nia.
Qed.

Lemma num_bits_window (samples : list R) :
  Z.to_nat (len samples / samples_per_bit cfg)
  = length samples / window_length cfg.
Proof.
  unfold len, window_length.
  replace (samples_per_bit cfg) with (Z.of_nat (Z.to_nat (samples_per_bit cfg)))
    at 1 by lia.
  rewrite <- Nat2Z.inj_div. lia.
Qed.

Lemma decode_audio_to_binary_spec samples st :
  decode_audio_to_binary cfg samples st
  = Ok (map (fun i => classify cfg (dominant_value cfg (segment_of cfg samples i)))
            (seq 0 (length samples / window_length cfg)), st).
Proof.
  unfold decode_audio_to_binary, bind at 1, lift, floordiv.
  destruct (Z.eqb_spec (samples_per_bit cfg) 0) as [E|_]; [lia|].
  unfold range. rewrite num_bits_window.
  apply (decode_prefix samples st (k := length samples / window_length cfg)).
  lia.
Qed.

End Demodulator.

(** ** Claims about the modulator *)

Lemma valid_config_rate cfg : valid_config cfg -> sample_rate cfg <> 0%Z.
Proof. intros [(H & _) _]. lia. Qed.

Lemma valid_config_window cfg : valid_config cfg -> (1 <= samples_per_bit cfg)%Z.
Proof. intros [_ H]. exact H. Qed.

Lemma generate_encoded_sound_valid cfg binary st :
  valid_config cfg ->
  generate_encoded_sound cfg binary st
  = Ok (map (wave cfg binary st) (seq 0 (length binary * window_length cfg)),
        Rng (stream st) (drawn st + length binary * window_length cfg)).
Proof.
  intros V. apply generate_encoded_sound_spec.
  - apply valid_config_rate, V.
  - pose proof (valid_config_window V). lia.
Qed.

(** C4: for every bit string, the empty one included, and every valid
    configuration, [generate_encoded_sound] returns a buffer (it does not
    raise) of exactly [len(binary) * samples_per_bit] samples. *)
Theorem generate_encoded_sound_length
  (cfg : ModulationConfig) (binary : list ascii) (st : rng_state) :
  valid_config cfg ->
  exists samples st',
    generate_encoded_sound cfg binary st = Ok (samples, st') /\
    len samples = (len binary * samples_per_bit cfg)%Z /\
    (binary = [] -> samples = []).
Proof.
  intros V. eexists. eexists.
  split; [apply generate_encoded_sound_valid; exact V|].
  split.
  - unfold len. rewrite length_map, length_seq. unfold window_length.
    pose proof (valid_config_window V). nia.
  - intros ->. reflexivity.
Qed.

Lemma generate_encoded_sound_length_witness :
  valid_config tools_config /\
  exists samples st',
    generate_encoded_sound tools_config (str "01") (Rng (fun _ => 0%R) 0)
    = Ok (samples, st') /\
    len samples = 882%Z.
Proof.
  assert (V : valid_config tools_config).
  { split.
    - unfold valid_parameters, tools_config; cbn.
      repeat split; try lra; try lia.
    - rewrite samples_per_bit_tools. lia. }
  split; [exact V|].
  destruct (generate_encoded_sound_length (str "01") (Rng (fun _ => 0%R) 0) V)
    as (samples & st' & E & L & _).
  exists samples, st'. split; [exact E|].
  rewrite L, samples_per_bit_tools. reflexivity.
Defined.

(** ** Claims about the demodulator *)

Lemma decode_audio_to_binary_valid cfg samples st :
  valid_config cfg ->
  decode_audio_to_binary cfg samples st
  = Ok (map (fun i => classify cfg (dominant_value cfg (segment_of cfg samples i)))
            (seq 0 (length samples / window_length cfg)), st).
Proof.
  intros V. apply decode_audio_to_binary_spec;
    [apply valid_config_rate | apply valid_config_window]; exact V.
Qed.

Lemma classify_is_bit cfg d : is_bit (classify cfg d).
Proof. unfold classify. destruct (Rlt_dec _ _); [right|left]; reflexivity. Qed.

Lemma segment_of_firstn cfg (samples : list R) q i :
  i < q ->
  segment_of cfg (firstn (q * window_length cfg) samples) i
  = segment_of cfg samples i.
Proof.
  intros H. unfold segment_of.
  rewrite skipn_firstn_comm, firstn_firstn. f_equal. nia.
Qed.

(** C5: under a valid configuration the demodulator returns, for every
    buffer, exactly [len(samples) // samples_per_bit] bits and no error; the
    samples after the last whole window do not matter; a buffer shorter than
    one window, the empty one included, gives the empty bit string. *)
Theorem decode_audio_to_binary_length
  (cfg : ModulationConfig) (samples : list R) (st : rng_state) :
  valid_config cfg ->
  exists binary,
    decode_audio_to_binary cfg samples st = Ok (binary, st) /\
    Forall is_bit binary /\
    len binary = (len samples / samples_per_bit cfg)%Z /\
    decode_audio_to_binary
      cfg (firstn (length binary * window_length cfg) samples) st
    = Ok (binary, st) /\
    ((len samples < samples_per_bit cfg)%Z -> binary = []).
Proof.
  intros V. pose proof (valid_config_window V) as W.
  set (q := length samples / window_length cfg).
  assert (Q : Z.of_nat q = (len samples / samples_per_bit cfg)%Z).
  { unfold q. rewrite <- (@num_bits_window cfg W samples). unfold len.
    rewrite Z2Nat.id; [reflexivity|]. apply Z.div_pos; lia. }
  eexists. split; [apply decode_audio_to_binary_valid; exact V|].
  fold q. split; [|split; [|split]].
  - apply Forall_map, Forall_forall. intros i _. apply classify_is_bit.
  - unfold len at 1. rewrite length_map, length_seq. exact Q.
  - rewrite length_map, length_seq.
    rewrite decode_audio_to_binary_valid by exact V.
    assert (L : length (firstn (q * window_length cfg) samples) / window_length cfg = q).
    { rewrite length_firstn.
      pose proof (Nat.div_mod_eq (length samples) (window_length cfg)) as D.
      fold q in D.
      replace (Nat.min (q * window_length cfg) (length samples))
        with (q * window_length cfg) by nia.
      apply Nat.div_mul. unfold window_length. lia. }
    rewrite L. f_equal. f_equal. apply map_ext_in. intros i Hi.
    apply in_seq in Hi. rewrite segment_of_firstn by lia. reflexivity.
  - intros Hs. assert (q = 0) as ->; [|reflexivity].
    apply Nat2Z.inj. rewrite Q. apply Z.div_small. unfold len in *. lia.
Qed.

Lemma decode_audio_to_binary_length_witness :
  valid_config tie_config /\
  decode_audio_to_binary tie_config [1; 0; 0]%R (Rng (fun _ => 0%R) 0)
  = decode_audio_to_binary tie_config [1; 0]%R (Rng (fun _ => 0%R) 0) /\
  decode_audio_to_binary tie_config [1]%R (Rng (fun _ => 0%R) 0)
  = Ok ([], Rng (fun _ => 0%R) 0).
Proof.
  assert (S : samples_per_bit tie_config = 2%Z).
  { unfold samples_per_bit, tie_config; cbn [bit_duration sample_rate].
    apply int_of_float_unique; lra. }
  assert (V : valid_config tie_config).
  { split.
    - unfold valid_parameters, tie_config; cbn.
      repeat split; try lra; try lia.
    - rewrite S. lia. }
  split; [exact V|]. split.
  - destruct (decode_audio_to_binary_length [1; 0; 0]%R (Rng (fun _ => 0%R) 0) V)
      as (binary & E & _ & L & T & _).
    rewrite E, <- T.
    unfold len in L. rewrite S in L. cbn [length] in L.
    change (Z.of_nat 3 / 2)%Z with 1%Z in L.
    assert (length binary = 1) as -> by lia.
    unfold window_length. rewrite S. reflexivity.
  - destruct (decode_audio_to_binary_length [1]%R (Rng (fun _ => 0%R) 0) V)
      as (binary & E & _ & _ & _ & Z).
    rewrite E. rewrite Z; [reflexivity|]. rewrite S. unfold len. simpl. lia.
Defined.

(** C9: the demodulator neither reads nor changes any state: for a given
    configuration and buffer it is one fixed outcome, so two runs on the same
    buffer, whatever happened in between, return identical bit strings. *)
Theorem decode_audio_to_binary_deterministic
  (cfg : ModulationConfig) (samples : list R) :
  (exists o : outcome (list ascii),
      forall st, decode_audio_to_binary cfg samples st = lift o st) /\
  (forall st1 st2 binary1 binary2 st1' st2',
      decode_audio_to_binary cfg samples st1 = Ok (binary1, st1') ->
      decode_audio_to_binary cfg samples st2 = Ok (binary2, st2') ->
      binary1 = binary2 /\ st1' = st1 /\ st2' = st2).
Proof.
  destruct (stateless_decode cfg samples) as [o Ho].
  split; [exists o; exact Ho|].
  intros st1 st2 b1 b2 st1' st2' H1 H2.
  rewrite Ho in H1, H2. destruct o as [b|e]; simpl in H1, H2; [|discriminate].
  injection H1 as <- <-. injection H2 as <- <-. auto.
Qed.

Lemma classify_one cfg d :
  classify cfg d = "1"%char <->
  (Rabs (d - frequency_1 cfg) < Rabs (d - frequency_0 cfg))%R.
Proof.
  unfold classify. destruct (Rlt_dec _ _) as [H|H]; split; intros H';
    try assumption; try reflexivity; try discriminate; contradiction.
Qed.

Lemma classify_zero cfg d :
  classify cfg d = "0"%char <->
  ~ (Rabs (d - frequency_1 cfg) < Rabs (d - frequency_0 cfg))%R.
Proof.
  unfold classify. destruct (Rlt_dec _ _) as [H|H]; split; intros H';
    try assumption; try reflexivity; try discriminate; contradiction.
Qed.


(** A window of two samples: the two bins are the sum and the difference. *)
Lemma fft_abs_pair a b :
  map Np.abs_c (Np.fft [a; b]) = [Rabs (a + b); Rabs (a - b)]%R.
Proof.
  unfold Np.fft. cbn [length seq map Np.rsum nth INR].
  replace (2 * PI * 0 * 0 / (1 + 1))%R with 0%R by field.
  replace (2 * PI * 1 * 0 / (1 + 1))%R with 0%R by field.
  replace (2 * PI * 0 * 1 / (1 + 1))%R with 0%R by field.
  replace (2 * PI * 1 * 1 / (1 + 1))%R with PI by field.
  rewrite cos_0, sin_0, cos_PI, sin_PI. unfold Np.abs_c. cbn [fst snd].
  f_equal; [|f_equal].
  - replace ((0 + a * 1 + b * 1) * (0 + a * 1 + b * 1)
             + - (0 + a * 0 + b * 0) * - (0 + a * 0 + b * 0))%R
      with (Rsqr (a + b)) by (unfold Rsqr; ring).
    apply sqrt_Rsqr_abs.
  - replace ((0 + a * 1 + b * -1) * (0 + a * 1 + b * -1)
             + - (0 + a * 0 + b * 0) * - (0 + a * 0 + b * 0))%R
      with (Rsqr (a - b)) by (unfold Rsqr; ring).
    apply sqrt_Rsqr_abs.
Qed.

Lemma samples_per_bit_tie : samples_per_bit tie_config = 2%Z.
Proof.
  unfold samples_per_bit, tie_config; cbn [bit_duration sample_rate].
  apply int_of_float_unique; lra.
Qed.

Lemma valid_tie_config : valid_config tie_config.
Proof.
  split.
  - unfold valid_parameters, tie_config; cbn. repeat split; try lra; try lia.
  - rewrite samples_per_bit_tie. lia.
Qed.

Lemma dominant_value_tie : dominant_value tie_config [1; -1]%R = 2%R.
Proof.
  unfold dominant_value, peak_bin. rewrite fft_abs_pair.
  cbn [Np.argmax_from].
  replace (1 + -1)%R with 0%R by ring. replace (1 - -1)%R with 2%R by ring.
  rewrite Rabs_R0, (Rabs_pos_eq 2) by lra.
  destruct (Rlt_dec 0 2) as [_|H]; [|lra].
  unfold Np.fftfreq. cbn [length seq map nth Nat.ltb Nat.leb Nat.sub Nat.div
                          Nat.divmod fst Nat.add INR tie_config sample_rate].
  replace ((1 - (1 + 1)) * (1 / ((1 + 1) * (1 / 4))))%R with (Ropp 2) by field.
  rewrite Rabs_Ropp. apply Rabs_pos_eq. lra.
Qed.

Lemma decode_tie_window st :
  decode_audio_to_binary tie_config [1; -1]%R st = Ok (["0"%char], st).
Proof.
  rewrite decode_audio_to_binary_valid by apply valid_tie_config.
  unfold window_length, segment_of, window_length. rewrite samples_per_bit_tie.
  change (length [1; -1]%R / Z.to_nat 2) with 1. cbn [seq map Nat.mul skipn].
  change (firstn (Z.to_nat 2) [1; -1]%R) with [1; -1]%R.
  rewrite dominant_value_tie. f_equal. f_equal. f_equal.
  apply classify_zero. cbn [tie_config frequency_1 frequency_0].
  replace (2 - 3)%R with (Ropp 1) by ring. replace (2 - 1)%R with 1%R by ring.
  rewrite Rabs_Ropp. apply Rlt_irrefl.
Qed.

Lemma decode_audio_to_binary_deterministic_witness :
  exists binary1 binary2,
    decode_audio_to_binary tie_config [1; -1]%R (Rng (fun _ => 0%R) 0)
    = Ok (binary1, Rng (fun _ => 0%R) 0) /\
    decode_audio_to_binary tie_config [1; -1]%R (Rng (fun _ => (1 / 2)%R) 7)
    = Ok (binary2, Rng (fun _ => (1 / 2)%R) 7) /\
    binary1 = binary2.
Proof.
  exists ["0"%char], ["0"%char].
  pose proof (decode_tie_window (Rng (fun _ => 0%R) 0)) as E1.
  pose proof (decode_tie_window (Rng (fun _ => (1 / 2)%R) 7)) as E2.
  split; [exact E1|]. split; [exact E2|].
  destruct (decode_audio_to_binary_deterministic tie_config [1; -1]%R) as [_ D].
  destruct (D _ _ _ _ _ _ E1 E2) as (E & _ & _). exact E.
Defined.


(** ** Sums of sines and cosines over a whole window *)

Section TrigSums.
Local Open Scope R_scope.

Lemma rsum_ext f g n : (forall j, (j < n)%nat -> f j = g j) -> Np.rsum f n = Np.rsum g n.
Proof.
induction n as [|n IH]; intros H; simpl; [reflexivity|].
rewrite IH, H by auto with arith. reflexivity.
Qed.

Lemma rsum_plus f g n : Np.rsum (fun j => f j + g j) n = Np.rsum f n + Np.rsum g n.
Proof. induction n as [|n IH]; simpl; [ring | rewrite IH; ring]. Qed.

Lemma rsum_scal c f n : Np.rsum (fun j => c * f j) n = c * Np.rsum f n.
Proof. induction n as [|n IH]; simpl; [ring | rewrite IH; ring]. Qed.

Lemma rsum_const c n : Np.rsum (fun _ => c) n = INR n * c.
Proof.
induction n as [|n IH]; [simpl; ring|].
cbn [Np.rsum]. rewrite IH, S_INR. ring.
Qed.

(** Telescoping sums of cosines and sines in arithmetic progression. *)
Lemma cos_sum_telescope x n :
2 * sin (x / 2) * Np.rsum (fun j => cos (INR j * x)) n
= sin ((INR n - 1 / 2) * x) + sin (x / 2).
Proof.
induction n as [|n IH].
- simpl. replace ((0 - 1 / 2) * x) with (- (x / 2)) by field.
  rewrite sin_neg. ring.
- cbn [Np.rsum]. rewrite Rmult_plus_distr_l, IH, S_INR.
  replace ((INR n + 1 - 1 / 2) * x) with (INR n * x + x / 2) by field.
  replace ((INR n - 1 / 2) * x) with (INR n * x - x / 2) by field.
  rewrite sin_plus, sin_minus. ring.
Qed.

Lemma sin_sum_telescope x n :
2 * sin (x / 2) * Np.rsum (fun j => sin (INR j * x)) n
= cos (x / 2) - cos ((INR n - 1 / 2) * x).
Proof.
induction n as [|n IH].
- simpl. replace ((0 - 1 / 2) * x) with (- (x / 2)) by field.
  rewrite cos_neg. ring.
- cbn [Np.rsum]. rewrite Rmult_plus_distr_l, IH, S_INR.
  replace ((INR n + 1 - 1 / 2) * x) with (INR n * x + x / 2) by field.
  replace ((INR n - 1 / 2) * x) with (INR n * x - x / 2) by field.
  rewrite cos_plus, cos_minus. ring.
Qed.

Lemma half_step_sin_nonzero n p :
(0 < n)%nat -> (p mod n <> 0)%nat -> sin (step_angle n p / 2) <> 0.
Proof.
intros Hn Hp E. apply sin_eq_0_0 in E. destruct E as [k E].
unfold step_angle in E.
assert (Hn' : INR n <> 0) by (apply not_0_INR; lia).
assert (E' : INR p = IZR k * INR n).
{ assert (PI <> 0) by (pose proof PI_RGT_0; lra).
  apply (Rmult_eq_reg_l PI); [|assumption].
  transitivity (2 * PI * INR p / INR n / 2 * INR n); [field; assumption|].
  rewrite E. ring. }
rewrite !INR_IZR_INZ, <- mult_IZR in E'. apply eq_IZR in E'.
apply Hp. 
assert (D : (Z.of_nat p mod Z.of_nat n = 0)%Z).
{ rewrite E'. apply Z_mod_mult. }
rewrite <- Nat2Z.inj_mod in D. lia.
Qed.

Lemma cos_sum_zero n p :
(0 < n)%nat -> (p mod n <> 0)%nat ->
Np.rsum (fun j => cos (INR j * step_angle n p)) n = 0.
Proof.
intros Hn Hp. pose proof (@half_step_sin_nonzero n p Hn Hp) as NZ.
pose proof (cos_sum_telescope (step_angle n p) n) as T.
assert (Hn' : INR n <> 0) by (apply not_0_INR; lia).
replace ((INR n - 1 / 2) * step_angle n p)
  with (- (step_angle n p / 2) + 2 * INR p * PI) in T
  by (unfold step_angle; field; assumption).
rewrite sin_period, sin_neg in T.
apply (Rmult_eq_reg_l (2 * sin (step_angle n p / 2))); [|lra].
rewrite T. ring.
Qed.

Lemma sin_sum_zero n p :
(0 < n)%nat -> (p mod n <> 0)%nat ->
Np.rsum (fun j => sin (INR j * step_angle n p)) n = 0.
Proof.
intros Hn Hp. pose proof (@half_step_sin_nonzero n p Hn Hp) as NZ.
pose proof (sin_sum_telescope (step_angle n p) n) as T.
assert (Hn' : INR n <> 0) by (apply not_0_INR; lia).
replace ((INR n - 1 / 2) * step_angle n p)
  with (- (step_angle n p / 2) + 2 * INR p * PI) in T
  by (unfold step_angle; field; assumption).
rewrite cos_period, cos_neg in T.
apply (Rmult_eq_reg_l (2 * sin (step_angle n p / 2))); [|lra].
rewrite T. ring.
Qed.

(** Whole turns. *)
Lemma whole_turns n q j :
(0 < n)%nat ->
INR j * step_angle n (q * n) = 0 + 2 * INR (j * q) * PI.
Proof.
intros Hn. unfold step_angle. rewrite !mult_INR.
field. apply not_0_INR. lia.
Qed.

Lemma cos_sum_whole n q :
(0 < n)%nat -> Np.rsum (fun j => cos (INR j * step_angle n (q * n))) n = INR n.
Proof.
intros Hn. rewrite (rsum_ext _ (fun _ => 1)).
- rewrite rsum_const. ring.
- intros j _. rewrite whole_turns by exact Hn. rewrite cos_period. apply cos_0.
Qed.

Lemma sin_sum_whole n q :
(0 < n)%nat -> Np.rsum (fun j => sin (INR j * step_angle n (q * n))) n = 0.
Proof.
intros Hn. rewrite (rsum_ext _ (fun _ => 0)).
- rewrite rsum_const. ring.
- intros j _. rewrite whole_turns by exact Hn. rewrite sin_period. apply sin_0.
Qed.

Lemma sin_sum_any n p :
(0 < n)%nat -> Np.rsum (fun j => sin (INR j * step_angle n p)) n = 0.
Proof.
intros Hn. destruct (Nat.eq_dec (p mod n) 0) as [E|NE].
- apply Nat.Div0.div_exact in E. rewrite E, Nat.mul_comm.
  apply sin_sum_whole. exact Hn.
- apply sin_sum_zero; assumption.
Qed.

End TrigSums.

(** ** Sums of products of sines over a whole window *)

Lemma nth_map_seq {B} (F : nat -> B) n m d :
  m < n -> nth m (map F (seq 0 n)) d = F m.
Proof.
  intros H. rewrite (nth_indep _ d (F 0)) by (rewrite length_map, length_seq; exact H).
  rewrite map_nth, seq_nth by exact H. reflexivity.
Qed.

Lemma nth_map_in {A B} (f : A -> B) l m d d' :
  m < length l -> nth m (map f l) d = f (nth m l d').
Proof.
  intros H. rewrite (nth_indep _ d (f d')) by (rewrite length_map; exact H).
  apply map_nth.
Qed.

Section BinTone.
Local Open Scope R_scope.

Lemma cos_sum_any n p :
(0 < n)%nat ->
Np.rsum (fun j => cos (INR j * step_angle n p)) n
= if (p mod n =? 0)%nat then INR n else 0.
Proof.
intros Hn. destruct (Nat.eqb_spec (p mod n) 0) as [E|NE].
- apply Nat.Div0.div_exact in E. rewrite E, Nat.mul_comm.
  apply cos_sum_whole. exact Hn.
- apply cos_sum_zero; assumption.
Qed.

Lemma step_angle_plus n k m j :
(0 < n)%nat ->
INR j * step_angle n k + INR j * step_angle n m = INR j * step_angle n (k + m).
Proof.
intros Hn. unfold step_angle. rewrite plus_INR. field.
apply not_0_INR. lia.
Qed.

Lemma step_angle_minus n k m j :
(0 < n)%nat -> (m <= k)%nat ->
INR j * step_angle n k - INR j * step_angle n m = INR j * step_angle n (k - m).
Proof.
intros Hn Hm. unfold step_angle. rewrite minus_INR by exact Hm. field.
apply not_0_INR. lia.
Qed.

Lemma tone_against_cos n k m :
(0 < n)%nat ->
Np.rsum (fun j => sin (INR j * step_angle n k) * cos (INR j * step_angle n m)) n
= 0.
Proof.
intros Hn.
destruct (Nat.leb_spec m k) as [L|L].
- rewrite (rsum_ext _ (fun j => / 2 * sin (INR j * step_angle n (k + m))
                                + / 2 * sin (INR j * step_angle n (k - m)))).
  + rewrite rsum_plus, !rsum_scal, !sin_sum_any by exact Hn. ring.
  + intros j _. rewrite <- step_angle_plus, <- step_angle_minus by assumption.
    rewrite sin_plus, sin_minus. field.
- rewrite (rsum_ext _ (fun j => / 2 * sin (INR j * step_angle n (k + m))
                                + - / 2 * sin (INR j * step_angle n (m - k)))).
  + rewrite rsum_plus, !rsum_scal, !sin_sum_any by exact Hn. ring.
  + intros j _. rewrite <- step_angle_plus by assumption.
    rewrite <- (@step_angle_minus n m k j) by (try assumption; lia).
    rewrite sin_plus, sin_minus. field.
Qed.

Lemma tone_against_sin n k m :
(0 < n)%nat ->
Np.rsum (fun j => sin (INR j * step_angle n k) * sin (INR j * step_angle n m)) n
= / 2 * (if (bin_gap k m mod n =? 0)%nat then INR n else 0)
  - / 2 * (if ((k + m) mod n =? 0)%nat then INR n else 0).
Proof.
intros Hn. unfold bin_gap.
destruct (Nat.leb_spec m k) as [L|L].
- rewrite (rsum_ext _ (fun j => / 2 * cos (INR j * step_angle n (k - m))
                                + - / 2 * cos (INR j * step_angle n (k + m)))).
  + rewrite rsum_plus, !rsum_scal, !cos_sum_any by exact Hn. ring.
  + intros j _. rewrite <- step_angle_plus, <- step_angle_minus by assumption.
    rewrite cos_plus, cos_minus. field.
- rewrite (rsum_ext _ (fun j => / 2 * cos (INR j * step_angle n (m - k))
                                + - / 2 * cos (INR j * step_angle n (k + m)))).
  + rewrite rsum_plus, !rsum_scal, !cos_sum_any by exact Hn. ring.
  + intros j _. rewrite <- step_angle_plus by assumption.
    rewrite <- (@step_angle_minus n m k j) by (try assumption; lia).
    rewrite cos_plus, cos_minus. field.
Qed.

End BinTone.

(** ** The bin [np.argmax] picks *)

Lemma argmax_from_stay a : forall i best m,
  (forall j, j < length a -> (nth j a 0 <= m)%R) ->
  Np.argmax_from a i best m = best.
Proof.
  induction a as [|x a IH]; intros i best m H; cbn [Np.argmax_from]; [reflexivity|].
  destruct (Rlt_dec m x) as [L|_].
  - specialize (H 0 ltac:(simpl; lia)). simpl in H. lra.
  - apply IH. intros j Hj. apply (H (S j)). simpl. lia.
Qed.

Lemma argmax_from_first a : forall i best m k top,
  k < length a ->
  nth k a 0%R = top ->
  (forall j, j < k -> (nth j a 0 < top)%R) ->
  (forall j, j < length a -> (nth j a 0 <= top)%R) ->
  (m < top)%R ->
  Np.argmax_from a i best m = i + k.
Proof.
  induction a as [|x a IH]; intros i best m k top Hk Ht Hlt Hle Hm;
    [simpl in Hk; lia|].
  cbn [Np.argmax_from]. destruct k as [|k].
  - simpl in Ht. subst x. destruct (Rlt_dec m top) as [_|N]; [|contradiction].
    rewrite argmax_from_stay; [lia|].
    intros j Hj. apply (Hle (S j)). simpl. lia.
  - assert (X : (x < top)%R) by (apply (Hlt 0); lia).
    assert (Hk' : k < length a) by (simpl in Hk; lia).
    assert (Hlt' : forall j, j < k -> (nth j a 0 < top)%R)
      by (intros j Hj; apply (Hlt (S j)); lia).
    assert (Hle' : forall j, j < length a -> (nth j a 0 <= top)%R)
      by (intros j Hj; apply (Hle (S j)); simpl; lia).
    destruct (Rlt_dec m x) as [_|_].
    + rewrite (IH (S i) i x k top Hk' Ht Hlt' Hle' X). lia.
    + rewrite (IH (S i) best m k top Hk' Ht Hlt' Hle' Hm). lia.
Qed.

Lemma peak_bin_first segment k top :
  k < length segment ->
  nth k (map Np.abs_c (Np.fft segment)) 0%R = top ->
  (forall j, j < k -> (nth j (map Np.abs_c (Np.fft segment)) 0 < top)%R) ->
  (forall j, j < length segment ->
             (nth j (map Np.abs_c (Np.fft segment)) 0 <= top)%R) ->
  peak_bin segment = k.
Proof.
  unfold peak_bin. intros Hk Ht Hlt Hle.
  assert (L : length (map Np.abs_c (Np.fft segment)) = length segment)
    by (rewrite length_map; apply fft_length).
  destruct (map Np.abs_c (Np.fft segment)) as [|x a]; [simpl in L; lia|].
  destruct k as [|k].
  - simpl in Ht. subst x. apply argmax_from_stay.
    intros j Hj. apply (Hle (S j)). simpl in L. lia.
  - change (S k) with (1 + k). apply (@argmax_from_first a 1 0 x k top).
    + simpl in L. lia.
    + exact Ht.
    + intros j Hj. apply (Hlt (S j)). lia.
    + intros j Hj. apply (Hle (S j)). simpl in L. lia.
    + apply (Hlt 0). lia.
Qed.

Lemma fftfreq_low n d k :
  2 * k < n -> nth k (Np.fftfreq n d) 0%R = (INR k * (1 / (INR n * d)))%R.
Proof.
  intros H. unfold Np.fftfreq. rewrite nth_map_seq by lia.
  destruct (Nat.ltb_spec k ((n - 1) / 2 + 1)) as [_|G]; [reflexivity|].
  exfalso.
  assert (k <= (n - 1) / 2) by (apply Nat.div_le_lower_bound; lia). lia.
Qed.

(** ** Runs of indices, and bits read back *)

Lemma firstn_seq_prefix n start count :
  n <= count -> firstn n (seq start count) = seq start n.
Proof.
  intros H. replace count with (n + (count - n)) by lia.
  rewrite seq_app, firstn_app, length_seq, Nat.sub_diag, firstn_0, app_nil_r.
  rewrite <- (length_seq n start) at 1. apply firstn_all.
Qed.

Lemma seq_from a n : seq a n = map (fun j => a + j) (seq 0 n).
Proof.
  induction n as [|n IH]; [reflexivity|].
  rewrite !seq_S, map_app, IH. reflexivity.
Qed.

Lemma map_nth_all {A} (l : list A) d :
  map (fun i => nth i l d) (seq 0 (length l)) = l.
Proof.
  induction l as [|x l IH]; [reflexivity|].
  cbn [length]. rewrite <- cons_seq, <- seq_shift. cbn [map nth].
  rewrite map_map. f_equal. exact IH.
Qed.

Lemma binary_to_text_inverts text st :
  Forall is_byte text -> binary_to_text (text_to_binary text) st = Ok (text, st).
Proof.
  intros Hb. rewrite binary_to_text_spec by apply text_to_binary_is_bit.
  f_equal. f_equal.
  pose proof (text_to_binary_length_bytes text) as [_ L]. specialize (L Hb).
  rewrite L, Nat.mul_comm, Nat.div_mul by discriminate.
  clear L. induction Hb as [|c text Hc Hb IH]; [reflexivity|].
  cbn [length]. rewrite <- cons_seq, <- seq_shift. cbn [map]. rewrite map_map.
  f_equal.
  - unfold chunk8. rewrite Nat.mul_0_r. cbn [skipn]. rewrite text_to_binary_cons.
    rewrite firstn_app, (format_08b_narrow Hc), Nat.sub_diag, firstn_0.
    rewrite app_nil_r, <- (format_08b_narrow Hc), firstn_all.
    apply bits_value_format_08b.
  - etransitivity; [|exact IH]. apply map_ext. intros i. f_equal.
    unfold chunk8. f_equal. rewrite text_to_binary_cons.
    replace (8 * S i) with (8 * i + length (format_08b c))
      by (rewrite (format_08b_narrow Hc); lia).
    rewrite <- skipn_skipn, skipn_app, skipn_all, Nat.sub_diag. reflexivity.
Qed.

(** ** The round trip *)

(** A window of one sample has a single bin, of frequency 0. *)
Lemma dominant_value_one_sample cfg x : dominant_value cfg [x] = 0%R.
Proof.
  unfold dominant_value, peak_bin, Np.fft, Np.fftfreq.
  cbn [length seq map Np.argmax_from nth Nat.ltb Nat.leb INR].
  rewrite Rmult_0_l. apply Rabs_R0.
Qed.

Lemma valid_one_sample_config : valid_config one_sample_config.
Proof.
  split.
  - unfold valid_parameters, one_sample_config; cbn. repeat split; try lra; try lia.
  - rewrite samples_per_bit_one_sample. lia.
Qed.

Lemma classify_one_sample_zero : classify one_sample_config 0 = "0"%char.
Proof.
  apply classify_zero. cbn [one_sample_config frequency_1 frequency_0].
  replace (0 - 3)%R with (Ropp 3) by ring. replace (0 - 1)%R with (Ropp 1) by ring.
  rewrite !Rabs_Ropp, !Rabs_pos_eq by lra. lra.
Qed.

Lemma decode_one_sample samples st :
  decode_audio_to_binary one_sample_config samples st
  = Ok (repeat "0"%char (length samples), st).
Proof.
  rewrite decode_audio_to_binary_valid by apply valid_one_sample_config.
  unfold window_length. rewrite samples_per_bit_one_sample.
  change (Z.to_nat 1) with 1. rewrite Nat.div_1_r. f_equal. f_equal.
  assert (G : forall i, i < length samples ->
                classify one_sample_config
                  (dominant_value one_sample_config
                     (segment_of one_sample_config samples i)) = "0"%char).
  { intros i Hi. unfold segment_of, window_length.
    rewrite samples_per_bit_one_sample. change (Z.to_nat 1) with 1.
    rewrite Nat.mul_1_r.
    destruct (skipn i samples) as [|x rest] eqn:E.
    - apply (f_equal (@length R)) in E. rewrite length_skipn in E. simpl in E. lia.
    - cbn [firstn]. rewrite dominant_value_one_sample.
      apply classify_one_sample_zero. }
  rewrite (map_ext_in _ (fun _ => "0"%char))
    by (intros i Hi; apply in_seq in Hi; apply G; lia).
  clear G. generalize 0. induction (length samples) as [|n IH]; intros a;
    [reflexivity|]. cbn [seq map repeat]. f_equal. apply IH.
Qed.

(** C1 as stated fails: [one_sample_config] is valid and noise-free and its
    tones are two bins apart, yet the byte 255 comes back as the byte 0. *)
Lemma round_trip_fails_one_sample :
  valid_config one_sample_config /\
  noise_free one_sample_config /\
  tones_separated one_sample_config /\
  Forall is_byte [255%N] /\
  round_trip one_sample_config [255%N] (Rng (fun _ => 0%R) 0)
  = Ok ([0%N], Rng (fun _ => 0%R) 8) /\
  [0%N] <> [255%N].
Proof.
  split; [apply valid_one_sample_config|].
  split; [reflexivity|].
  split.
  { unfold tones_separated. rewrite samples_per_bit_one_sample.
    cbn [one_sample_config sample_rate frequency_1 frequency_0].
    replace (3 - 1)%R with 2%R by ring. rewrite Rabs_pos_eq by lra. lra. }
  split; [repeat constructor|].
  split; [|discriminate].
  unfold round_trip, bind.
  rewrite generate_encoded_sound_valid by apply valid_one_sample_config.
  rewrite decode_one_sample, length_map, length_seq.
  unfold window_length. rewrite samples_per_bit_one_sample.
  reflexivity.
Qed.

(** * Further properties of the tools *)

(** ** BitCodec *)

(** X1: reading back the bits of a text of byte-sized code points gives the
    text: [binary_to_text(text_to_binary(text)) == text], without an error. *)
Theorem bit_codec_round_trip (text : list N) (st : rng_state) :
  Forall is_byte text ->
  binary_to_text (text_to_binary text) st = Ok (text, st).
Proof. apply binary_to_text_inverts. Qed.

Lemma bit_codec_round_trip_witness :
  Forall is_byte [76; 117; 0; 255]%N /\
  binary_to_text (text_to_binary [76; 117; 0; 255]%N) (Rng (fun _ => 0%R) 0)
  = Ok ([76; 117; 0; 255]%N, Rng (fun _ => 0%R) 0).
Proof.
  assert (H : Forall is_byte [76; 117; 0; 255]%N) by (repeat constructor).
  split; [exact H|]. exact (bit_codec_round_trip (Rng (fun _ => 0%R) 0) H).
Defined.

(** X2: on texts of byte-sized code points [text_to_binary] is injective;
    on arbitrary texts it is not: the one character 65536 and the two
    characters 256, 0 are written as the same 17 bits. *)
Theorem text_to_binary_ambiguity :
  (forall t1 t2, Forall is_byte t1 -> Forall is_byte t2 ->
                 text_to_binary t1 = text_to_binary t2 -> t1 = t2) /\
  (exists t1 t2, t1 <> t2 /\ text_to_binary t1 = text_to_binary t2).
Proof.
  split.
  - intros t1 t2 H1 H2 E.
    pose proof (binary_to_text_inverts (Rng (fun _ => 0%R) 0) H1) as R1.
    pose proof (binary_to_text_inverts (Rng (fun _ => 0%R) 0) H2) as R2.
    rewrite E in R1. congruence.
  - exists [65536%N], [256%N; 0%N]. split; [discriminate | reflexivity].
Qed.

Lemma chunk8_app_left (b1 b2 : list ascii) i :
  8 * i + 8 <= length b1 -> chunk8 (b1 ++ b2) i = chunk8 b1 i.
Proof.
  intros H. unfold chunk8. rewrite skipn_app, firstn_app, length_skipn.
  replace (8 - (length b1 - 8 * i)) with 0 by lia.
  rewrite firstn_0. apply app_nil_r.
Qed.

Lemma chunk8_app_right (b1 b2 : list ascii) q j :
  length b1 = 8 * q -> chunk8 (b1 ++ b2) (q + j) = chunk8 b2 j.
Proof.
  intros H. unfold chunk8. rewrite skipn_app, skipn_all2 by lia.
  cbn [app]. f_equal. f_equal. lia.
Qed.

(** X3: [binary_to_text] reads a concatenation piecewise when the first bit
    string is made of whole bytes: the result is the text of the first
    followed by the text of the second, and every code point it returns is
    below 256. *)
Theorem binary_to_text_app (b1 b2 : list ascii) (st : rng_state) :
  Forall is_bit b1 -> Forall is_bit b2 -> length b1 mod 8 = 0 ->
  exists t1 t2,
    binary_to_text b1 st = Ok (t1, st) /\
    binary_to_text b2 st = Ok (t2, st) /\
    binary_to_text (b1 ++ b2) st = Ok (t1 ++ t2, st) /\
    Forall is_byte (t1 ++ t2).
Proof.
  intros H1 H2 Hm.
  assert (H12 : Forall is_bit (b1 ++ b2)) by (apply Forall_app; split; assumption).
  pose proof (Nat.div_mod_eq (length b1) 8) as D. rewrite Hm, Nat.add_0_r in D.
  set (q := length b1 / 8) in *.
  exists (map (fun i => bits_value (chunk8 b1 i)) (seq 0 q)).
  exists (map (fun i => bits_value (chunk8 b2 i)) (seq 0 (length b2 / 8))).
  assert (E : binary_to_text (b1 ++ b2) st
              = Ok (map (fun i => bits_value (chunk8 b1 i)) (seq 0 q)
                    ++ map (fun i => bits_value (chunk8 b2 i))
                           (seq 0 (length b2 / 8)), st)).
  { rewrite binary_to_text_spec by exact H12. f_equal. f_equal.
    rewrite length_app.
    replace ((length b1 + length b2) / 8) with (q + length b2 / 8)
      by (rewrite D, Nat.mul_comm, Nat.div_add_l by lia; reflexivity).
    rewrite seq_app, map_app. f_equal.
    - apply map_ext_in. intros i Hi. apply in_seq in Hi.
      rewrite chunk8_app_left by lia. reflexivity.
    - cbn [Nat.add]. rewrite (seq_from q), map_map.
      apply map_ext. intros j. rewrite (@chunk8_app_right b1 b2 q j D). reflexivity. }
  split; [apply binary_to_text_spec; exact H1|].
  split; [apply binary_to_text_spec; exact H2|].
  split; [exact E|].
  eapply binary_to_text_bytes; [exact H12 | exact E].
Qed.

Lemma binary_to_text_app_witness :
  Forall is_bit (str "01000001") /\ Forall is_bit (str "0100001011") /\
  length (str "01000001") mod 8 = 0 /\
  binary_to_text (str "01000001" ++ str "0100001011") (Rng (fun _ => 0%R) 0)
  = Ok ([65; 66]%N, Rng (fun _ => 0%R) 0).
Proof.
  assert (H1 : Forall is_bit (str "01000001"))
    by (repeat constructor; (left; reflexivity) || (right; reflexivity)).
  assert (H2 : Forall is_bit (str "0100001011"))
    by (repeat constructor; (left; reflexivity) || (right; reflexivity)).
  split; [exact H1|]. split; [exact H2|]. split; [reflexivity|].
  destruct (binary_to_text_app (Rng (fun _ => 0%R) 0) H1 H2 eq_refl)
    as (t1 & t2 & E1 & E2 & E & _).
  rewrite E. f_equal. f_equal.
  rewrite binary_to_text_spec in E1 by exact H1.
  rewrite binary_to_text_spec in E2 by exact H2.
  injection E1 as T1. injection E2 as T2.
  rewrite <- T1, <- T2. reflexivity.
Defined.

(** ** The modulator *)

Lemma for_each_map {A B T} (f : A -> B) (xs : list A) (s : T) body st :
  for_each (map f xs) s body st = for_each xs s (fun x => body (f x)) st.
Proof.
  revert s st. induction xs as [|x xs IH]; intros s st; [reflexivity|].
  cbn [map for_each]. unfold bind. destruct (body (f x) s st) as [[s' st']|e];
    [apply IH | reflexivity].
Qed.

Lemma for_each_ext {A T} (xs : list A) (s : T) body body' st :
  (forall x s st, body x s st = body' x s st) ->
  for_each xs s body st = for_each xs s body' st.
Proof.
  intros H. revert s st. induction xs as [|x xs IH]; intros s st; [reflexivity|].
  cbn [for_each]. unfold bind. rewrite H.
  destruct (body' x s st) as [[s' st']|e]; [apply IH | reflexivity].
Qed.

Lemma write_bit_normalize cfg bit s st :
  write_bit cfg (normalize_bit bit) s st = write_bit cfg bit s st.
Proof.
  unfold write_bit, normalize_bit. destruct s as [samples current_sample].
  destruct (Ascii.eqb bit "1"); reflexivity.
Qed.

(** X4: the modulator only asks whether a character is '1': every other
    character, a bit or not, is modulated as '0', for every configuration
    and with the same outcome, error or not. *)
Theorem generate_encoded_sound_reads_ones
  (cfg : ModulationConfig) (binary : list ascii) (st : rng_state) :
  generate_encoded_sound cfg (map normalize_bit binary) st
  = generate_encoded_sound cfg binary st.
Proof.
  unfold generate_encoded_sound, bind, len. rewrite length_map.
  destruct (lift (Np.zeros (Z.of_nat (length binary) * samples_per_bit cfg)) st)
    as [[samples st']|e]; [|reflexivity].
  rewrite for_each_map.
  rewrite (for_each_ext binary (samples, 0)
             (fun x => write_bit cfg (normalize_bit x)) (write_bit cfg))
    by (intros; apply write_bit_normalize).
  reflexivity.
Qed.

Lemma noise_at_bounds cfg st n :
  (fst (noise_range cfg) <= snd (noise_range cfg))%R ->
  (0 <= stream st (drawn st + n) < 1)%R ->
  (fst (noise_range cfg) <= noise_at cfg st n <= snd (noise_range cfg))%R.
Proof. intros H Hs. unfold noise_at. split; nra. Qed.

Lemma valid_tools_config : valid_config tools_config.
Proof.
  split.
  - unfold valid_parameters, tools_config; cbn. repeat split; try lra; try lia.
  - rewrite samples_per_bit_tools. lia.
Qed.

Lemma wave_app_left cfg b1 b2 st n :
  n < length b1 * window_length cfg ->
  wave cfg (b1 ++ b2) st n = wave cfg b1 st n.
Proof.
  intros H. unfold wave. fold (window_length cfg). f_equal. f_equal.
  apply app_nth1.
  destruct (Nat.eq_dec (window_length cfg) 0) as [Z0|NZ]; [rewrite Z0 in H; lia|].
  apply Nat.Div0.div_lt_upper_bound. lia.
Qed.

(** X6: the sound of a bit string is the beginning of the sound of any
    longer bit string that starts with it, when both are generated from the
    same generator state: later bits do not change earlier samples. *)
Theorem generate_encoded_sound_prefix
  (cfg : ModulationConfig) (b1 b2 : list ascii) (st : rng_state) :
  valid_config cfg ->
  exists s1 st1 s12 st12,
    generate_encoded_sound cfg b1 st = Ok (s1, st1) /\
    generate_encoded_sound cfg (b1 ++ b2) st = Ok (s12, st12) /\
    firstn (length s1) s12 = s1.
Proof.
  intros V. do 4 eexists.
  split; [apply generate_encoded_sound_valid; exact V|].
  split; [apply generate_encoded_sound_valid; exact V|].
  rewrite length_map, length_seq, firstn_map, length_app.
  rewrite firstn_seq_prefix by lia.
  apply map_ext_in. intros n Hn. apply in_seq in Hn.
  apply wave_app_left. lia.
Qed.

Lemma generate_encoded_sound_prefix_witness :
  valid_config tools_config /\
  exists s1 st1 s12 st12,
    generate_encoded_sound tools_config (str "1") (Rng (fun _ => 0%R) 0)
    = Ok (s1, st1) /\
    generate_encoded_sound tools_config (str "10") (Rng (fun _ => 0%R) 0)
    = Ok (s12, st12) /\
    length s1 = 441 /\ firstn 441 s12 = s1.
Proof.
  split; [exact valid_tools_config|].
  destruct (@generate_encoded_sound_prefix tools_config (str "1") (str "0")
              (Rng (fun _ => 0%R) 0) valid_tools_config)
    as (s1 & st1 & s12 & st12 & E1 & E12 & P).
  exists s1, st1, s12, st12. split; [exact E1|]. split; [exact E12|].
  assert (L : length s1 = 441).
  { rewrite generate_encoded_sound_valid in E1 by exact valid_tools_config.
    assert (E : s1 = map (wave tools_config (str "1") (Rng (fun _ => 0%R) 0))
                         (seq 0 (length (str "1") * window_length tools_config)))
      by congruence.
    rewrite E, length_map, length_seq. unfold window_length.
    rewrite samples_per_bit_tools. reflexivity. }
  split; [exact L|]. rewrite <- L. exact P.
Defined.

(** ** The demodulator *)

Lemma segment_of_app_left cfg (a b : list R) i :
  (i + 1) * window_length cfg <= length a ->
  segment_of cfg (a ++ b) i = segment_of cfg a i.
Proof.
  intros H. unfold segment_of. rewrite skipn_app, firstn_app, length_skipn.
  replace (window_length cfg - (length a - i * window_length cfg)) with 0 by lia.
  rewrite firstn_0. apply app_nil_r.
Qed.

Lemma segment_of_app_right cfg (a b : list R) q j :
  length a = q * window_length cfg ->
  segment_of cfg (a ++ b) (q + j) = segment_of cfg b j.
Proof.
  intros H. unfold segment_of. rewrite skipn_app, skipn_all2 by nia.
  cbn [app]. f_equal. f_equal. nia.
Qed.

(** X9: windows are decoded independently: when the first of two buffers
    is made of whole windows, decoding their concatenation gives the bits of
    the first followed by the bits of the second. *)
Theorem decode_audio_to_binary_app
  (cfg : ModulationConfig) (a b : list R) (st : rng_state) :
  valid_config cfg ->
  (len a mod samples_per_bit cfg = 0)%Z ->
  exists bits_a bits_b,
    decode_audio_to_binary cfg a st = Ok (bits_a, st) /\
    decode_audio_to_binary cfg b st = Ok (bits_b, st) /\
    decode_audio_to_binary cfg (a ++ b) st = Ok (bits_a ++ bits_b, st).
Proof.
  intros V Hm. pose proof (valid_config_window V) as W.
  assert (Hn : length a mod window_length cfg = 0).
  { unfold len in Hm. unfold window_length. apply Nat2Z.inj.
    rewrite Nat2Z.inj_mod, Z2Nat.id by lia. exact Hm. }
  assert (Wn : 1 <= window_length cfg) by (unfold window_length; lia).
  pose proof (Nat.div_mod_eq (length a) (window_length cfg)) as D.
  rewrite Hn, Nat.add_0_r in D. set (q := length a / window_length cfg) in *.
  do 2 eexists.
  split; [apply decode_audio_to_binary_valid; exact V|].
  split; [apply decode_audio_to_binary_valid; exact V|].
  rewrite decode_audio_to_binary_valid by exact V. f_equal. f_equal.
  rewrite length_app. fold q.
  replace ((length a + length b) / window_length cfg)
    with (q + length b / window_length cfg)
    by (rewrite D, Nat.mul_comm, Nat.div_add_l by lia; reflexivity).
  rewrite seq_app, map_app. f_equal.
  - apply map_ext_in. intros i Hi. apply in_seq in Hi.
    rewrite segment_of_app_left by nia. reflexivity.
  - cbn [Nat.add]. rewrite (seq_from q), map_map. apply map_ext. intros j.
    rewrite (@segment_of_app_right cfg a b q j) by lia. reflexivity.
Qed.

Lemma decode_audio_to_binary_app_witness :
  valid_config tie_config /\
  (len [1; -1]%R mod samples_per_bit tie_config = 0)%Z /\
  decode_audio_to_binary tie_config ([1; -1] ++ [1; -1; 5])%R
                         (Rng (fun _ => 0%R) 0)
  = Ok (["0"; "0"]%char, Rng (fun _ => 0%R) 0).
Proof.
  assert (M : (len [1; -1]%R mod samples_per_bit tie_config = 0)%Z)
    by (rewrite samples_per_bit_tie; reflexivity).
  split; [exact valid_tie_config|]. split; [exact M|].
  destruct (@decode_audio_to_binary_app tie_config [1; -1]%R [1; -1; 5]%R
              (Rng (fun _ => 0%R) 0) valid_tie_config M)
    as (ba & bb & Ea & Eb & E).
  rewrite E. f_equal. f_equal.
  rewrite decode_tie_window in Ea.
  assert (Hb : decode_audio_to_binary tie_config [1; -1; 5]%R (Rng (fun _ => 0%R) 0)
               = Ok (["0"%char], Rng (fun _ => 0%R) 0)).
  { rewrite decode_audio_to_binary_valid by apply valid_tie_config.
    unfold window_length, segment_of, window_length. rewrite samples_per_bit_tie.
    change (length [1; -1; 5]%R / Z.to_nat 2) with 1. cbn [seq map Nat.mul skipn].
    change (firstn (Z.to_nat 2) [1; -1; 5]%R) with [1; -1]%R.
    rewrite dominant_value_tie. f_equal. f_equal. f_equal.
    apply classify_zero. cbn [tie_config frequency_1 frequency_0].
    replace (2 - 3)%R with (Ropp 1) by ring. replace (2 - 1)%R with 1%R by ring.
    rewrite Rabs_Ropp. apply Rlt_irrefl. }
  rewrite Eb in Hb.
  assert (ba = ["0"%char]) as -> by congruence.
  assert (bb = ["0"%char]) as -> by congruence.
  reflexivity.
Defined.

Lemma nth_repeat_lt (c : R) n j : j < n -> nth j (repeat c n) 0%R = c.
Proof.
  revert j. induction n as [|n IH]; intros j H; [lia|].
  destruct j as [|j]; [reflexivity|]. cbn [repeat nth]. apply IH. lia.
Qed.

(** Bin [m] of the transform of a constant window. *)
Lemma constant_spectrum c n m :
  m < n ->
  nth m (map Np.abs_c (Np.fft (repeat c n))) 0%R
  = if m =? 0 then (Rabs c * INR n)%R else 0%R.
Proof.
  intros Hm. assert (Hn : 0 < n) by lia.
  assert (Hn' : INR n <> 0%R) by (apply not_0_INR; lia).
  rewrite (nth_map_in Np.abs_c _ 0%R (0%R, 0%R))
    by (rewrite fft_length, repeat_length; exact Hm).
  unfold Np.fft. rewrite repeat_length, nth_map_seq by exact Hm.
  rewrite (rsum_ext _ (fun j => c * cos (INR j * step_angle n m))%R).
  2:{ intros j Hj. rewrite nth_repeat_lt by exact Hj. f_equal. f_equal.
      unfold step_angle. field. exact Hn'. }
  rewrite (rsum_ext (fun j => nth j (repeat c n) 0 * sin (2 * PI * INR j * INR m / INR n))%R
                    (fun j => c * sin (INR j * step_angle n m))%R).
  2:{ intros j Hj. rewrite nth_repeat_lt by exact Hj. f_equal. f_equal.
      unfold step_angle. field. exact Hn'. }
  rewrite !rsum_scal, cos_sum_any, sin_sum_any by exact Hn.
  unfold Np.abs_c. cbn [fst snd].
  match goal with
  | |- sqrt (?re * ?re + ?im * ?im) = _ =>
      replace (re * re + im * im)%R with (Rsqr re) by (unfold Rsqr; ring)
  end.
  rewrite sqrt_Rsqr_abs, Rabs_mult.
  destruct (Nat.eqb_spec m 0) as [->|NZ].
  - rewrite Nat.Div0.mod_0_l. cbn [Nat.eqb].
    rewrite (Rabs_pos_eq (INR n)) by apply pos_INR. reflexivity.
  - rewrite Nat.mod_small by exact Hm.
    destruct (Nat.eqb_spec m 0) as [E|_]; [contradiction|].
    rewrite Rabs_R0. ring.
Qed.

Lemma peak_bin_constant c n : 0 < n -> peak_bin (repeat c n) = 0.
Proof.
  intros Hn.
  apply (@peak_bin_first (repeat c n) 0 (Rabs c * INR n)%R);
    rewrite ?repeat_length.
  - exact Hn.
  - rewrite constant_spectrum by exact Hn. reflexivity.
  - intros j Hj. lia.
  - intros j Hj. rewrite constant_spectrum by exact Hj.
    assert (0 <= Rabs c * INR n)%R
      by (apply Rmult_le_pos; [apply Rabs_pos | apply pos_INR]).
    destruct (j =? 0); lra.
Qed.

Lemma dominant_value_constant cfg c n :
  0 < n -> dominant_value cfg (repeat c n) = 0%R.
Proof.
  intros Hn. unfold dominant_value.
  rewrite peak_bin_constant, repeat_length, fftfreq_low by lia.
  cbn [INR]. rewrite Rmult_0_l. apply Rabs_R0.
Qed.

Lemma segment_of_constant cfg c count i :
  (i + 1) * window_length cfg <= count ->
  segment_of cfg (repeat c count) i = repeat c (window_length cfg).
Proof.
  intros H. unfold segment_of.
  replace count
    with (i * window_length cfg
          + (window_length cfg + (count - (i + 1) * window_length cfg))) by lia.
  rewrite !repeat_app, skipn_app, repeat_length, skipn_all2
    by (rewrite repeat_length; lia).
  rewrite Nat.sub_diag. cbn [app skipn].
  rewrite firstn_app, repeat_length, Nat.sub_diag, firstn_0, app_nil_r.
  rewrite <- (repeat_length c (window_length cfg)) at 1. apply firstn_all.
Qed.

Lemma map_constant {A B} (f : A -> B) (b : B) l :
  (forall x, In x l -> f x = b) -> map f l = repeat b (length l).
Proof.
  intros H. induction l as [|x l IH]; [reflexivity|].
  cbn [map length repeat]. rewrite H by (left; reflexivity).
  f_equal. apply IH. intros y Hy. apply H. right. exact Hy.
Qed.

(** X11: a buffer of equal samples, silence included, has its energy in bin
    0, so every window decodes to the same bit: '1' if [frequency_1] is the
    lower tone, '0' otherwise (as with the tools' parameters). *)
Theorem decode_audio_to_binary_constant
  (cfg : ModulationConfig) (c : R) (count : nat) (st : rng_state) :
  valid_config cfg ->
  exists bit,
    decode_audio_to_binary cfg (repeat c count) st
    = Ok (repeat bit (count / window_length cfg), st) /\
    (bit = "1"%char <-> (frequency_1 cfg < frequency_0 cfg)%R) /\
    (bit = "0"%char <-> (frequency_0 cfg <= frequency_1 cfg)%R).
Proof.
  intros V. exists (classify cfg 0).
  pose proof (valid_config_window V) as W.
  assert (Wn : 1 <= window_length cfg) by (unfold window_length; lia).
  split; [|split].
  - rewrite decode_audio_to_binary_valid by exact V. f_equal. f_equal.
    rewrite repeat_length.
    rewrite (@map_constant _ _ _ (classify cfg 0)), length_seq; [reflexivity|].
    intros i Hi. apply in_seq in Hi.
    pose proof (Nat.div_mod_eq count (window_length cfg)) as D.
    rewrite segment_of_constant by nia.
    rewrite dominant_value_constant by lia. reflexivity.
  - destruct V as [(_ & _ & P0 & P1 & _) _].
    rewrite classify_one. unfold Rminus. rewrite !Rplus_0_l, !Rabs_Ropp.
    rewrite !Rabs_pos_eq by lra. reflexivity.
  - destruct V as [(_ & _ & P0 & P1 & _) _].
    rewrite classify_zero. unfold Rminus. rewrite !Rplus_0_l, !Rabs_Ropp.
    rewrite !Rabs_pos_eq by lra. split; lra.
Qed.

Lemma decode_audio_to_binary_constant_witness :
  valid_config tools_config /\
  decode_audio_to_binary tools_config (repeat 0%R 882) (Rng (fun _ => 0%R) 0)
  = Ok (["0"; "0"]%char, Rng (fun _ => 0%R) 0).
Proof.
  split; [exact valid_tools_config|].
  destruct (@decode_audio_to_binary_constant tools_config 0%R 882
              (Rng (fun _ => 0%R) 0) valid_tools_config)
    as (bit & E & _ & Z).
  rewrite E. unfold window_length. rewrite samples_per_bit_tools.
  change (882 / Z.to_nat 441) with 2.
  assert (bit = "0"%char) as ->
    by (apply Z; cbn [tools_config frequency_0 frequency_1]; lra).
  reflexivity.
Defined.

(** ** The tuning-sound generator *)

Section TuningSound.

Variable tc : TuningConfig.
Variable st0 : rng_state.
Hypothesis valid : valid_tuning tc.

Lemma tuning_rate_nonzero : sample_rate (tuning_params tc) <> 0%Z.
Proof. destruct valid as (H & _). cbn [tuning_params sample_rate]. lia. Qed.

Lemma segment_samples_pos : (1 <= segment_samples tc)%Z.
Proof.
  destruct valid as (Hr & _ & Hs & _). unfold segment_samples.
  assert (P : (0 <= segment_duration tc * IZR (tuning_sample_rate tc))%R) by lra.
  pose proof (int_of_float_bounds P) as B.
  apply le_IZR.
  destruct (Z_le_gt_dec 1 (int_of_float
              (segment_duration tc * IZR (tuning_sample_rate tc)))) as [L|G];
    [apply IZR_le; exact L|].
  assert (L : (int_of_float (segment_duration tc * IZR (tuning_sample_rate tc)) + 1
               <= 1)%Z) by lia.
  apply IZR_le in L. rewrite plus_IZR in L. lra.
Qed.

Lemma total_samples_nonneg : (0 <= total_samples tc)%Z.
Proof.
  destruct valid as (Hr & Hd & _). unfold total_samples.
  apply IZR_lt in Hr.
  assert (P : (0 <= duration tc * IZR (tuning_sample_rate tc))%R)
    by (apply Rmult_le_pos; lra).
  pose proof (int_of_float_bounds P) as B. apply le_IZR.
  destruct (Z_le_gt_dec 0 (int_of_float (duration tc * IZR (tuning_sample_rate tc))))
    as [L|G]; [apply IZR_le; exact L|].
  assert (L : (int_of_float (duration tc * IZR (tuning_sample_rate tc)) + 1 <= 0)%Z)
    by lia.
  apply IZR_le in L. rewrite plus_IZR in L. lra.
Qed.

Lemma tuning_tone_wave k n :
  n / Z.to_nat (segment_samples tc) = k ->
  tone (tuning_params tc) (Rng (stream st0) (drawn st0 + k + 1))
       (segment_frequency tc st0 k) n
  = tuning_wave tc st0 n.
Proof.
  intros E. unfold tone, tuning_wave, noise_at. cbv zeta. rewrite E.
  cbn [tuning_params sample_rate amplitude noise_range stream drawn].
  rewrite <- INR_IZR_INZ. f_equal. f_equal. f_equal. f_equal. lia.
Qed.

Lemma write_segment_spec k count pre m :
  length pre = k * Z.to_nat (segment_samples tc) ->
  count <= Z.to_nat (segment_samples tc) ->
  count <= m ->
  write_segment tc (Z.of_nat count) (pre ++ repeat 0%R m, length pre)
    (Rng (stream st0)
         (drawn st0 + k * (Z.to_nat (segment_samples tc) + 1)))
  = Ok ((pre ++ map (tuning_wave tc st0) (seq (length pre) count)
             ++ repeat 0%R (m - count),
         length pre + count),
        Rng (stream st0)
            (drawn st0 + k * (Z.to_nat (segment_samples tc) + 1) + 1 + count)).
Proof.
  intros Hpre Hc Hm. pose proof segment_samples_pos as P.
  unfold write_segment, bind at 1, uniform, bind at 1, random, ret at 1.
  cbn [stream drawn].
  fold (segment_frequency tc st0 k).
  pose proof (@inner_loop (tuning_params tc)
                (Rng (stream st0) (drawn st0 + k + 1)) tuning_rate_nonzero
                (segment_frequency tc st0 k) (range (Z.of_nat count)) pre m) as L.
  unfold range in L. rewrite Nat2Z.id, length_seq in L. specialize (L Hm).
  cbn [stream drawn] in L.
  replace (drawn st0 + k + 1 + length pre)
    with (S (drawn st0 + k * (Z.to_nat (segment_samples tc) + 1))) in L by lia.
  unfold range. rewrite Nat2Z.id. rewrite L. f_equal. f_equal.
  - f_equal. f_equal. f_equal. apply map_ext_in. intros n Hn. apply in_seq in Hn.
    apply tuning_tone_wave. symmetry.
    apply (Nat.div_unique n _ k (n - length pre)); lia.
  - f_equal. lia.
Qed.

Lemma segments_loop m : forall k,
  k * Z.to_nat (segment_samples tc) <= m ->
  for_each (seq 0 k) (repeat 0%R m, 0)
           (fun _ s => write_segment tc (segment_samples tc) s) st0
  = Ok ((map (tuning_wave tc st0) (seq 0 (k * Z.to_nat (segment_samples tc)))
         ++ repeat 0%R (m - k * Z.to_nat (segment_samples tc)),
         k * Z.to_nat (segment_samples tc)),
        Rng (stream st0)
            (drawn st0 + k * (Z.to_nat (segment_samples tc) + 1))).
Proof.
  pose proof segment_samples_pos as P.
  induction k as [|k IH]; intros Hk.
  - cbn [seq for_each Nat.mul map app]. rewrite Nat.sub_0_r, Nat.add_0_r.
    destruct st0; reflexivity.
  - rewrite seq_S. cbn [Nat.add].
    erewrite for_each_snoc by (apply IH; lia).
    set (p := Z.to_nat (segment_samples tc)) in *.
    set (pre := map (tuning_wave tc st0) (seq 0 (k * p))).
    assert (Lp : length pre = k * p)
      by (unfold pre; rewrite length_map, length_seq; reflexivity).
    pose proof (@write_segment_spec k p pre (p + (m - S k * p)) Lp
                  ltac:(unfold p; lia) ltac:(lia)) as G.
    rewrite Lp in G. fold p in G.
    replace (Z.of_nat p) with (segment_samples tc) in G by (unfold p; lia).
    replace (m - k * p) with (p + (m - S k * p)) by lia.
    rewrite G. f_equal. f_equal.
    + f_equal; [|lia]. unfold pre.
      rewrite app_assoc, <- map_app, <- seq_app. f_equal; [|f_equal; lia].
      f_equal. f_equal. lia.
    + f_equal. lia.
Qed.

End TuningSound.

Lemma generate_tuning_sound_spec tc st :
  valid_tuning tc ->
  generate_tuning_sound tc st
  = Ok (map (tuning_wave tc st) (seq 0 (Z.to_nat (total_samples tc))),
        Rng (stream st)
            (drawn st + Z.to_nat (total_samples tc)
             + Z.to_nat (total_samples tc / segment_samples tc)
             + (if (0 <? total_samples tc mod segment_samples tc)%Z then 1 else 0))).
Proof.
  intros V. pose proof (segment_samples_pos V) as P.
  pose proof (total_samples_nonneg V) as T.
  set (p := Z.to_nat (segment_samples tc)).
  set (t := Z.to_nat (total_samples tc)).
  assert (Ep : segment_samples tc = Z.of_nat p) by (unfold p; lia).
  assert (Et : total_samples tc = Z.of_nat t) by (unfold t; lia).
  assert (Hp : 1 <= p) by (unfold p; lia).
  pose proof (Nat.div_mod_eq t p) as D.
  pose proof (Nat.mod_upper_bound t p ltac:(lia)) as U.
  assert (Eq : Z.to_nat (total_samples tc / segment_samples tc) = t / p)
    by (rewrite Ep, Et, <- Nat2Z.inj_div; apply Nat2Z.id).
  assert (Er : (total_samples tc mod segment_samples tc)%Z = Z.of_nat (t mod p))
    by (rewrite Ep, Et, <- Nat2Z.inj_mod; reflexivity).
  unfold generate_tuning_sound, bind at 1, lift at 1, floordiv.
  destruct (Z.eqb_spec (segment_samples tc) 0) as [E|_]; [lia|].
  unfold bind at 1, lift at 1, py_mod.
  destruct (Z.eqb_spec (segment_samples tc) 0) as [E|_]; [lia|].
  unfold bind at 1, lift at 1, Np.zeros.
  destruct (Z.ltb_spec (total_samples tc) 0) as [E|_]; [lia|].
  fold t. unfold range. rewrite Eq, Er.
  unfold bind at 1.
  rewrite (@segments_loop tc st V t (t / p)) by (fold p; nia).
  fold p.
  destruct (Z.ltb_spec 0 (Z.of_nat (t mod p))) as [R|R].
  - unfold bind at 1.
    set (pre := map (tuning_wave tc st) (seq 0 (t / p * p))).
    assert (Lp : length pre = t / p * p)
      by (unfold pre; rewrite length_map, length_seq; reflexivity).
    pose proof (@write_segment_spec tc st V (t / p) (t mod p) pre (t - t / p * p)
                  Lp ltac:(fold p; lia) ltac:(lia)) as G.
    rewrite Lp in G. fold p in G. rewrite G. unfold ret. cbn [fst].
    f_equal. f_equal.
    + replace (t - t / p * p - t mod p) with 0 by lia. cbn [repeat].
      rewrite app_nil_r. unfold pre. rewrite <- map_app, <- seq_app.
      f_equal. f_equal. lia.
    + f_equal. lia.
  - unfold bind at 1, ret. cbn [fst]. f_equal. f_equal.
    + replace (t - t / p * p) with 0 by lia. cbn [repeat].
      rewrite app_nil_r. f_equal. f_equal. lia.
    + f_equal. lia.
Qed.

(** X13: under valid parameters [generate_tuning_sound] does not raise and
    fills a buffer of exactly [total_samples] samples: the whole segments
    and the remaining samples add up to the buffer, so no store is out of
    range.  It draws once per sample, once per whole segment and once more
    when samples remain. *)
Theorem generate_tuning_sound_length (tc : TuningConfig) (st : rng_state) :
  valid_tuning tc ->
  exists samples st',
    generate_tuning_sound tc st = Ok (samples, st') /\
    len samples = total_samples tc /\
    Z.of_nat (drawn st')
    = (Z.of_nat (drawn st) + total_samples tc
       + total_samples tc / segment_samples tc
       + (if 0 <? total_samples tc mod segment_samples tc then 1 else 0))%Z.
Proof.
  intros V. pose proof (segment_samples_pos V) as P.
  pose proof (total_samples_nonneg V) as T.
  do 2 eexists. split; [apply generate_tuning_sound_spec; exact V|].
  split.
  - unfold len. rewrite length_map, length_seq. lia.
  - cbn [drawn].
    assert (0 <= total_samples tc / segment_samples tc)%Z
      by (apply Z.div_pos; lia).
    destruct (0 <? total_samples tc mod segment_samples tc)%Z; lia.
Qed.

Lemma valid_tuning_config : valid_tuning tuning_config.
Proof.
  unfold valid_tuning, tuning_config; cbn. repeat split; try lra; try lia.
Qed.

Lemma total_samples_tuning : total_samples tuning_config = 11025%Z.
Proof.
  unfold total_samples, tuning_config; cbn [duration tuning_sample_rate].
  apply int_of_float_unique; lra.
Qed.

Lemma segment_samples_tuning : segment_samples tuning_config = 264%Z.
Proof.
  unfold segment_samples, tuning_config; cbn [segment_duration tuning_sample_rate].
  apply int_of_float_unique; lra.
Qed.

Lemma generate_tuning_sound_length_witness :
  valid_tuning tuning_config /\
  exists samples st',
    generate_tuning_sound tuning_config (Rng (fun _ => 0%R) 0) = Ok (samples, st') /\
    len samples = 11025%Z /\
    Z.of_nat (drawn st') = 11067%Z.
Proof.
  split; [exact valid_tuning_config|].
  destruct (@generate_tuning_sound_length tuning_config (Rng (fun _ => 0%R) 0)
              valid_tuning_config)
    as (samples & st' & E & L & D).
  exists samples, st'. split; [exact E|].
  rewrite total_samples_tuning in L, D. rewrite segment_samples_tuning in D.
  split; [exact L|]. rewrite D. reflexivity.
Defined.

(** ** Decoding in the presence of noise *)

Lemma argmax_from_greatest a : forall i best m,
  exists v,
    ((Np.argmax_from a i best m = best /\ v = m) \/
     (exists j, j < length a /\ Np.argmax_from a i best m = i + j /\
                v = nth j a 0%R)) /\
    (m <= v)%R /\
    (forall j, j < length a -> (nth j a 0 <= v)%R).
Proof.
  induction a as [|x a IH]; intros i best m.
  - exists m. split; [left; split; reflexivity|]. split; [lra|].
    intros j Hj. simpl in Hj. lia.
  - cbn [Np.argmax_from]. destruct (Rlt_dec m x) as [L|L].
    + destruct (IH (S i) i x) as (v & Hv & Hm & Hall). exists v.
      split; [right|split].
      * destruct Hv as [[E Ev]|(j & Hj & E & Ev)].
        -- exists 0. cbn [length nth]. rewrite E, Ev. split; [lia|]. split; [lia|reflexivity].
        -- exists (S j). cbn [length nth]. rewrite E, Ev. split; [lia|]. split; [lia|reflexivity].
      * lra.
      * intros [|j] Hj; cbn [nth]; [lra|]. apply Hall. simpl in Hj. lia.
    + destruct (IH (S i) best m) as (v & Hv & Hm & Hall). exists v.
      split; [|split].
      * destruct Hv as [[E Ev]|(j & Hj & E & Ev)].
        -- left. split; assumption.
        -- right. exists (S j). cbn [length nth]. rewrite E, Ev.
           split; [lia|]. split; [lia|reflexivity].
      * exact Hm.
      * intros [|j] Hj; cbn [nth]; [lra|]. apply Hall. simpl in Hj. lia.
Qed.

Lemma peak_of_bound l : l <> [] -> peak_of l < length l.
Proof.
  destruct l as [|x a]; [congruence|]. intros _. unfold peak_of.
  pose proof (argmax_from_bound a (i := 1) (best := 0) x ltac:(lia)) as B.
  simpl. lia.
Qed.

Lemma peak_of_greatest l :
  forall j, j < length l -> (nth j l 0 <= nth (peak_of l) l 0)%R.
Proof.
  destruct l as [|x a]; [intros j Hj; simpl in Hj; lia|]. unfold peak_of.
  destruct (argmax_from_greatest a 1 0 x) as (v & Hv & Hm & Hall).
  assert (E : nth (Np.argmax_from a 1 0 x) (x :: a) 0%R = v).
  { destruct Hv as [[E Ev]|(j & Hj & E & Ev)]; rewrite E; cbn [nth Nat.add];
      congruence. }
  rewrite E. intros [|j] Hj; cbn [nth]; [exact Hm|].
  apply Hall. simpl in Hj. lia.
Qed.

Lemma argmax_peak_of l : l <> [] -> Np.argmax l = Ok (peak_of l).
Proof. destruct l; [congruence | reflexivity]. Qed.

Lemma rsum_abs_le f b n :
  (forall j, j < n -> (Rabs (f j) <= b)%R) ->
  (Rabs (Np.rsum f n) <= INR n * b)%R.
Proof.
  induction n as [|n IH]; intros H.
  - simpl. rewrite Rabs_R0. lra.
  - cbn [Np.rsum]. rewrite S_INR.
    eapply Rle_trans; [apply Rabs_triang|].
    specialize (IH ltac:(intros j Hj; apply H; lia)).
    specialize (H n ltac:(lia)). lra.
Qed.

Lemma fftfreq_high n d k :
  0 < k -> 2 * k < n ->
  nth (n - k) (Np.fftfreq n d) 0%R = (- INR k * (1 / (INR n * d)))%R.
Proof.
  intros Hk H. unfold Np.fftfreq. rewrite nth_map_seq by lia.
  pose proof (Nat.div_mod_eq (n - 1) 2) as D.
  pose proof (Nat.mod_upper_bound (n - 1) 2 ltac:(lia)) as U.
  destruct (Nat.ltb_spec (n - k) ((n - 1) / 2 + 1)) as [L|_]; [lia|].
  rewrite minus_INR by lia. f_equal. ring.
Qed.

Lemma tone_against_sin_cases n k m :
  0 < k -> 2 * k < n -> m < n ->
  Np.rsum (fun j => sin (INR j * step_angle n k) * sin (INR j * step_angle n m))%R n
  = if m =? k then (INR n / 2)%R
    else if m =? n - k then (- (INR n / 2))%R else 0%R.
Proof.
  intros Hk Hn Hm. rewrite tone_against_sin by lia.
  assert (G : bin_gap k m mod n = 0 <-> m = k).
  { unfold bin_gap. destruct (Nat.leb_spec m k) as [L|L]; split; intros E;
      try (rewrite Nat.mod_small in E by lia; lia).
    - subst m. rewrite Nat.sub_diag. apply Nat.Div0.mod_0_l.
    - lia. }
  assert (P : (k + m) mod n = 0 <-> m = n - k).
  { split; intros E.
    - destruct (Nat.lt_ge_cases (k + m) n) as [L|L].
      + rewrite Nat.mod_small in E by lia. lia.
      + replace (k + m) with ((k + m - n) + 1 * n) in E by lia.
        rewrite Nat.Div0.mod_add, Nat.mod_small in E by lia. lia.
    - subst m. replace (k + (n - k)) with n by lia. apply Nat.Div0.mod_same. }
  destruct (Nat.eqb_spec m k) as [E1|E1].
  - apply G in E1 as G1. rewrite G1. cbn [Nat.eqb].
    destruct (Nat.eqb_spec ((k + m) mod n) 0) as [E3|_]; [apply P in E3; lia|].
    field.
  - destruct (Nat.eqb_spec (bin_gap k m mod n) 0) as [E3|_]; [apply G in E3; lia|].
    destruct (Nat.eqb_spec m (n - k)) as [E2|E2].
    + apply P in E2 as P2. rewrite P2. cbn [Nat.eqb]. field.
    + destruct (Nat.eqb_spec ((k + m) mod n) 0) as [E4|_]; [apply P in E4; lia|].
      field.
Qed.

Lemma Rabs_le_bounds x b : (Rabs x <= b)%R -> (- b <= x <= b)%R.
Proof. unfold Rabs. destruct (Rcase_abs x); intros H; lra. Qed.

Section NoisyTone.
Local Open Scope R_scope.

Variables (a eps : R) (n k : nat) (e : nat -> R).
Hypothesis amplitude_pos : 0 < a.
Hypothesis bin_pos : (0 < k)%nat.
Hypothesis below_nyquist : (2 * k < n)%nat.
Hypothesis eps_nonneg : 0 <= eps.
Hypothesis disturbance_small : forall j, (j < n)%nat -> Rabs (e j) <= eps.
Hypothesis eps_fifth : 5 * eps <= a.

Lemma noisy_bin_tone_length : length (noisy_bin_tone a n k e) = n.
Proof. unfold noisy_bin_tone. rewrite length_map, length_seq. reflexivity. Qed.

Lemma noisy_bin_tone_nth j :
  (j < n)%nat ->
  nth j (noisy_bin_tone a n k e) 0 = a * sin (INR j * step_angle n k) + e j.
Proof.
  intros H. unfold noisy_bin_tone.
  exact (@nth_map_seq R (fun j => a * sin (INR j * step_angle n k) + e j) n j 0 H).
Qed.

Lemma noisy_spectrum m :
  (m < n)%nat ->
  nth m (map Np.abs_c (Np.fft (noisy_bin_tone a n k e))) 0
  = sqrt (Rsqr (Np.rsum (fun j => e j * cos (INR j * step_angle n m)) n)
          + Rsqr (a * (if (m =? k)%nat then INR n / 2
                       else if (m =? n - k)%nat then - (INR n / 2) else 0)
                  + Np.rsum (fun j => e j * sin (INR j * step_angle n m)) n)).
Proof.
  intros Hm. assert (Hn0 : (0 < n)%nat) by lia.
  assert (Hn' : INR n <> 0) by (apply not_0_INR; lia).
  rewrite (nth_map_in Np.abs_c _ 0 (0, 0))
    by (rewrite fft_length, noisy_bin_tone_length; exact Hm).
  unfold Np.fft. rewrite noisy_bin_tone_length, nth_map_seq by exact Hm.
  rewrite (rsum_ext _ (fun j => a * (sin (INR j * step_angle n k)
                                     * cos (INR j * step_angle n m))
                                + e j * cos (INR j * step_angle n m))).
  2:{ intros j Hj. rewrite noisy_bin_tone_nth by exact Hj.
      replace (2 * PI * INR j * INR m / INR n) with (INR j * step_angle n m)
        by (unfold step_angle; field; exact Hn').
      ring. }
  rewrite (rsum_ext (fun j => nth j (noisy_bin_tone a n k e) 0
                              * sin (2 * PI * INR j * INR m / INR n))
                    (fun j => a * (sin (INR j * step_angle n k)
                                   * sin (INR j * step_angle n m))
                              + e j * sin (INR j * step_angle n m))).
  2:{ intros j Hj. rewrite noisy_bin_tone_nth by exact Hj.
      replace (2 * PI * INR j * INR m / INR n) with (INR j * step_angle n m)
        by (unfold step_angle; field; exact Hn').
      ring. }
  rewrite !rsum_plus, !rsum_scal, tone_against_cos by exact Hn0.
  rewrite tone_against_sin_cases by assumption.
  unfold Np.abs_c. cbn [fst snd]. f_equal. unfold Rsqr. ring.
Qed.

Lemma disturbance_cos_bound m :
  Rabs (Np.rsum (fun j => e j * cos (INR j * step_angle n m)) n) <= INR n * eps.
Proof.
  apply rsum_abs_le. intros j Hj. rewrite Rabs_mult.
  pose proof (COS_bound (INR j * step_angle n m)) as B.
  assert (Rabs (cos (INR j * step_angle n m)) <= 1) by (apply Rabs_le; lra).
  pose proof (disturbance_small Hj). pose proof (Rabs_pos (e j)).
  pose proof (Rabs_pos (cos (INR j * step_angle n m))). nra.
Qed.

Lemma disturbance_sin_bound m :
  Rabs (Np.rsum (fun j => e j * sin (INR j * step_angle n m)) n) <= INR n * eps.
Proof.
  apply rsum_abs_le. intros j Hj. rewrite Rabs_mult.
  pose proof (SIN_bound (INR j * step_angle n m)) as B.
  assert (Rabs (sin (INR j * step_angle n m)) <= 1) by (apply Rabs_le; lra).
  pose proof (disturbance_small Hj). pose proof (Rabs_pos (e j)).
  pose proof (Rabs_pos (sin (INR j * step_angle n m))). nra.
Qed.

(** The level that separates the bin of the tone from the other bins. *)
Lemma noisy_peak_level :
  INR n * (a / 2 - eps)
  <= nth k (map Np.abs_c (Np.fft (noisy_bin_tone a n k e))) 0.
Proof.
  rewrite noisy_spectrum by lia. rewrite Nat.eqb_refl.
  set (c := Np.rsum (fun j => e j * cos (INR j * step_angle n k)) n).
  set (s := Np.rsum (fun j => e j * sin (INR j * step_angle n k)) n).
  pose proof (disturbance_sin_bound k) as B. fold s in B.
  apply Rabs_le_bounds in B.
  assert (Hn : 0 < INR n) by (apply lt_0_INR; lia).
  assert (Hlev : 0 <= INR n * (a / 2 - eps)) by (apply Rmult_le_pos; lra).
  rewrite <- (sqrt_Rsqr (INR n * (a / 2 - eps))) by exact Hlev.
  apply sqrt_le_1_alt.
  apply Rle_trans with (Rsqr (a * (INR n / 2) + s)).
  - apply Rsqr_incr_1; [nra | exact Hlev | nra].
  - pose proof (Rle_0_sqr c). lra.
Qed.

(** With the disturbance within a fifth of the amplitude, the bin of the
    tone stays above 3/10 of [n * a] and every other bin, its mirror image
    apart, below 29/100 of it. *)
Lemma noisy_peak_floor :
  INR n * (3 / 10 * a)
  <= nth k (map Np.abs_c (Np.fft (noisy_bin_tone a n k e))) 0.
Proof.
  eapply Rle_trans; [|apply noisy_peak_level].
  assert (Hn : 0 < INR n) by (apply lt_0_INR; lia).
  apply Rmult_le_compat_l; lra.
Qed.

Lemma noisy_other_bins_ceiling m :
  (m < n)%nat -> m <> k -> m <> (n - k)%nat ->
  nth m (map Np.abs_c (Np.fft (noisy_bin_tone a n k e))) 0
  < INR n * (29 / 100 * a).
Proof.
  intros Hm N1 N2. rewrite noisy_spectrum by exact Hm.
  destruct (Nat.eqb_spec m k) as [E|_]; [contradiction|].
  destruct (Nat.eqb_spec m (n - k)) as [E|_]; [contradiction|].
  set (c := Np.rsum (fun j => e j * cos (INR j * step_angle n m)) n).
  set (s := Np.rsum (fun j => e j * sin (INR j * step_angle n m)) n).
  pose proof (disturbance_cos_bound m) as Bc. fold c in Bc.
  pose proof (disturbance_sin_bound m) as Bs. fold s in Bs.
  assert (Hn : 0 < INR n) by (apply lt_0_INR; lia).
  assert (Hlev : 0 < INR n * (29 / 100 * a)) by (apply Rmult_lt_0_compat; lra).
  rewrite <- (sqrt_Rsqr (INR n * (29 / 100 * a))) by lra.
  apply sqrt_lt_1_alt. split.
  - apply Rplus_le_le_0_compat; apply Rle_0_sqr.
  - assert (Qc : Rsqr c <= Rsqr (INR n * eps)).
    { apply Rsqr_le_abs_1. rewrite (Rabs_pos_eq (INR n * eps)); [exact Bc|].
      apply Rmult_le_pos; lra. }
    assert (Qs : Rsqr (a * 0 + s) <= Rsqr (INR n * eps)).
    { replace (a * 0 + s) with s by ring.
      apply Rsqr_le_abs_1. rewrite (Rabs_pos_eq (INR n * eps)); [exact Bs|].
      apply Rmult_le_pos; lra. }
    apply Rle_lt_trans with (2 * Rsqr (INR n * eps)); [lra|].
    unfold Rsqr.
    assert (Q : 2 * (eps * eps) < (29 / 100 * a) * (29 / 100 * a)) by nra.
    assert (0 < INR n * INR n) by (apply Rmult_lt_0_compat; lra).
    nra.
Qed.

(** So [np.argmax] finds the bin of the tone, or its mirror image, in any
    list of magnitudes that is within [a * n / 200] of the exact one. *)
Lemma peak_of_noisy (magnitudes : list R) :
  length magnitudes = n ->
  (forall m, (m < n)%nat ->
     Rabs (nth m magnitudes 0
           - nth m (map Np.abs_c (Np.fft (noisy_bin_tone a n k e))) 0)
     <= a * INR n / 200) ->
  peak_of magnitudes = k \/ peak_of magnitudes = (n - k)%nat.
Proof.
  intros Hl Hacc.
  assert (Hne : magnitudes <> [])
    by (intros E; rewrite E in Hl; simpl in Hl; lia).
  pose proof (peak_of_bound Hne) as B. rewrite Hl in B.
  pose proof (@peak_of_greatest magnitudes k ltac:(lia)) as G.
  destruct (Nat.eq_dec (peak_of magnitudes) k) as [E1|N1]; [left; exact E1|].
  destruct (Nat.eq_dec (peak_of magnitudes) (n - k)) as [E2|N2]; [right; exact E2|].
  exfalso. pose proof (noisy_other_bins_ceiling B N1 N2) as O.
  pose proof noisy_peak_floor as L.
  pose proof (Hacc k ltac:(lia)) as Ak. apply Rabs_le_bounds in Ak.
  pose proof (Hacc _ B) as Ar. apply Rabs_le_bounds in Ar.
  lra.
Qed.

End NoisyTone.

Lemma normalize_bit_id bit : is_bit bit -> normalize_bit bit = bit.
Proof. intros [-> | ->]; reflexivity. Qed.

(** * The tools in the arithmetic of the machine *)

(** ** The modulator in the arithmetic of the machine *)

Section RoundedModulator.

Variable ar : Fl.arithmetic.
Variable cfg : ModulationConfig.
Variable st0 : rng_state.
Hypothesis rate_nonzero : sample_rate cfg <> 0%Z.

Lemma rounded_inner_step frequency i pre rest :
  Fl.write_sample ar cfg frequency i (pre ++ 0%R :: rest, length pre)
        (Rng (stream st0) (drawn st0 + length pre))
  = Ok ((pre ++ Fl.tone ar cfg st0 frequency (length pre) :: rest, S (length pre)),
        Rng (stream st0) (drawn st0 + S (length pre))).
Proof.
  unfold Fl.write_sample, bind, lift, Fl.truediv, Fl.uniform, random, bind, ret.
  destruct (Z.eqb_spec (sample_rate cfg) 0) as [E|_]; [contradiction|].
  cbn [stream drawn]. rewrite setitem_middle.
  rewrite Nat.add_succ_r. reflexivity.
Qed.

Lemma rounded_inner_loop frequency : forall (xs : list nat) pre m,
  length xs <= m ->
  for_each xs (pre ++ repeat 0%R m, length pre) (Fl.write_sample ar cfg frequency)
           (Rng (stream st0) (drawn st0 + length pre))
  = Ok ((pre ++ map (Fl.tone ar cfg st0 frequency) (seq (length pre) (length xs))
             ++ repeat 0%R (m - length xs),
         length pre + length xs),
        Rng (stream st0) (drawn st0 + (length pre + length xs))).
Proof.
  induction xs as [|x xs IH]; intros pre m Hm.
  - simpl. rewrite Nat.sub_0_r, !Nat.add_0_r. reflexivity.
  - simpl in Hm. destruct m as [|m]; [lia|].
    cbn [for_each repeat]. unfold bind at 1. rewrite rounded_inner_step.
    specialize (IH (pre ++ [Fl.tone ar cfg st0 frequency (length pre)]) m ltac:(lia)).
    rewrite length_app in IH. cbn [length] in IH.
    rewrite Nat.add_1_r in IH. rewrite <- app_assoc in IH. cbn [app] in IH.
    rewrite IH. cbn [length seq map Nat.sub].
    f_equal. f_equal.
    + f_equal; [|lia]. rewrite <- app_assoc. reflexivity.
    + f_equal. lia.
Qed.

Lemma rounded_outer_loop (w : nat -> R) : forall (bs : list ascii) pre m,
  length bs * (Fl.window_length ar cfg) <= m ->
  (forall i j, i < length bs -> j < (Fl.window_length ar cfg) ->
     w (length pre + i * (Fl.window_length ar cfg) + j)
     = Fl.tone ar cfg st0 (bit_frequency cfg (nth i bs "0"%char))
            (length pre + i * (Fl.window_length ar cfg) + j)) ->
  for_each bs (pre ++ repeat 0%R m, length pre) (Fl.write_bit ar cfg)
           (Rng (stream st0) (drawn st0 + length pre))
  = Ok ((pre ++ map w (seq (length pre) (length bs * (Fl.window_length ar cfg)))
             ++ repeat 0%R (m - length bs * (Fl.window_length ar cfg)),
         length pre + length bs * (Fl.window_length ar cfg)),
        Rng (stream st0) (drawn st0 + (length pre + length bs * (Fl.window_length ar cfg)))).
Proof.
  induction bs as [|b bs IH]; intros pre m Hm Hw.
  - simpl. rewrite Nat.sub_0_r, !Nat.add_0_r. reflexivity.
  - cbn [length Nat.mul] in Hm.
    cbn [for_each]. unfold bind at 1. unfold Fl.write_bit at 1.
    pose proof (rounded_inner_loop (bit_frequency cfg b)
                  (range (Fl.samples_per_bit ar cfg)) pre (m := m)) as L.
    unfold range in L. rewrite length_seq in L. fold (Fl.window_length ar cfg) in L.
    specialize (L ltac:(lia)).
    unfold range. fold (Fl.window_length ar cfg). unfold bit_frequency in L.
    rewrite L. clear L.
    assert (E : map (Fl.tone ar cfg st0 (if Ascii.eqb b "1" then frequency_1 cfg
                                         else frequency_0 cfg))
                    (seq (length pre) (Fl.window_length ar cfg))
                = map w (seq (length pre) (Fl.window_length ar cfg))).
    { apply map_ext_in. intros n Hn. apply in_seq in Hn.
      specialize (Hw 0 (n - length pre) ltac:(simpl; lia) ltac:(lia)).
      cbn [nth Nat.mul] in Hw.
      replace (length pre + 0 + (n - length pre)) with n in Hw by lia.
      symmetry. exact Hw. }
    rewrite E. clear E.
    specialize (IH (pre ++ map w (seq (length pre) (Fl.window_length ar cfg)))
                   (m - (Fl.window_length ar cfg))).
    rewrite length_app, length_map, length_seq in IH.
    rewrite <- app_assoc in IH. rewrite IH; clear IH.
    + cbn [length Nat.mul]. f_equal. f_equal.
      * f_equal; [|lia]. rewrite <- app_assoc. f_equal.
        rewrite app_assoc, <- map_app, <- seq_app. f_equal.
        f_equal. lia.
      * f_equal. lia.
    + lia.
    + intros i j Hi Hj.
      specialize (Hw (S i) j ltac:(simpl; lia) Hj). cbn [nth] in Hw.
      replace (length pre + (Fl.window_length ar cfg) + i * (Fl.window_length ar cfg) + j)
        with (length pre + S i * (Fl.window_length ar cfg) + j) by (simpl; lia).
      exact Hw.
Qed.

Hypothesis window_nonneg : (0 <= Fl.samples_per_bit ar cfg)%Z.

Lemma rounded_generate_encoded_sound_spec (binary : list ascii) :
  Fl.generate_encoded_sound ar cfg binary st0
  = Ok (map (Fl.wave ar cfg binary st0)
            (seq 0 (length binary * (Fl.window_length ar cfg))),
        Rng (stream st0) (drawn st0 + length binary * (Fl.window_length ar cfg))).
Proof.
  unfold Fl.generate_encoded_sound, bind at 1, lift at 1, Np.zeros, len.
  destruct (Z.ltb_spec (Z.of_nat (length binary) * Fl.samples_per_bit ar cfg) 0)
    as [H|_]; [nia|].
  replace (Z.to_nat (Z.of_nat (length binary) * Fl.samples_per_bit ar cfg))
    with (length binary * (Fl.window_length ar cfg))
    by (unfold Fl.window_length; nia).
  unfold bind at 1.
  pose proof (rounded_outer_loop (Fl.wave ar cfg binary st0) binary []
                         (m := length binary * (Fl.window_length ar cfg))) as L.
  cbn [app length] in L. rewrite Nat.add_0_r in L.
  replace (Rng (stream st0) (drawn st0)) with st0 in L by (destruct st0; reflexivity).
  match goal with
  | |- context [for_each binary ?x ?f st0] =>
      change (for_each binary x f st0) with (for_each binary x (Fl.write_bit ar cfg) st0)
  end.
  rewrite L; clear L.
  - unfold ret. cbn [fst]. rewrite Nat.sub_diag. cbn [repeat].
    rewrite app_nil_r. reflexivity.
  - lia.
  - intros i j Hi Hj. cbn [Nat.add]. unfold Fl.wave.
    f_equal. f_equal. f_equal.
    rewrite Nat.div_add_l by lia.
    rewrite Nat.div_small by exact Hj. lia.
Qed.

End RoundedModulator.

Lemma samples_per_bit_exact cfg : Fl.samples_per_bit Fl.exact cfg = samples_per_bit cfg.
Proof. reflexivity. Qed.

Lemma window_length_exact cfg : Fl.window_length Fl.exact cfg = window_length cfg.
Proof. reflexivity. Qed.

Lemma valid_config_exact cfg : valid_config cfg -> Fl.valid_config Fl.exact cfg.
Proof. intros V. exact V. Qed.

Lemma rounded_valid_config_rate ar cfg : Fl.valid_config ar cfg -> sample_rate cfg <> 0%Z.
Proof. intros [(H & _) _]. lia. Qed.

Lemma rounded_generate_encoded_sound_valid ar cfg binary st :
  Fl.valid_config ar cfg ->
  Fl.generate_encoded_sound ar cfg binary st
  = Ok (map (Fl.wave ar cfg binary st)
            (seq 0 (length binary * Fl.window_length ar cfg)),
        Rng (stream st) (drawn st + length binary * Fl.window_length ar cfg)).
Proof.
  intros V. apply rounded_generate_encoded_sound_spec.
  - apply (rounded_valid_config_rate V).
  - destruct V as [_ W]. lia.
Qed.

Lemma uniform_value_within ar lo hi u :
  Fl.uniform_within ar lo hi -> (lo <= hi)%R -> (0 <= u < 1)%R ->
  (lo <= Fl.uniform_value ar lo hi u <= hi)%R.
Proof.
  intros (Mono & Idem & Z0 & Lo & Hi) Hle Hu.
  unfold Fl.uniform_value, Fl.fadd, Fl.fmul, Fl.fsub.
  set (w := Fl.round64 ar (hi - lo)).
  assert (Hw : (0 <= w)%R).
  { apply Rle_trans with (Fl.round64 ar 0); [rewrite Z0; lra|].
    apply Mono. lra. }
  assert (Hp : (0 <= Fl.round64 ar (w * u) <= w)%R).
  { split.
    - apply Rle_trans with (Fl.round64 ar 0); [rewrite Z0; lra|].
      apply Mono. apply Rmult_le_pos; lra.
    - apply Rle_trans with (Fl.round64 ar w); [apply Mono; nra|].
      unfold w. rewrite Idem. lra. }
  split.
  - apply Rle_trans with (Fl.round64 ar lo); [rewrite Lo; lra|].
    apply Mono. lra.
  - eapply Rle_trans; [|exact Hi]. apply Mono. fold w. lra.
Qed.

(** C6: the modulator returns [samples_per_bit] samples for each character
    of the bit string and makes one draw per sample.  Sample [n], counted
    from 0 over the whole buffer, holds what the arithmetic of the machine
    makes of [sin(2 pi frequency t) * amplitude + noise] once stored in the
    [np.float32] buffer, where [t] is [n / sample_rate], [frequency] is the
    tone of the bit the sample belongs to ([frequency_1] for '1', else
    [frequency_0]) and [noise] is [random.uniform] of the two noise bounds
    on the [n]-th draw of the run; the noise lies between the two bounds
    when the roundings keep [random.uniform] within its bounds. *)
Theorem generate_encoded_sound_samples
  (ar : Fl.arithmetic) (cfg : ModulationConfig) (binary : list ascii)
  (st : rng_state) :
  Fl.valid_config ar cfg ->
  exists samples st',
    Fl.generate_encoded_sound ar cfg binary st = Ok (samples, st') /\
    len samples = (len binary * Fl.samples_per_bit ar cfg)%Z /\
    drawn st' = drawn st + length samples /\
    forall n, n < length samples ->
      let bit := nth (n / Z.to_nat (Fl.samples_per_bit ar cfg)) binary "0"%char in
      let frequency :=
        if Ascii.eqb bit "1" then frequency_1 cfg else frequency_0 cfg in
      let t := Fl.round64 ar (INR n / IZR (sample_rate cfg)) in
      let u := stream st (drawn st + n) in
      let noise :=
        Fl.fadd ar (fst (noise_range cfg))
          (Fl.fmul ar (Fl.fsub ar (snd (noise_range cfg)) (fst (noise_range cfg))) u) in
      nth n samples 0%R
      = Fl.round32 ar
          (Fl.fadd ar
             (Fl.fmul ar
                (Fl.np_sin ar
                   (Fl.fmul ar
                      (Fl.fmul ar (Fl.fmul ar (Fl.of_int ar 2) (Fl.np_pi ar)) frequency)
                      t))
                (amplitude cfg))
             noise) /\
      (Fl.uniform_within ar (fst (noise_range cfg)) (snd (noise_range cfg)) ->
       (0 <= u < 1)%R ->
       (fst (noise_range cfg) <= noise <= snd (noise_range cfg))%R).
Proof.
  intros V. eexists. eexists.
  split; [apply rounded_generate_encoded_sound_valid; exact V|].
  split; [|split].
  - unfold len. rewrite length_map, length_seq. unfold Fl.window_length.
    destruct V as [_ W]. nia.
  - cbn [drawn]. rewrite length_map, length_seq. reflexivity.
  - intros n Hn. rewrite length_map, length_seq in Hn. cbv zeta. split.
    + rewrite nth_map_seq by exact Hn.
      unfold Fl.wave, Fl.tone, Fl.sample_value, Fl.uniform_value, bit_frequency,
        Fl.window_length.
      rewrite <- INR_IZR_INZ. reflexivity.
    + intros U Hu. destruct V as [(_ & _ & _ & _ & _ & _ & Hr) _].
      apply (uniform_value_within U Hr Hu).
Qed.

Lemma uniform_within_exact lo hi : Fl.uniform_within Fl.exact lo hi.
Proof.
  unfold Fl.uniform_within; cbn [Fl.exact Fl.round64].
  repeat split; try reflexivity; try (intros; assumption). lra.
Qed.

Lemma generate_encoded_sound_samples_witness :
  Fl.valid_config Fl.exact tools_config /\
  Fl.uniform_within Fl.exact (- (5 / 100)) (5 / 100) /\
  exists samples st',
    Fl.generate_encoded_sound Fl.exact tools_config (str "10")
                              (Rng (fun _ => (1 / 2)%R) 0)
    = Ok (samples, st') /\
    len samples = 882%Z /\
    drawn st' = 882 /\
    nth 0 samples 0%R = 0%R.
Proof.
  assert (V : Fl.valid_config Fl.exact tools_config)
    by (apply valid_config_exact, valid_tools_config).
  split; [exact V|]. split; [apply uniform_within_exact|].
  destruct (generate_encoded_sound_samples (str "10") (Rng (fun _ => (1 / 2)%R) 0) V)
    as (samples & st' & E & L & D & W).
  exists samples, st'. split; [exact E|].
  rewrite samples_per_bit_exact, samples_per_bit_tools in L.
  change (len (str "10") * 441)%Z with 882%Z in L.
  assert (Ln : length samples = 882) by (unfold len in L; lia).
  split; [exact L|]. split; [rewrite D, Ln; reflexivity|].
  destruct (W 0 ltac:(lia)) as [W0 _]. rewrite W0.
  cbn [Fl.exact Fl.round32 Fl.round64 Fl.np_sin Fl.np_pi Fl.fadd Fl.fmul Fl.fsub
       Fl.of_int tools_config noise_range fst snd amplitude stream sample_rate INR].
  replace (2 * PI * _ * (0 / 22050))%R with 0%R by (unfold Rdiv; ring).
  rewrite sin_0. lra.
Defined.

(** ** The window length in the arithmetic of the machine *)

Lemma int_of_float_neg_bounds x : (x <= 0)%R ->
  (IZR (int_of_float x) - 1 < x <= IZR (int_of_float x))%R.
Proof.
  intros H. unfold int_of_float. destruct (Rle_dec 0 x) as [P|N].
  - assert (x = 0%R) as -> by lra.
    replace (Int_part 0) with 0%Z
      by (apply Int_part_spec; lra).
    lra.
  - destruct (base_Int_part (- x)) as [A B]. rewrite opp_IZR. lra.
Qed.

(** The product the machine computes can lie above the exact one.  The
    double nearest to 0.3 is [5404319552844595 * 2^-54], so ten times it is
    below 3, yet the binary64 product is 3.0; the double nearest to 1/3 is
    [6004799503160661 * 2^-54], so three times it is below 1, yet the
    binary64 product is 1.0.  The window lengths are then 3 and 1, one more
    than the exact products truncated. *)
Lemma binary64_product_above_exact :
  PrimFloat.mul Binary64.three_tenths Binary64.ten = Binary64.three /\
  FloatOps.Prim2SF Binary64.three_tenths
  = SpecFloat.S754_finite false 5404319552844595 (-54) /\
  (5404319552844595 * 10 < 3 * 2 ^ 54)%Z /\
  PrimFloat.mul Binary64.third Binary64.three = Binary64.one /\
  FloatOps.Prim2SF Binary64.third
  = SpecFloat.S754_finite false 6004799503160661 (-54) /\
  (6004799503160661 * 3 < 1 * 2 ^ 54)%Z.
Proof. repeat split; vm_compute; reflexivity. Qed.

(** C2, amended: the window length is what [int()] makes of the product
    the machine computes for [bit_duration * sample_rate]: that product [p],
    rounded as the machine rounds it, truncated toward zero.  So it is the
    integer [n] with [n <= p < n + 1] when [p] is not negative (with
    [n - 1 < p <= n] otherwise), not the nearest integer, and it is at least
    1 exactly when [p] is at least 1. *)
Theorem samples_per_bit_truncates_product
  (ar : Fl.arithmetic) (cfg : ModulationConfig) :
  let p := Fl.window_product ar cfg in
  let n := Fl.samples_per_bit ar cfg in
  p = Fl.round64 ar (bit_duration cfg * Fl.round64 ar (IZR (sample_rate cfg))) /\
  ((0 <= p)%R -> (IZR n <= p < IZR n + 1)%R) /\
  ((p <= 0)%R -> (IZR n - 1 < p <= IZR n)%R) /\
  (forall z : Z, (0 <= p)%R -> (IZR z <= p < IZR z + 1)%R -> n = z) /\
  ((1 <= n)%Z <-> (1 <= p)%R).
Proof.
  cbv zeta. unfold Fl.samples_per_bit.
  set (p := Fl.window_product ar cfg).
  split; [reflexivity|].
  split; [apply int_of_float_bounds|].
  split; [apply int_of_float_neg_bounds|].
  split; [intros z; apply int_of_float_unique|].
  split.
  - intros H. apply IZR_le in H.
    destruct (Rle_dec 0 p) as [P|N].
    + pose proof (int_of_float_bounds P). lra.
    + pose proof (@int_of_float_neg_bounds p ltac:(lra)). lra.
  - intros H. pose proof (@int_of_float_bounds p ltac:(lra)) as B.
    apply le_IZR.
    destruct (Z_le_gt_dec 1 (int_of_float p)) as [L|G]; [apply IZR_le; exact L|].
    assert (L : (int_of_float p + 1 <= 1)%Z) by lia.
    apply IZR_le in L. rewrite plus_IZR in L. lra.
Qed.

(** What [samples_per_bit_not_rounded] shows does not rest on exact
    arithmetic: 2 and 1.75 are binary64 numbers, and wherever the roundings
    leave them alone the window of [fractional_config] is 1, not the nearest
    integer of the computed product. *)
Lemma samples_per_bit_not_rounded_rounded (ar : Fl.arithmetic) :
  Fl.round64 ar 2 = 2%R -> Fl.round64 ar (7 / 4) = (7 / 4)%R ->
  Fl.window_product ar fractional_config = (7 / 4)%R /\
  Fl.samples_per_bit ar fractional_config = 1%Z /\
  ~ nearest_integer (Fl.window_product ar fractional_config)
                    (Fl.samples_per_bit ar fractional_config).
Proof.
  intros H2 H7.
  assert (P : Fl.window_product ar fractional_config = (7 / 4)%R).
  { unfold Fl.window_product, Fl.fmul, Fl.of_int.
    cbn [fractional_config bit_duration sample_rate]. rewrite H2.
    replace (7 / 8 * 2)%R with (7 / 4)%R by field. exact H7. }
  assert (S : Fl.samples_per_bit ar fractional_config = 1%Z).
  { unfold Fl.samples_per_bit. rewrite P. apply int_of_float_unique; lra. }
  split; [exact P|]. split; [exact S|].
  rewrite P, S. intros H. specialize (H 2%Z).
  replace (7 / 4 - 1)%R with (3 / 4)%R in H by lra.
  replace (7 / 4 - 2)%R with (- (1 / 4))%R in H by lra.
  rewrite Rabs_Ropp in H. rewrite !Rabs_pos_eq in H by lra. lra.
Qed.

Lemma samples_per_bit_truncates_product_witness :
  Fl.window_product Fl.exact fractional_config = (7 / 4)%R /\
  Fl.samples_per_bit Fl.exact fractional_config = 1%Z /\
  Fl.samples_per_bit Fl.exact tools_config = 441%Z.
Proof.
  assert (P : Fl.window_product Fl.exact fractional_config = (7 / 4)%R).
  { unfold Fl.window_product, Fl.fmul, Fl.of_int, fractional_config;
      cbn [Fl.exact Fl.round64 bit_duration sample_rate]. lra. }
  split; [exact P|]. split.
  - destruct (samples_per_bit_truncates_product Fl.exact fractional_config)
      as (_ & _ & _ & U & _).
    apply U; rewrite P; lra.
  - destruct (samples_per_bit_truncates_product Fl.exact tools_config)
      as (_ & _ & _ & U & _).
    assert (Q : Fl.window_product Fl.exact tools_config = 441%R).
    { unfold Fl.window_product, Fl.fmul, Fl.of_int, tools_config;
        cbn [Fl.exact Fl.round64 bit_duration sample_rate]. lra. }
    apply U; rewrite Q; lra.
Defined.

(** ** The demodulator in the arithmetic of the machine *)

Lemma rounded_fftfreq_length ar n d freqs :
  Fl.fftfreq ar n d = Ok freqs -> length freqs = n.
Proof.
  unfold Fl.fftfreq. destruct (Fl.float_div ar 1 _) as [val|e]; [|discriminate].
  intros [= <-]. rewrite length_map, length_seq. reflexivity.
Qed.

Section RoundedDemodulator.

Variable ar : Fl.arithmetic.
Variable cfg : ModulationConfig.
Variables (d : R) (freqs : list R).
Hypothesis window_pos : (1 <= Fl.samples_per_bit ar cfg)%Z.
Hypothesis step_ok : Fl.truediv ar 1 (sample_rate cfg) = Ok d.
Hypothesis freqs_ok : Fl.fftfreq ar (Fl.window_length ar cfg) d = Ok freqs.

Lemma rounded_window_length_pos : 1 <= Fl.window_length ar cfg.
Proof. unfold Fl.window_length. lia. Qed.

Lemma rounded_dominant_freq_spec segment st :
  length segment = Fl.window_length ar cfg ->
  length (Fl.np_abs_fft ar segment) = length segment ->
  Fl.dominant_freq ar cfg segment st
  = Ok (Rabs (nth (peak_of (Fl.np_abs_fft ar segment)) freqs 0%R), st).
Proof.
  intros Hl Hf. pose proof rounded_window_length_pos as P.
  assert (Hne : Fl.np_abs_fft ar segment <> []).
  { intros E. rewrite E in Hf. simpl in Hf. lia. }
  unfold Fl.dominant_freq, bind, lift, ret. rewrite step_ok, Hl, freqs_ok.
  rewrite (argmax_peak_of Hne). unfold Np.getitem.
  pose proof (peak_of_bound Hne) as B.
  assert (K : peak_of (Fl.np_abs_fft ar segment) < length freqs).
  { rewrite (rounded_fftfreq_length _ _ _ freqs_ok). lia. }
  rewrite (nth_error_nth' freqs 0%R K). reflexivity.
Qed.

Lemma rounded_slice_segment_of (samples : list R) i :
  slice samples (Z.of_nat i * Fl.samples_per_bit ar cfg)
                ((Z.of_nat i + 1) * Fl.samples_per_bit ar cfg)
  = Fl.segment_of ar cfg samples i.
Proof.
  unfold slice, Fl.segment_of, Fl.window_length. f_equal; [nia|]. f_equal. nia.
Qed.

Lemma rounded_segment_of_length (samples : list R) i :
  (i + 1) * Fl.window_length ar cfg <= length samples ->
  length (Fl.segment_of ar cfg samples i) = Fl.window_length ar cfg.
Proof.
  intros H. unfold Fl.segment_of. rewrite length_firstn, length_skipn. lia.
Qed.

Variable samples : list R.
Hypothesis transform_length : forall i,
  (i + 1) * Fl.window_length ar cfg <= length samples ->
  length (Fl.np_abs_fft ar (Fl.segment_of ar cfg samples i))
  = length (Fl.segment_of ar cfg samples i).

Lemma rounded_decode_body_step i binary st :
  (i + 1) * Fl.window_length ar cfg <= length samples ->
  Fl.decode_window ar cfg samples i binary st
  = Ok (binary ++
        [Fl.classify ar cfg
           (Rabs (nth (peak_of (Fl.np_abs_fft ar (Fl.segment_of ar cfg samples i)))
                      freqs 0%R))],
        st).
Proof.
  intros H. unfold Fl.decode_window. rewrite rounded_slice_segment_of. unfold bind.
  rewrite rounded_dominant_freq_spec;
    [reflexivity | apply rounded_segment_of_length; exact H
     | apply transform_length; exact H].
Qed.

Lemma rounded_decode_prefix st : forall k,
  k <= length samples / Fl.window_length ar cfg ->
  for_each (seq 0 k) [] (Fl.decode_window ar cfg samples) st
  = Ok (map (fun i =>
               Fl.classify ar cfg
                 (Rabs (nth (peak_of (Fl.np_abs_fft ar (Fl.segment_of ar cfg samples i)))
                            freqs 0%R)))
            (seq 0 k), st).
Proof.
  induction k as [|k IH]; intros Hk; [reflexivity|].
  rewrite seq_S, map_app. cbn [map Nat.add].
  erewrite for_each_snoc by (apply IH; lia).
  apply rounded_decode_body_step.
  pose proof rounded_window_length_pos as P.
  pose proof (Nat.div_mod_eq (length samples) (Fl.window_length ar cfg)) as D.
  nia.
Qed.

Lemma rounded_decode_audio_to_binary_spec st :
  Fl.decode_audio_to_binary ar cfg samples st
  = Ok (map (fun i =>
               Fl.classify ar cfg
                 (Rabs (nth (peak_of (Fl.np_abs_fft ar (Fl.segment_of ar cfg samples i)))
                            freqs 0%R)))
            (seq 0 (length samples / Fl.window_length ar cfg)), st).
Proof.
  unfold Fl.decode_audio_to_binary, bind at 1, lift, floordiv.
  destruct (Z.eqb_spec (Fl.samples_per_bit ar cfg) 0) as [E|_]; [lia|].
  unfold range.
  replace (Z.to_nat (len samples / Fl.samples_per_bit ar cfg))
    with (length samples / Fl.window_length ar cfg).
  - apply rounded_decode_prefix. lia.
  - unfold len, Fl.window_length.
    replace (Fl.samples_per_bit ar cfg)
      with (Z.of_nat (Z.to_nat (Fl.samples_per_bit ar cfg))) at 2 by lia.
    rewrite <- Nat2Z.inj_div. lia.
Qed.

End RoundedDemodulator.

(** ** Sound and back when the arithmetic is accurate *)

Lemma rounded_segment_of_map_seq ar cfg (w : nat -> R) count i :
  i < count ->
  Fl.segment_of ar cfg (map w (seq 0 (count * Fl.window_length ar cfg))) i
  = map w (seq (i * Fl.window_length ar cfg) (Fl.window_length ar cfg)).
Proof.
  intros H. unfold Fl.segment_of.
  rewrite skipn_map, firstn_map, skipn_seq, firstn_seq_prefix by nia.
  reflexivity.
Qed.

Lemma Rabs_near_abs x y b : (0 <= y)%R ->
  (Rabs (x - y) <= b)%R \/ (Rabs (x - - y) <= b)%R ->
  (Rabs (Rabs x - y) <= b)%R.
Proof.
  intros Hy [H|H].
  - eapply Rle_trans; [|exact H].
    rewrite <- (Rabs_pos_eq y) at 1 by exact Hy. apply Rabs_triang_inv2.
  - eapply Rle_trans; [|exact H].
    rewrite <- (Rabs_pos_eq y) at 1 by exact Hy.
    rewrite <- (Rabs_Ropp y). apply Rabs_triang_inv2.
Qed.

(** A frequency read to within a quarter of the distance between the tones
    is classified as the tone it is near, when differences are rounded to
    within an eighth of that distance. *)
Lemma rounded_classify_near ar cfg bit f :
  frequency_0 cfg <> frequency_1 cfg ->
  Fl.accurate_differences ar cfg ->
  (Rabs (f - bit_frequency cfg bit)
   <= Rabs (frequency_1 cfg - frequency_0 cfg) / 4)%R ->
  Fl.classify ar cfg f = normalize_bit bit.
Proof.
  intros Hd Hacc Hf. unfold Fl.classify, Fl.fsub, normalize_bit.
  set (D := Rabs (frequency_1 cfg - frequency_0 cfg)) in *.
  assert (HD : (0 < D)%R) by (apply Rabs_pos_lt; lra).
  unfold bit_frequency in Hf.
  destruct (Ascii.eqb bit "1").
  - assert (H1 : (Rabs (f - frequency_1 cfg) <= 2 * D)%R) by lra.
    assert (H0 : (3 / 4 * D <= Rabs (f - frequency_0 cfg) <= 2 * D)%R).
    { replace (f - frequency_0 cfg)%R
        with ((frequency_1 cfg - frequency_0 cfg) + (f - frequency_1 cfg))%R by ring.
      split.
      - pose proof (Rabs_triang_inv (frequency_1 cfg - frequency_0 cfg)
                                    (- (f - frequency_1 cfg))) as T.
        rewrite Rabs_Ropp in T. fold D in T.
        replace (frequency_1 cfg - frequency_0 cfg - - (f - frequency_1 cfg))%R
          with (frequency_1 cfg - frequency_0 cfg + (f - frequency_1 cfg))%R
          in T by ring.
        lra.
      - eapply Rle_trans; [apply Rabs_triang|]. fold D. lra. }
    pose proof (Hacc _ H1) as A1. pose proof (Hacc _ (proj2 H0)) as A0.
    fold D in A1, A0.
    pose proof (Rabs_triang_inv (Fl.round64 ar (f - frequency_1 cfg))
                                (f - frequency_1 cfg)) as T1.
    pose proof (Rabs_triang_inv (f - frequency_0 cfg)
                                (Fl.round64 ar (f - frequency_0 cfg))) as T0.
    rewrite (Rabs_minus_sym (f - frequency_0 cfg)) in T0.
    destruct (Rlt_dec _ _) as [_|L]; [reflexivity|]. exfalso. apply L. lra.
  - assert (H0 : (Rabs (f - frequency_0 cfg) <= 2 * D)%R) by lra.
    assert (H1 : (3 / 4 * D <= Rabs (f - frequency_1 cfg) <= 2 * D)%R).
    { replace (f - frequency_1 cfg)%R
        with (- (frequency_1 cfg - frequency_0 cfg) + (f - frequency_0 cfg))%R by ring.
      split.
      - pose proof (Rabs_triang_inv (- (frequency_1 cfg - frequency_0 cfg))
                                    (- (f - frequency_0 cfg))) as T.
        rewrite !Rabs_Ropp in T. fold D in T.
        replace (- (frequency_1 cfg - frequency_0 cfg) - - (f - frequency_0 cfg))%R
          with (- (frequency_1 cfg - frequency_0 cfg) + (f - frequency_0 cfg))%R
          in T by ring.
        lra.
      - eapply Rle_trans; [apply Rabs_triang|]. rewrite Rabs_Ropp. fold D. lra. }
    pose proof (Hacc _ H0) as A0. pose proof (Hacc _ (proj2 H1)) as A1.
    fold D in A1, A0.
    pose proof (Rabs_triang_inv (Fl.round64 ar (f - frequency_0 cfg))
                                (f - frequency_0 cfg)) as T0.
    pose proof (Rabs_triang_inv (f - frequency_1 cfg)
                                (Fl.round64 ar (f - frequency_1 cfg))) as T1.
    rewrite (Rabs_minus_sym (f - frequency_1 cfg)) in T1.
    destruct (Rlt_dec _ _) as [L|_]; [|reflexivity]. exfalso. lra.
Qed.

Section AccurateRoundTrip.

Variable ar : Fl.arithmetic.
Variable cfg : ModulationConfig.
Variables k0 k1 : nat.
Variable binary : list ascii.
Variable st : rng_state.
Hypothesis valid : Fl.valid_config ar cfg.
Hypothesis on_bin_0 : Fl.tone_on_bin ar cfg k0 (frequency_0 cfg).
Hypothesis on_bin_1 : Fl.tone_on_bin ar cfg k1 (frequency_1 cfg).
Hypothesis samples_ok : Fl.accurate_samples ar cfg binary st.
Hypothesis transform_ok : Fl.accurate_transform ar cfg.
Hypothesis frequencies_ok : Fl.accurate_frequencies ar cfg.
Hypothesis differences_ok : Fl.accurate_differences ar cfg.

Lemma accurate_window_pos : 1 <= Fl.window_length ar cfg.
Proof. destruct valid as [_ W]. unfold Fl.window_length. lia. Qed.

Lemma accurate_window_INR :
  INR (Fl.window_length ar cfg) = IZR (Fl.samples_per_bit ar cfg).
Proof.
  unfold Fl.window_length. rewrite INR_IZR_INZ, Z2Nat.id; [reflexivity|].
  destruct valid as [_ W]. lia.
Qed.

Lemma accurate_amplitude_pos : (0 < amplitude cfg)%R.
Proof. destruct valid as [(_ & _ & _ & _ & _ & (A & _) & _) _]. exact A. Qed.

Lemma bit_frequency_bin bit :
  bit_frequency cfg bit
  = (INR (bin_of k0 k1 bit)
     * (IZR (sample_rate cfg) / INR (Fl.window_length ar cfg)))%R
  /\ 0 < bin_of k0 k1 bit /\ 2 * bin_of k0 k1 bit < Fl.window_length ar cfg.
Proof.
  rewrite accurate_window_INR.
  unfold bit_frequency, bin_of, Fl.window_length.
  destruct on_bin_0 as (P0 & L0 & E0). destruct on_bin_1 as (P1 & L1 & E1).
  destruct (Ascii.eqb bit "1"); (split; [assumption | split; [assumption | lia]]).
Qed.

(** The pure tone of bit [i] starts every window at the same phase. *)
Lemma pure_tone_on_bin i j :
  (amplitude cfg
   * sin (2 * PI * bit_frequency cfg (nth i binary "0"%char)
          * (INR (i * Fl.window_length ar cfg + j) / IZR (sample_rate cfg))))%R
  = (amplitude cfg
     * sin (INR j * step_angle (Fl.window_length ar cfg)
                               (bin_of k0 k1 (nth i binary "0"%char))))%R.
Proof.
  destruct (bit_frequency_bin (nth i binary "0"%char)) as (-> & _ & _).
  pose proof (rounded_valid_config_rate valid) as Rt.
  assert (Rt' : IZR (sample_rate cfg) <> 0%R) by (apply not_0_IZR; exact Rt).
  assert (W : INR (Fl.window_length ar cfg) <> 0%R)
    by (apply not_0_INR; pose proof accurate_window_pos; lia).
  rewrite plus_INR, mult_INR.
  set (k := bin_of k0 k1 (nth i binary "0"%char)).
  replace (2 * PI * (INR k * (IZR (sample_rate cfg) / INR (Fl.window_length ar cfg)))
           * ((INR i * INR (Fl.window_length ar cfg) + INR j) / IZR (sample_rate cfg)))%R
    with (INR j * step_angle (Fl.window_length ar cfg) k + 2 * INR (k * i) * PI)%R
    by (unfold step_angle; rewrite mult_INR; field; split; assumption).
  rewrite sin_period. reflexivity.
Qed.

(** What separates the stored samples of window [i] from its pure tone. *)
Lemma accurate_disturbance i j :
  i < length binary -> j < Fl.window_length ar cfg ->
  (Rabs (Fl.wave ar cfg binary st (i * Fl.window_length ar cfg + j)
         - amplitude cfg
           * sin (INR j * step_angle (Fl.window_length ar cfg)
                                     (bin_of k0 k1 (nth i binary "0"%char))))
   <= amplitude cfg / 5)%R.
Proof.
  intros Hi Hj.
  pose proof (samples_ok (n := i * Fl.window_length ar cfg + j) ltac:(nia)) as S.
  rewrite Nat.div_add_l, (Nat.div_small j), Nat.add_0_r in S by lia.
  rewrite pure_tone_on_bin in S. exact S.
Qed.

Lemma generated_window i :
  i < length binary ->
  Fl.segment_of ar cfg
    (map (Fl.wave ar cfg binary st)
         (seq 0 (length binary * Fl.window_length ar cfg))) i
  = noisy_bin_tone (amplitude cfg) (Fl.window_length ar cfg)
      (bin_of k0 k1 (nth i binary "0"%char))
      (fun j =>
         (Fl.wave ar cfg binary st (i * Fl.window_length ar cfg + j)
          - amplitude cfg
            * sin (INR j * step_angle (Fl.window_length ar cfg)
                                      (bin_of k0 k1 (nth i binary "0"%char))))%R).
Proof.
  intros Hi. rewrite rounded_segment_of_map_seq by exact Hi. unfold noisy_bin_tone.
  rewrite seq_from, map_map. apply map_ext. intros j. ring.
Qed.

Lemma generated_window_bounded i x :
  i < length binary ->
  In x (Fl.segment_of ar cfg
          (map (Fl.wave ar cfg binary st)
               (seq 0 (length binary * Fl.window_length ar cfg))) i) ->
  (Rabs x <= 6 / 5 * amplitude cfg)%R.
Proof.
  intros Hi Hx. rewrite rounded_segment_of_map_seq in Hx by exact Hi.
  rewrite seq_from, map_map in Hx. apply in_map_iff in Hx.
  destruct Hx as (j & <- & Hj). apply in_seq in Hj.
  pose proof (@accurate_disturbance i j Hi ltac:(lia)) as D.
  pose proof accurate_amplitude_pos as A.
  set (s := sin (INR j * step_angle (Fl.window_length ar cfg)
                                    (bin_of k0 k1 (nth i binary "0"%char)))) in *.
  pose proof (SIN_bound (INR j * step_angle (Fl.window_length ar cfg)
                                   (bin_of k0 k1 (nth i binary "0"%char)))) as B.
  fold s in B.
  apply Rabs_le_bounds in D. apply Rabs_le. split; nra.
Qed.

(** The bin [np.argmax] picks in window [i]: the bin of the tone of bit [i]
    or its mirror image. *)
Lemma generated_window_peak i :
  i < length binary ->
  let segment :=
    Fl.segment_of ar cfg
      (map (Fl.wave ar cfg binary st)
           (seq 0 (length binary * Fl.window_length ar cfg))) i in
  let k := bin_of k0 k1 (nth i binary "0"%char) in
  length (Fl.np_abs_fft ar segment) = length segment /\
  (peak_of (Fl.np_abs_fft ar segment) = k \/
   peak_of (Fl.np_abs_fft ar segment) = Fl.window_length ar cfg - k).
Proof.
  intros Hi segment k.
  assert (Ls : length segment = Fl.window_length ar cfg).
  { unfold segment. rewrite rounded_segment_of_map_seq by exact Hi.
    rewrite length_map, length_seq. reflexivity. }
  destruct (transform_ok segment Ls) as [Lt Acc].
  { intros x Hx. apply (@generated_window_bounded i x Hi Hx). }
  split; [exact Lt|].
  destruct (bit_frequency_bin (nth i binary "0"%char)) as (_ & P & L).
  fold k in P, L.
  pose proof accurate_amplitude_pos as A.
  unfold segment in Acc, Lt |- *. rewrite generated_window in Acc, Lt |- * by exact Hi.
  fold k in Acc, Lt |- *.
  eapply peak_of_noisy with (eps := (amplitude cfg / 5)%R);
    try eassumption; try lra.
  - intros j Hj. apply accurate_disturbance; assumption.
  - rewrite Lt. apply noisy_bin_tone_length.
Qed.

Lemma bin_frequency_near freqs bit r :
  (forall r, r < Fl.window_length ar cfg ->
     (Rabs (nth r freqs 0
            - nth r (Np.fftfreq (Fl.window_length ar cfg)
                                (1 / IZR (sample_rate cfg))) 0)
      <= Rabs (frequency_1 cfg - frequency_0 cfg) / 4)%R) ->
  r = bin_of k0 k1 bit \/ r = Fl.window_length ar cfg - bin_of k0 k1 bit ->
  (Rabs (Rabs (nth r freqs 0) - bit_frequency cfg bit)
   <= Rabs (frequency_1 cfg - frequency_0 cfg) / 4)%R.
Proof.
  intros Hacc Hr. destruct (bit_frequency_bin bit) as (E & P & L).
  pose proof (rounded_valid_config_rate valid) as Rt.
  assert (Rt' : IZR (sample_rate cfg) <> 0%R) by (apply not_0_IZR; exact Rt).
  assert (W : INR (Fl.window_length ar cfg) <> 0%R) by (apply not_0_INR; lia).
  assert (Pos : (0 <= bit_frequency cfg bit)%R).
  { destruct valid as [(_ & _ & F0 & F1 & _) _]. unfold bit_frequency.
    destruct (Ascii.eqb bit "1"); lra. }
  apply Rabs_near_abs; [exact Pos|].
  destruct Hr as [-> | ->].
  - left. pose proof (Hacc (bin_of k0 k1 bit) ltac:(lia)) as A.
    rewrite fftfreq_low in A by exact L.
    replace (INR (bin_of k0 k1 bit)
             * (1 / (INR (Fl.window_length ar cfg) * (1 / IZR (sample_rate cfg)))))%R
      with (bit_frequency cfg bit) in A by (rewrite E; field; split; assumption).
    exact A.
  - right.
    pose proof (Hacc (Fl.window_length ar cfg - bin_of k0 k1 bit) ltac:(lia)) as A.
    rewrite fftfreq_high in A by assumption.
    replace (- INR (bin_of k0 k1 bit)
             * (1 / (INR (Fl.window_length ar cfg) * (1 / IZR (sample_rate cfg)))))%R
      with (- bit_frequency cfg bit)%R in A by (rewrite E; field; split; assumption).
    exact A.
Qed.

Lemma decode_generated_accurate st' :
  Fl.decode_audio_to_binary ar cfg
    (map (Fl.wave ar cfg binary st)
         (seq 0 (length binary * Fl.window_length ar cfg))) st'
  = Ok (map normalize_bit binary, st').
Proof.
  destruct frequencies_ok as (d & freqs & Hd & Hf & Hacc).
  pose proof accurate_window_pos as Wn.
  assert (W : (1 <= Fl.samples_per_bit ar cfg)%Z) by (destruct valid; assumption).
  set (samples := map (Fl.wave ar cfg binary st)
                      (seq 0 (length binary * Fl.window_length ar cfg))).
  assert (Ls : length samples = length binary * Fl.window_length ar cfg)
    by (unfold samples; rewrite length_map, length_seq; reflexivity).
  rewrite (@rounded_decode_audio_to_binary_spec ar cfg d freqs W Hd Hf samples).
  - rewrite Ls, Nat.div_mul by lia. f_equal. f_equal.
    rewrite <- (map_nth_all binary "0"%char) at 2. rewrite map_map.
    apply map_ext_in. intros i Hi. apply in_seq in Hi.
    destruct (@generated_window_peak i ltac:(lia)) as [_ Pk].
    apply rounded_classify_near.
    + destruct valid as [(_ & _ & _ & _ & D & _) _]. exact D.
    + exact differences_ok.
    + apply bin_frequency_near; [exact Hacc | exact Pk].
  - intros i Hi. rewrite Ls in Hi.
    destruct (@generated_window_peak i ltac:(nia)) as [Lt _]. exact Lt.
Qed.

End AccurateRoundTrip.

(** The arithmetic that rounds nothing meets the conditions of accuracy. *)
Lemma exact_fftfreq n d :
  (INR n * d)%R <> 0%R -> Fl.fftfreq Fl.exact n d = Ok (Np.fftfreq n d).
Proof.
  intros H. unfold Fl.fftfreq, Fl.float_div, Fl.fmul, Fl.of_int, Np.fftfreq.
  cbn [Fl.exact Fl.round64]. rewrite <- INR_IZR_INZ.
  destruct (Req_dec_T (INR n * d) 0) as [E|_]; [contradiction|].
  f_equal. apply map_ext_in. intros k Hk. apply in_seq in Hk.
  destruct (k <? (n - 1) / 2 + 1).
  - rewrite <- INR_IZR_INZ. reflexivity.
  - rewrite minus_IZR, <- !INR_IZR_INZ. reflexivity.
Qed.

Lemma exact_accurate_transform cfg :
  (0 <= amplitude cfg)%R -> Fl.accurate_transform Fl.exact cfg.
Proof.
  intros A w Hw _. cbn [Fl.exact Fl.np_abs_fft]. split.
  - rewrite length_map. apply fft_length.
  - intros m _. unfold Rminus. rewrite Rplus_opp_r, Rabs_R0.
    apply Rmult_le_pos; [|lra]. apply Rmult_le_pos; [exact A | apply pos_INR].
Qed.

Lemma exact_accurate_differences cfg : Fl.accurate_differences Fl.exact cfg.
Proof.
  intros x _. cbn [Fl.exact Fl.round64]. unfold Rminus.
  rewrite Rplus_opp_r, Rabs_R0.
  pose proof (Rabs_pos (frequency_1 cfg + - frequency_0 cfg)). lra.
Qed.

Lemma exact_accurate_frequencies cfg :
  valid_config cfg -> Fl.accurate_frequencies Fl.exact cfg.
Proof.
  intros V. pose proof (valid_config_rate V) as Rt.
  pose proof (valid_config_window V) as W.
  exists (1 / IZR (sample_rate cfg))%R.
  exists (Np.fftfreq (window_length cfg) (1 / IZR (sample_rate cfg))).
  split; [|split].
  - unfold Fl.truediv. destruct (Z.eqb_spec (sample_rate cfg) 0) as [E|_];
      [contradiction | reflexivity].
  - rewrite window_length_exact. apply exact_fftfreq.
    assert (IZR (sample_rate cfg) <> 0%R) by (apply not_0_IZR; exact Rt).
    assert (INR (window_length cfg) <> 0%R)
      by (apply not_0_INR; unfold window_length; lia).
    apply Rmult_integral_contrapositive_currified; [assumption|].
    unfold Rdiv. rewrite Rmult_1_l. apply Rinv_neq_0_compat. assumption.
  - intros r _. change (Fl.window_length Fl.exact cfg) with (window_length cfg).
    unfold Rminus. rewrite Rplus_opp_r, Rabs_R0.
    pose proof (Rabs_pos (frequency_1 cfg + - frequency_0 cfg)). lra.
Qed.

Lemma exact_accurate_samples cfg binary st :
  (- (amplitude cfg / 5) <= fst (noise_range cfg))%R ->
  (snd (noise_range cfg) <= amplitude cfg / 5)%R ->
  (fst (noise_range cfg) <= snd (noise_range cfg))%R ->
  (forall k, 0 <= stream st k < 1)%R ->
  Fl.accurate_samples Fl.exact cfg binary st.
Proof.
  intros Lo Hi Hle Hs n _.
  pose proof (@noise_at_bounds cfg st n Hle (Hs (drawn st + n))) as B.
  unfold noise_at in B.
  unfold Fl.wave, Fl.tone, Fl.sample_value, Fl.uniform_value, Fl.fadd, Fl.fmul,
    Fl.fsub, Fl.of_int.
  cbn [Fl.exact Fl.round64 Fl.round32 Fl.np_sin Fl.np_pi].
  rewrite <- INR_IZR_INZ.
  match goal with
  | |- (Rabs (sin ?x * ?a + ?e - ?a * sin ?y) <= _)%R =>
      replace (sin x * a + e - a * sin y)%R with e by (unfold Rdiv; ring)
  end.
  apply Rabs_le. lra.
Qed.

(** X16: when the two tones are bin centres below half the sample rate and
    the arithmetic is accurate enough (every stored sample, noise and
    roundings together, within a fifth of the amplitude of the pure tone of
    its bit; the magnitudes of the transform within [amplitude *
    samples_per_bit / 200] of the exact ones; the bin frequencies within a
    quarter, and the rounding of their differences to the tones within an
    eighth, of the distance between the tones), the demodulator recovers
    from the modulator's sound exactly the characters the modulator read:
    the string with every character other than '1' replaced by '0'. *)
Theorem demodulate_accurate
  (ar : Fl.arithmetic) (cfg : ModulationConfig) (k0 k1 : nat)
  (binary : list ascii) (st : rng_state) :
  Fl.valid_config ar cfg ->
  Fl.tone_on_bin ar cfg k0 (frequency_0 cfg) ->
  Fl.tone_on_bin ar cfg k1 (frequency_1 cfg) ->
  Fl.accurate_samples ar cfg binary st ->
  Fl.accurate_transform ar cfg ->
  Fl.accurate_frequencies ar cfg ->
  Fl.accurate_differences ar cfg ->
  exists samples st',
    Fl.generate_encoded_sound ar cfg binary st = Ok (samples, st') /\
    len samples = (len binary * Fl.samples_per_bit ar cfg)%Z /\
    Fl.decode_audio_to_binary ar cfg samples st'
    = Ok (map normalize_bit binary, st') /\
    (Forall is_bit binary ->
     Fl.decode_audio_to_binary ar cfg samples st' = Ok (binary, st')).
Proof.
  intros V B0 B1 As At Af Ad. do 2 eexists.
  split; [apply rounded_generate_encoded_sound_valid; exact V|].
  assert (E : forall st',
             Fl.decode_audio_to_binary ar cfg
               (map (Fl.wave ar cfg binary st)
                    (seq 0 (length binary * Fl.window_length ar cfg))) st'
             = Ok (map normalize_bit binary, st'))
    by (intros st'; apply (@decode_generated_accurate ar cfg k0 k1 binary st
                             V B0 B1 As At Af Ad)).
  split; [|split; [apply E|]].
  - unfold len. rewrite length_map, length_seq. unfold Fl.window_length.
    destruct V as [_ W]. nia.
  - intros Hb. rewrite E. f_equal. f_equal.
    rewrite <- (map_id binary) at 2. apply map_ext_in. intros c Hc.
    apply normalize_bit_id. rewrite Forall_forall in Hb. apply Hb. exact Hc.
Qed.

(** X17: under the same conditions a text of byte-sized code points
    survives the whole path with the noise switched on: encoded, modulated,
    demodulated and read back in the arithmetic of the machine, it is
    returned unchanged. *)
Theorem round_trip_accurate
  (ar : Fl.arithmetic) (cfg : ModulationConfig) (k0 k1 : nat) (s : list N)
  (st : rng_state) :
  Fl.valid_config ar cfg ->
  Fl.tone_on_bin ar cfg k0 (frequency_0 cfg) ->
  Fl.tone_on_bin ar cfg k1 (frequency_1 cfg) ->
  Fl.accurate_samples ar cfg (text_to_binary s) st ->
  Fl.accurate_transform ar cfg ->
  Fl.accurate_frequencies ar cfg ->
  Fl.accurate_differences ar cfg ->
  Forall is_byte s ->
  exists st', Fl.round_trip ar cfg s st = Ok (s, st').
Proof.
  intros V B0 B1 As At Af Ad Hb. eexists. unfold Fl.round_trip, bind.
  rewrite rounded_generate_encoded_sound_valid by exact V.
  rewrite (@decode_generated_accurate ar cfg k0 k1 (text_to_binary s) st
             V B0 B1 As At Af Ad).
  rewrite (@map_ext_in _ _ normalize_bit (fun c => c))
    by (intros c Hc; apply normalize_bit_id;
        pose proof (text_to_binary_is_bit s) as F;
        rewrite Forall_forall in F; apply F; exact Hc).
  rewrite map_id. apply binary_to_text_inverts. exact Hb.
Qed.

(** C1, amended: for every byte string and every valid noise-free
    configuration whose two tones are bin centres [k * sample_rate /
    samples_per_bit] with [0 < k < samples_per_bit / 2], encoding the
    string, generating the sound, decoding it and reading the bits back
    returns the string, provided the arithmetic is accurate enough: every
    stored sample within a fifth of the amplitude of the pure tone of its
    bit, the magnitudes of the transform within [amplitude * samples_per_bit
    / 200] of the exact ones, the bin frequencies within a quarter, and the
    rounding of their differences to the tones within an eighth, of the
    distance between the tones.  Arithmetic without rounding meets these
    conditions. *)
Theorem round_trip_noise_free
  (ar : Fl.arithmetic) (cfg : ModulationConfig) (k0 k1 : nat) (s : list N)
  (st : rng_state) :
  Fl.valid_config ar cfg ->
  noise_free cfg ->
  Fl.tone_on_bin ar cfg k0 (frequency_0 cfg) ->
  Fl.tone_on_bin ar cfg k1 (frequency_1 cfg) ->
  Fl.accurate_samples ar cfg (text_to_binary s) st ->
  Fl.accurate_transform ar cfg ->
  Fl.accurate_frequencies ar cfg ->
  Fl.accurate_differences ar cfg ->
  Forall is_byte s ->
  exists st', Fl.round_trip ar cfg s st = Ok (s, st').
Proof.
  intros V Q B0 B1 As At Af Ad Hb.
  pose proof (@decode_generated_accurate ar cfg k0 k1 (text_to_binary s) st
                V B0 B1 As At Af Ad) as D.
  assert (E : map normalize_bit (text_to_binary s) = text_to_binary s).
  { rewrite <- (map_id (text_to_binary s)) at 2. apply map_ext_in.
    intros c Hc. apply normalize_bit_id.
    pose proof (text_to_binary_is_bit s) as F.
    rewrite Forall_forall in F. apply F. exact Hc. }
  rewrite E in D.
  exists (Rng (stream st)
              (drawn st + length (text_to_binary s) * Fl.window_length ar cfg)).
  unfold Fl.round_trip, bind.
  rewrite rounded_generate_encoded_sound_valid by exact V.
  rewrite D. apply binary_to_text_inverts. exact Hb.
Qed.

Lemma exact_tools_on_bins cfg :
  sample_rate cfg = 22050%Z -> bit_duration cfg = (2 / 100)%R ->
  frequency_0 cfg = 1000%R -> frequency_1 cfg = 1500%R ->
  Fl.samples_per_bit Fl.exact cfg = 441%Z /\
  Fl.tone_on_bin Fl.exact cfg 20 (frequency_0 cfg) /\
  Fl.tone_on_bin Fl.exact cfg 30 (frequency_1 cfg).
Proof.
  intros Hr Hd H0 H1.
  assert (S : Fl.samples_per_bit Fl.exact cfg = 441%Z).
  { rewrite samples_per_bit_exact. unfold samples_per_bit. rewrite Hr, Hd.
    exact samples_per_bit_tools. }
  split; [exact S|]. unfold Fl.tone_on_bin. rewrite S, Hr, H0, H1.
  split; (split; [lia|]; split; [lia|]; cbn [INR]; lra).
Qed.

Lemma valid_tools_config_low_noise : valid_config tools_config_low_noise.
Proof.
  split.
  - unfold valid_parameters, tools_config_low_noise; cbn.
    repeat split; try lra; try lia.
  - exact (valid_config_window valid_tools_config).
Qed.

Lemma valid_tools_config_noise_free : valid_config tools_config_noise_free.
Proof.
  split.
  - unfold valid_parameters, tools_config_noise_free; cbn.
    repeat split; try lra; try lia.
  - exact (valid_config_window valid_tools_config).
Qed.

(** The arithmetic that cuts every stored sample off after 24 binary
    digits meets the conditions too, when the noise leaves room for it. *)
Lemma coarse_store_error x :
  (Rabs (Fl.round32 Fl.coarse_store x - x) <= / 16777216)%R.
Proof.
  cbn [Fl.coarse_store Fl.round32].
  destruct (base_Int_part (x * 16777216)) as [A B].
  set (z := IZR (Int_part (x * 16777216))) in *.
  apply Rabs_le. split.
  - apply Rmult_le_reg_r with 16777216%R; [lra|].
    replace ((z / 16777216 - x) * 16777216)%R with (z - x * 16777216)%R by field.
    replace (- / 16777216 * 16777216)%R with (-1)%R by field. lra.
  - apply Rmult_le_reg_r with 16777216%R; [lra|].
    replace ((z / 16777216 - x) * 16777216)%R with (z - x * 16777216)%R by field.
    replace (/ 16777216 * 16777216)%R with 1%R by field. lra.
Qed.

Lemma coarse_store_accurate_samples cfg binary st e :
  (forall n, Rabs (noise_at cfg st n) <= e)%R ->
  (e + / 16777216 <= amplitude cfg / 5)%R ->
  Fl.accurate_samples Fl.coarse_store cfg binary st.
Proof.
  intros He Hroom n _. specialize (He n). unfold noise_at in He.
  unfold Fl.wave, Fl.tone, Fl.sample_value.
  match goal with
  | |- (Rabs (Fl.round32 Fl.coarse_store ?v - ?ideal) <= _)%R =>
      pose proof (coarse_store_error v) as C;
      set (stored := Fl.round32 Fl.coarse_store v) in *;
      replace (stored - ideal)%R with ((stored - v) + (v - ideal))%R by ring;
      assert (N : (v - ideal
                   = fst (noise_range cfg)
                     + (snd (noise_range cfg) - fst (noise_range cfg))
                       * stream st (drawn st + n))%R)
  end.
  { unfold Fl.uniform_value, Fl.fadd, Fl.fmul, Fl.fsub, Fl.of_int.
    cbn [Fl.coarse_store Fl.round64 Fl.np_sin Fl.np_pi].
    rewrite <- INR_IZR_INZ. unfold Rdiv. ring. }
  eapply Rle_trans; [apply Rabs_triang|]. rewrite N. lra.
Qed.

Lemma coarse_store_tools cfg :
  valid_config cfg ->
  sample_rate cfg = 22050%Z -> bit_duration cfg = (2 / 100)%R ->
  frequency_0 cfg = 1000%R -> frequency_1 cfg = 1500%R ->
  Fl.valid_config Fl.coarse_store cfg /\
  Fl.tone_on_bin Fl.coarse_store cfg 20 (frequency_0 cfg) /\
  Fl.tone_on_bin Fl.coarse_store cfg 30 (frequency_1 cfg) /\
  Fl.accurate_transform Fl.coarse_store cfg /\
  Fl.accurate_frequencies Fl.coarse_store cfg /\
  Fl.accurate_differences Fl.coarse_store cfg.
Proof.
  intros V Hr Hd H0 H1.
  destruct (@exact_tools_on_bins cfg Hr Hd H0 H1) as (_ & B0 & B1).
  split; [exact V|]. split; [exact B0|]. split; [exact B1|].
  split; [|split].
  - apply (@exact_accurate_transform cfg).
    destruct V as [(_ & _ & _ & _ & _ & (A & _) & _) _]. lra.
  - exact (exact_accurate_frequencies V).
  - exact (exact_accurate_differences cfg).
Qed.

Lemma demodulate_accurate_witness :
  Fl.valid_config Fl.coarse_store tools_config_low_noise /\
  Fl.tone_on_bin Fl.coarse_store tools_config_low_noise 20 1000 /\
  Fl.tone_on_bin Fl.coarse_store tools_config_low_noise 30 1500 /\
  Fl.accurate_samples Fl.coarse_store tools_config_low_noise (str "1x0")
                      (Rng (fun _ => (1 / 3)%R) 0) /\
  Fl.accurate_transform Fl.coarse_store tools_config_low_noise /\
  Fl.accurate_frequencies Fl.coarse_store tools_config_low_noise /\
  Fl.accurate_differences Fl.coarse_store tools_config_low_noise /\
  exists samples st',
    Fl.generate_encoded_sound Fl.coarse_store tools_config_low_noise (str "1x0")
                              (Rng (fun _ => (1 / 3)%R) 0)
    = Ok (samples, st') /\
    Fl.decode_audio_to_binary Fl.coarse_store tools_config_low_noise samples st'
    = Ok (str "100", st').
Proof.
  destruct (@coarse_store_tools tools_config_low_noise valid_tools_config_low_noise
              eq_refl eq_refl eq_refl eq_refl)
    as (V & B0 & B1 & At & Af & Ad).
  assert (As : Fl.accurate_samples Fl.coarse_store tools_config_low_noise (str "1x0")
                                   (Rng (fun _ => (1 / 3)%R) 0)).
  { apply coarse_store_accurate_samples with (e := (1 / 100)%R).
    - intros n. unfold noise_at. cbn. apply Rabs_le. lra.
    - cbn. lra. }
  split; [exact V|]. split; [exact B0|]. split; [exact B1|]. split; [exact As|].
  split; [exact At|]. split; [exact Af|]. split; [exact Ad|].
  destruct (@demodulate_accurate Fl.coarse_store tools_config_low_noise 20 30
              (str "1x0") (Rng (fun _ => (1 / 3)%R) 0) V B0 B1 As At Af Ad)
    as (samples & st' & E & _ & D & _).
  exists samples, st'. split; [exact E | exact D].
Defined.

Lemma round_trip_accurate_witness :
  Fl.valid_config Fl.coarse_store tools_config_low_noise /\
  Fl.accurate_samples Fl.coarse_store tools_config_low_noise
                      (text_to_binary [76; 82]%N) (Rng (fun _ => (1 / 3)%R) 0) /\
  Forall is_byte [76; 82]%N /\
  exists st',
    Fl.round_trip Fl.coarse_store tools_config_low_noise [76; 82]%N
                  (Rng (fun _ => (1 / 3)%R) 0)
    = Ok ([76; 82]%N, st').
Proof.
  destruct (@coarse_store_tools tools_config_low_noise valid_tools_config_low_noise
              eq_refl eq_refl eq_refl eq_refl)
    as (V & B0 & B1 & At & Af & Ad).
  assert (As : Fl.accurate_samples Fl.coarse_store tools_config_low_noise
                 (text_to_binary [76; 82]%N) (Rng (fun _ => (1 / 3)%R) 0)).
  { apply coarse_store_accurate_samples with (e := (1 / 100)%R).
    - intros n. unfold noise_at. cbn. apply Rabs_le. lra.
    - cbn. lra. }
  assert (Hb : Forall is_byte [76; 82]%N) by (repeat constructor).
  split; [exact V|]. split; [exact As|]. split; [exact Hb|].
  exact (@round_trip_accurate Fl.coarse_store tools_config_low_noise 20 30
           [76; 82]%N (Rng (fun _ => (1 / 3)%R) 0) V B0 B1 As At Af Ad Hb).
Defined.

Lemma round_trip_noise_free_witness :
  Fl.valid_config Fl.coarse_store tools_config_noise_free /\
  noise_free tools_config_noise_free /\
  Fl.tone_on_bin Fl.coarse_store tools_config_noise_free 20 1000 /\
  Fl.tone_on_bin Fl.coarse_store tools_config_noise_free 30 1500 /\
  Fl.accurate_samples Fl.coarse_store tools_config_noise_free
                      (text_to_binary [65%N]) (Rng (fun _ => 0%R) 0) /\
  Fl.accurate_transform Fl.coarse_store tools_config_noise_free /\
  Fl.accurate_frequencies Fl.coarse_store tools_config_noise_free /\
  Fl.accurate_differences Fl.coarse_store tools_config_noise_free /\
  Forall is_byte [65%N] /\
  exists st',
    Fl.round_trip Fl.coarse_store tools_config_noise_free [65%N]
                  (Rng (fun _ => 0%R) 0)
    = Ok ([65%N], st').
Proof.
  destruct (@coarse_store_tools tools_config_noise_free valid_tools_config_noise_free
              eq_refl eq_refl eq_refl eq_refl)
    as (V & B0 & B1 & At & Af & Ad).
  assert (As : Fl.accurate_samples Fl.coarse_store tools_config_noise_free
                 (text_to_binary [65%N]) (Rng (fun _ => 0%R) 0)).
  { apply coarse_store_accurate_samples with (e := 0%R).
    - intros n. unfold noise_at. cbn. apply Rabs_le. lra.
    - cbn. lra. }
  assert (Hb : Forall is_byte [65%N]) by (repeat constructor).
  split; [exact V|]. split; [reflexivity|]. split; [exact B0|]. split; [exact B1|].
  split; [exact As|]. split; [exact At|]. split; [exact Af|]. split; [exact Ad|].
  split; [exact Hb|].
  exact (@round_trip_noise_free Fl.coarse_store tools_config_noise_free 20 30 [65%N]
           (Rng (fun _ => 0%R) 0) V eq_refl B0 B1 As At Af Ad Hb).
Defined.

(** ** Windows and segments shorter than a sample period *)

Lemma int_of_float_small x : (-1 < x < 1)%R -> int_of_float x = 0%Z.
Proof.
  intros H. unfold int_of_float. destruct (Rle_dec 0 x) as [P|N].
  - symmetry. apply Int_part_spec. lra.
  - replace (Int_part (- x)) with 0%Z; [reflexivity|].
    apply Int_part_spec. lra.
Qed.

Lemma rounded_for_each_no_window ar cfg binary s st :
  Fl.samples_per_bit ar cfg = 0%Z ->
  for_each binary s (Fl.write_bit ar cfg) st = Ok (s, st).
Proof.
  intros Z0. revert s st. induction binary as [|bit binary IH]; intros s st;
    [reflexivity|].
  cbn [for_each]. unfold bind, Fl.write_bit at 1. destruct s as [samples cur].
  rewrite Z0. cbn [range Z.to_nat seq for_each]. unfold ret at 1. apply IH.
Qed.

(** X8: when the product the machine computes for [bit_duration *
    sample_rate] is below 1 in magnitude, the window length is 0: the
    modulator then returns an empty buffer for every bit string, and the
    demodulator raises [ZeroDivisionError] for every buffer, so the path from
    text to sound and back raises too. *)
Theorem short_bit_window (ar : Fl.arithmetic) (cfg : ModulationConfig) :
  (-1 < Fl.window_product ar cfg < 1)%R ->
  Fl.samples_per_bit ar cfg = 0%Z /\
  (forall binary st, Fl.generate_encoded_sound ar cfg binary st = Ok ([], st)) /\
  (forall samples st,
      Fl.decode_audio_to_binary ar cfg samples st = Raise ZeroDivisionError) /\
  (forall s st, Fl.round_trip ar cfg s st = Raise ZeroDivisionError).
Proof.
  intros Hp.
  assert (Z0 : Fl.samples_per_bit ar cfg = 0%Z)
    by (apply int_of_float_small; exact Hp).
  assert (G : forall binary st,
             Fl.generate_encoded_sound ar cfg binary st = Ok ([], st)).
  { intros binary st. unfold Fl.generate_encoded_sound, bind, lift, Np.zeros.
    rewrite Z0, Z.mul_0_r. cbn [Z.ltb Z.compare Z.to_nat repeat].
    rewrite rounded_for_each_no_window by exact Z0. reflexivity. }
  assert (D : forall samples st,
             Fl.decode_audio_to_binary ar cfg samples st = Raise ZeroDivisionError).
  { intros samples st. unfold Fl.decode_audio_to_binary, bind, lift, floordiv.
    rewrite Z0. reflexivity. }
  split; [exact Z0|]. split; [exact G|]. split; [exact D|].
  intros s st. unfold Fl.round_trip, bind. rewrite G, D. reflexivity.
Qed.

Lemma short_bit_window_witness :
  (-1 < Fl.window_product Fl.exact short_bit_config < 1)%R /\
  Fl.round_trip Fl.exact short_bit_config [65%N] (Rng (fun _ => 0%R) 0)
  = Raise ZeroDivisionError.
Proof.
  assert (P : (-1 < Fl.window_product Fl.exact short_bit_config < 1)%R).
  { unfold Fl.window_product, Fl.fmul, Fl.of_int, short_bit_config;
      cbn [Fl.exact Fl.round64 bit_duration sample_rate]. lra. }
  split; [exact P|].
  destruct (@short_bit_window Fl.exact short_bit_config P) as (_ & _ & _ & RT).
  apply RT.
Defined.

(** X15: when the product the machine computes for [segment_duration *
    sample_rate] is below 1 in magnitude, the segment length is 0 and the
    tuning script stops with [ZeroDivisionError] at the division that counts
    the whole segments. *)
Theorem generate_tuning_sound_short_segment
  (ar : Fl.arithmetic) (tc : TuningConfig) (st : rng_state) :
  (-1 < Fl.segment_product ar tc < 1)%R ->
  Fl.segment_samples ar tc = 0%Z /\
  Fl.generate_tuning_sound ar tc st = Raise ZeroDivisionError.
Proof.
  intros Hp.
  assert (Z0 : Fl.segment_samples ar tc = 0%Z)
    by (apply int_of_float_small; exact Hp).
  split; [exact Z0|].
  unfold Fl.generate_tuning_sound, bind, lift, floordiv. rewrite Z0. reflexivity.
Qed.

Lemma generate_tuning_sound_short_segment_witness :
  (-1 < Fl.segment_product Fl.exact short_segment_tuning < 1)%R /\
  Fl.generate_tuning_sound Fl.exact short_segment_tuning (Rng (fun _ => 0%R) 0)
  = Raise ZeroDivisionError.
Proof.
  assert (P : (-1 < Fl.segment_product Fl.exact short_segment_tuning < 1)%R).
  { unfold Fl.segment_product, Fl.fmul, Fl.of_int, short_segment_tuning;
      cbn [Fl.exact Fl.round64 segment_duration tuning_sample_rate]. lra. }
  split; [exact P|].
  exact (proj2 (@generate_tuning_sound_short_segment Fl.exact short_segment_tuning
                  (Rng (fun _ => 0%R) 0) P)).
Defined.

(** ** The tuning sound in the arithmetic of the machine *)

Section RoundedTuningSound.

Variable ar : Fl.arithmetic.
Variable tc : TuningConfig.
Variable st0 : rng_state.
Hypothesis valid : Fl.valid_tuning ar tc.

Lemma rounded_tuning_rate_nonzero : sample_rate (tuning_params tc) <> 0%Z.
Proof. destruct valid as (H & _). cbn [tuning_params sample_rate]. lia. Qed.

Lemma rounded_tuning_tone_wave k n :
  n / Z.to_nat (Fl.segment_samples ar tc) = k ->
  Fl.tone ar (tuning_params tc) (Rng (stream st0) (drawn st0 + k + 1))
          (Fl.segment_frequency ar tc st0 k) n
  = Fl.tuning_wave ar tc st0 n.
Proof.
  intros E. unfold Fl.tone, Fl.tuning_wave. cbv zeta. rewrite E.
  cbn [stream drawn]. f_equal. f_equal. lia.
Qed.

Lemma rounded_write_segment_spec k count pre m :
  length pre = k * Z.to_nat (Fl.segment_samples ar tc) ->
  count <= Z.to_nat (Fl.segment_samples ar tc) ->
  count <= m ->
  Fl.write_segment ar tc (Z.of_nat count) (pre ++ repeat 0%R m, length pre)
    (Rng (stream st0)
         (drawn st0 + k * (Z.to_nat (Fl.segment_samples ar tc) + 1)))
  = Ok ((pre ++ map (Fl.tuning_wave ar tc st0) (seq (length pre) count)
             ++ repeat 0%R (m - count),
         length pre + count),
        Rng (stream st0)
            (drawn st0 + k * (Z.to_nat (Fl.segment_samples ar tc) + 1) + 1 + count)).
Proof.
  intros Hpre Hc Hm. destruct valid as (_ & _ & P).
  unfold Fl.write_segment, bind at 1, Fl.uniform, bind at 1, random, ret at 1.
  cbn [stream drawn].
  change (Fl.fadd ar (fst (frequency_range tc))
            (Fl.fmul ar (Fl.fsub ar (snd (frequency_range tc)) (fst (frequency_range tc)))
               (stream st0
                  (drawn st0 + k * (Z.to_nat (Fl.segment_samples ar tc) + 1)))))
    with (Fl.segment_frequency ar tc st0 k).
  pose proof (@rounded_inner_loop ar (tuning_params tc)
                (Rng (stream st0) (drawn st0 + k + 1)) rounded_tuning_rate_nonzero
                (Fl.segment_frequency ar tc st0 k) (range (Z.of_nat count)) pre m) as L.
  unfold range in L. rewrite Nat2Z.id, length_seq in L. specialize (L Hm).
  cbn [stream drawn] in L.
  replace (drawn st0 + k + 1 + length pre)
    with (S (drawn st0 + k * (Z.to_nat (Fl.segment_samples ar tc) + 1))) in L by lia.
  unfold range. rewrite Nat2Z.id. rewrite L. f_equal. f_equal.
  - f_equal. f_equal. f_equal. apply map_ext_in. intros n Hn. apply in_seq in Hn.
    apply rounded_tuning_tone_wave. symmetry.
    apply (Nat.div_unique n _ k (n - length pre)); lia.
  - f_equal. lia.
Qed.

Lemma rounded_segments_loop m : forall k,
  k * Z.to_nat (Fl.segment_samples ar tc) <= m ->
  for_each (seq 0 k) (repeat 0%R m, 0)
           (fun _ s => Fl.write_segment ar tc (Fl.segment_samples ar tc) s) st0
  = Ok ((map (Fl.tuning_wave ar tc st0)
             (seq 0 (k * Z.to_nat (Fl.segment_samples ar tc)))
         ++ repeat 0%R (m - k * Z.to_nat (Fl.segment_samples ar tc)),
         k * Z.to_nat (Fl.segment_samples ar tc)),
        Rng (stream st0)
            (drawn st0 + k * (Z.to_nat (Fl.segment_samples ar tc) + 1))).
Proof.
  destruct valid as (_ & _ & P).
  induction k as [|k IH]; intros Hk.
  - cbn [seq for_each Nat.mul map app]. rewrite Nat.sub_0_r, Nat.add_0_r.
    destruct st0; reflexivity.
  - rewrite seq_S. cbn [Nat.add].
    erewrite for_each_snoc by (apply IH; lia).
    set (p := Z.to_nat (Fl.segment_samples ar tc)) in *.
    set (pre := map (Fl.tuning_wave ar tc st0) (seq 0 (k * p))).
    assert (Lp : length pre = k * p)
      by (unfold pre; rewrite length_map, length_seq; reflexivity).
    pose proof (@rounded_write_segment_spec k p pre (p + (m - S k * p)) Lp
                  ltac:(unfold p; lia) ltac:(lia)) as G.
    rewrite Lp in G. fold p in G.
    replace (Z.of_nat p) with (Fl.segment_samples ar tc) in G by (unfold p; lia).
    replace (m - k * p) with (p + (m - S k * p)) by lia.
    rewrite G. f_equal. f_equal.
    + f_equal; [|lia]. unfold pre.
      rewrite app_assoc, <- map_app, <- seq_app. f_equal; [|f_equal; lia].
      f_equal. f_equal. lia.
    + f_equal. lia.
Qed.

End RoundedTuningSound.

Lemma rounded_generate_tuning_sound_spec ar tc st :
  Fl.valid_tuning ar tc ->
  Fl.generate_tuning_sound ar tc st
  = Ok (map (Fl.tuning_wave ar tc st) (seq 0 (Z.to_nat (Fl.total_samples ar tc))),
        Rng (stream st)
            (drawn st + Z.to_nat (Fl.total_samples ar tc)
             + Z.to_nat (Fl.total_samples ar tc / Fl.segment_samples ar tc)
             + (if (0 <? Fl.total_samples ar tc mod Fl.segment_samples ar tc)%Z
                then 1 else 0))).
Proof.
  intros V. destruct V as (Hr & T & P).
  assert (V : Fl.valid_tuning ar tc) by (split; [|split]; assumption).
  set (p := Z.to_nat (Fl.segment_samples ar tc)).
  set (t := Z.to_nat (Fl.total_samples ar tc)).
  assert (Ep : Fl.segment_samples ar tc = Z.of_nat p) by (unfold p; lia).
  assert (Et : Fl.total_samples ar tc = Z.of_nat t) by (unfold t; lia).
  assert (Hp : 1 <= p) by (unfold p; lia).
  pose proof (Nat.div_mod_eq t p) as D.
  pose proof (Nat.mod_upper_bound t p ltac:(lia)) as U.
  assert (Eq : Z.to_nat (Fl.total_samples ar tc / Fl.segment_samples ar tc) = t / p)
    by (rewrite Ep, Et, <- Nat2Z.inj_div; apply Nat2Z.id).
  assert (Er : (Fl.total_samples ar tc mod Fl.segment_samples ar tc)%Z
               = Z.of_nat (t mod p))
    by (rewrite Ep, Et, <- Nat2Z.inj_mod; reflexivity).
  unfold Fl.generate_tuning_sound, bind at 1, lift at 1, floordiv.
  destruct (Z.eqb_spec (Fl.segment_samples ar tc) 0) as [E|_]; [lia|].
  unfold bind at 1, lift at 1, py_mod.
  destruct (Z.eqb_spec (Fl.segment_samples ar tc) 0) as [E|_]; [lia|].
  unfold bind at 1, lift at 1, Np.zeros.
  destruct (Z.ltb_spec (Fl.total_samples ar tc) 0) as [E|_]; [lia|].
  fold t. unfold range. rewrite Eq, Er.
  unfold bind at 1.
  rewrite (@rounded_segments_loop ar tc st V t (t / p)) by (fold p; nia).
  fold p.
  destruct (Z.ltb_spec 0 (Z.of_nat (t mod p))) as [R|R].
  - unfold bind at 1.
    set (pre := map (Fl.tuning_wave ar tc st) (seq 0 (t / p * p))).
    assert (Lp : length pre = t / p * p)
      by (unfold pre; rewrite length_map, length_seq; reflexivity).
    pose proof (@rounded_write_segment_spec ar tc st V (t / p) (t mod p) pre
                  (t - t / p * p) Lp ltac:(fold p; lia) ltac:(lia)) as G.
    rewrite Lp in G. fold p in G. rewrite G. unfold ret. cbn [fst].
    f_equal. f_equal.
    + replace (t - t / p * p - t mod p) with 0 by lia. cbn [repeat].
      rewrite app_nil_r. unfold pre. rewrite <- map_app, <- seq_app.
      f_equal. f_equal. lia.
    + f_equal. lia.
  - unfold bind at 1, ret. cbn [fst]. f_equal. f_equal.
    + replace (t - t / p * p) with 0 by lia. cbn [repeat].
      rewrite app_nil_r. f_equal. f_equal. lia.
    + f_equal. lia.
Qed.

(** X14: when the buffer and the segments have at least one sample the
    tuning script returns exactly [total_samples] samples.  Sample [n],
    counted over the whole buffer, holds what the arithmetic of the machine
    makes of [sin(2 pi frequency t) * amplitude + noise] once stored in the
    [np.float32] buffer, where [t] is [n / sample_rate], [frequency] is
    [random.uniform] of the frequency range on the draw made for the segment
    [n // samples_per_segment], and [noise] is [random.uniform] of the noise
    range on the draw made for the sample; both lie within their ranges when
    the roundings keep [random.uniform] within its bounds. *)
Theorem generate_tuning_sound_samples
  (ar : Fl.arithmetic) (tc : TuningConfig) (st : rng_state) :
  Fl.valid_tuning ar tc ->
  exists samples st',
    Fl.generate_tuning_sound ar tc st = Ok (samples, st') /\
    len samples = Fl.total_samples ar tc /\
    forall n, n < length samples ->
      let s := n / Z.to_nat (Fl.segment_samples ar tc) in
      let u_f := stream st (drawn st + s * (Z.to_nat (Fl.segment_samples ar tc) + 1)) in
      let frequency :=
        Fl.fadd ar (fst (frequency_range tc))
          (Fl.fmul ar
             (Fl.fsub ar (snd (frequency_range tc)) (fst (frequency_range tc))) u_f) in
      let t := Fl.round64 ar (INR n / IZR (tuning_sample_rate tc)) in
      let u := stream st (drawn st + n + s + 1) in
      let noise :=
        Fl.fadd ar (fst (tuning_noise_range tc))
          (Fl.fmul ar
             (Fl.fsub ar (snd (tuning_noise_range tc)) (fst (tuning_noise_range tc)))
             u) in
      nth n samples 0%R
      = Fl.round32 ar
          (Fl.fadd ar
             (Fl.fmul ar
                (Fl.np_sin ar
                   (Fl.fmul ar
                      (Fl.fmul ar (Fl.fmul ar (Fl.of_int ar 2) (Fl.np_pi ar)) frequency)
                      t))
                (tuning_amplitude tc))
             noise) /\
      (Fl.uniform_within ar (fst (frequency_range tc)) (snd (frequency_range tc)) ->
       (fst (frequency_range tc) <= snd (frequency_range tc))%R ->
       (0 <= u_f < 1)%R ->
       (fst (frequency_range tc) <= frequency <= snd (frequency_range tc))%R) /\
      (Fl.uniform_within ar (fst (tuning_noise_range tc))
                         (snd (tuning_noise_range tc)) ->
       (fst (tuning_noise_range tc) <= snd (tuning_noise_range tc))%R ->
       (0 <= u < 1)%R ->
       (fst (tuning_noise_range tc) <= noise <= snd (tuning_noise_range tc))%R).
Proof.
  intros V. do 2 eexists.
  split; [apply rounded_generate_tuning_sound_spec; exact V|].
  split.
  - unfold len. rewrite length_map, length_seq. destruct V as (_ & T & _). lia.
  - intros n Hn. rewrite length_map, length_seq in Hn. cbv zeta.
    split; [|split].
    + rewrite nth_map_seq by exact Hn.
      unfold Fl.tuning_wave, Fl.sample_value, Fl.segment_frequency, Fl.uniform_value.
      cbn [tuning_params sample_rate amplitude noise_range].
      rewrite <- INR_IZR_INZ. reflexivity.
    + intros U Hle Hu. apply (uniform_value_within U Hle Hu).
    + intros U Hle Hu. apply (uniform_value_within U Hle Hu).
Qed.

Lemma valid_tuning_exact tc : valid_tuning tc -> Fl.valid_tuning Fl.exact tc.
Proof.
  intros V. split; [|split].
  - destruct V as (H & _). exact H.
  - exact (total_samples_nonneg V).
  - exact (segment_samples_pos V).
Qed.

Lemma generate_tuning_sound_samples_witness :
  Fl.valid_tuning Fl.exact tuning_config /\
  exists samples st',
    Fl.generate_tuning_sound Fl.exact tuning_config (Rng (fun _ => (1 / 2)%R) 0)
    = Ok (samples, st') /\
    len samples = 11025%Z /\
    nth 0 samples 0%R = 0%R.
Proof.
  assert (V : Fl.valid_tuning Fl.exact tuning_config)
    by (apply valid_tuning_exact, valid_tuning_config).
  split; [exact V|].
  destruct (@generate_tuning_sound_samples Fl.exact tuning_config
              (Rng (fun _ => (1 / 2)%R) 0) V)
    as (samples & st' & E & L & W).
  exists samples, st'. split; [exact E|].
  change (Fl.total_samples Fl.exact tuning_config)
    with (total_samples tuning_config) in L.
  rewrite total_samples_tuning in L.
  split; [exact L|].
  assert (Ln : 0 < length samples) by (unfold len in L; lia).
  destruct (W 0 Ln) as (W0 & _ & _). rewrite W0.
  cbn [Fl.exact Fl.round32 Fl.round64 Fl.np_sin Fl.np_pi Fl.fadd Fl.fmul Fl.fsub
       Fl.of_int tuning_config tuning_noise_range fst snd tuning_amplitude stream
       tuning_sample_rate INR].
  replace (2 * PI * _ * (0 / 22050))%R with 0%R by (unfold Rdiv; ring).
  rewrite sin_0. lra.
Defined.

(** ** The arithmetic that rounds nothing gives back the exact reading *)

Lemma generate_encoded_sound_exact cfg binary st :
  Fl.generate_encoded_sound Fl.exact cfg binary st
  = generate_encoded_sound cfg binary st.
Proof. reflexivity. Qed.

Lemma generate_tuning_sound_exact tc st :
  Fl.generate_tuning_sound Fl.exact tc st = generate_tuning_sound tc st.
Proof. reflexivity. Qed.

Lemma decode_audio_to_binary_exact cfg samples st :
  valid_config cfg ->
  Fl.decode_audio_to_binary Fl.exact cfg samples st
  = decode_audio_to_binary cfg samples st.
Proof.
  intros V. pose proof (valid_config_window V) as W.
  pose proof (valid_config_rate V) as Rt.
  destruct (exact_accurate_frequencies V) as (d & freqs & Hd & Hf & _).
  assert (Ed : d = (1 / IZR (sample_rate cfg))%R).
  { unfold Fl.truediv in Hd.
    destruct (Z.eqb_spec (sample_rate cfg) 0) as [E|_]; [contradiction|].
    cbn [Fl.exact Fl.round64] in Hd. congruence. }
  assert (Ef : freqs = Np.fftfreq (window_length cfg) (1 / IZR (sample_rate cfg))).
  { change (Fl.window_length Fl.exact cfg) with (window_length cfg) in Hf.
    rewrite Ed, exact_fftfreq in Hf; [congruence|].
    assert (IZR (sample_rate cfg) <> 0%R) by (apply not_0_IZR; exact Rt).
    assert (INR (window_length cfg) <> 0%R)
      by (apply not_0_INR; unfold window_length; lia).
    apply Rmult_integral_contrapositive_currified; [assumption|].
    unfold Rdiv. rewrite Rmult_1_l. apply Rinv_neq_0_compat. assumption. }
  rewrite (@rounded_decode_audio_to_binary_spec Fl.exact cfg d freqs W Hd Hf samples).
  - rewrite decode_audio_to_binary_valid by exact V.
    change (Fl.window_length Fl.exact cfg) with (window_length cfg).
    f_equal. f_equal. apply map_ext_in. intros i Hi. apply in_seq in Hi.
    pose proof (Nat.div_mod_eq (length samples) (window_length cfg)) as D.
    assert (L : length (segment_of cfg samples i) = window_length cfg)
      by (apply segment_of_length; nia).
    unfold dominant_value. rewrite L, Ef. reflexivity.
  - intros i _. cbn [Fl.exact Fl.np_abs_fft]. rewrite length_map. apply fft_length.
Qed.

Lemma round_trip_exact cfg s st :
  valid_config cfg -> Fl.round_trip Fl.exact cfg s st = round_trip cfg s st.
Proof.
  intros V. unfold Fl.round_trip, round_trip, bind.
  rewrite generate_encoded_sound_exact.
  destruct (generate_encoded_sound cfg (text_to_binary s) st) as [[samples st']|e];
    [|reflexivity].
  rewrite decode_audio_to_binary_exact by exact V. reflexivity.
Qed.

(** ** One-sample windows in the arithmetic of the machine *)

(** What [round_trip_fails_one_sample] shows does not rest on exact
    arithmetic: in every arithmetic that leaves the integers from -3 to 3
    alone and whose transform returns one magnitude for one sample, a window
    of one sample has the single bin frequency 0, which is nearer to the tone
    of 1 Hz than to the tone of 3 Hz, and the byte 255 comes back as 0. *)
Lemma round_trip_fails_one_sample_rounded (ar : Fl.arithmetic) (st : rng_state) :
  (forall z, (-3 <= z <= 3)%Z -> Fl.round64 ar (IZR z) = IZR z) ->
  (forall x, length (Fl.np_abs_fft ar [x]) = 1) ->
  Fl.valid_config ar one_sample_config /\
  exists st', Fl.round_trip ar one_sample_config [255%N] st = Ok ([0%N], st').
Proof.
  intros Hz Hf.
  assert (R1 : Fl.round64 ar 1 = 1%R) by (apply (Hz 1%Z); lia).
  assert (R0 : Fl.round64 ar 0 = 0%R) by (apply (Hz 0%Z); lia).
  assert (S : Fl.samples_per_bit ar one_sample_config = 1%Z).
  { unfold Fl.samples_per_bit, Fl.window_product, Fl.fmul, Fl.of_int.
    cbn [one_sample_config bit_duration sample_rate].
    rewrite R1, Rmult_1_l, R1. apply (@int_of_float_IZR 1). lia. }
  assert (V : Fl.valid_config ar one_sample_config).
  { split; [apply valid_one_sample_config | rewrite S; lia]. }
  split; [exact V|].
  assert (W : Fl.window_length ar one_sample_config = 1)
    by (unfold Fl.window_length; rewrite S; reflexivity).
  assert (Hd : Fl.truediv ar 1 (sample_rate one_sample_config) = Ok 1%R).
  { unfold Fl.truediv. cbn [one_sample_config sample_rate Z.eqb].
    replace (1 / 1)%R with 1%R by field. rewrite R1. reflexivity. }
  assert (Hq : Fl.fftfreq ar (Fl.window_length ar one_sample_config) 1 = Ok [0%R]).
  { rewrite W. unfold Fl.fftfreq, Fl.float_div, Fl.fmul, Fl.of_int.
    cbn [Z.of_nat Pos.of_succ_nat]. rewrite R1, Rmult_1_l, R1.
    destruct (Req_dec_T 1 0) as [E|_]; [lra|].
    replace (1 / 1)%R with 1%R by field. rewrite R1.
    cbn [seq map Nat.ltb Nat.leb Nat.sub Nat.div Nat.divmod Nat.add fst Z.of_nat].
    rewrite R0, Rmult_0_l, R0.
    reflexivity. }
  assert (C : Fl.classify ar one_sample_config (Rabs 0) = "0"%char).
  { unfold Fl.classify, Fl.fsub. rewrite Rabs_R0.
    cbn [one_sample_config frequency_1 frequency_0].
    replace (0 - 3)%R with (IZR (-3)) by lra.
    replace (0 - 1)%R with (IZR (-1)) by lra.
    rewrite (Hz (-3)%Z), (Hz (-1)%Z) by lia.
    destruct (Rlt_dec _ _) as [L|_]; [|reflexivity]. exfalso.
    rewrite !Rabs_left in L by lra. lra. }
  eexists. unfold Fl.round_trip, bind.
  rewrite rounded_generate_encoded_sound_valid by exact V.
  set (samples := map (Fl.wave ar one_sample_config (text_to_binary [255%N]) st)
                      (seq 0 (length (text_to_binary [255%N])
                              * Fl.window_length ar one_sample_config))).
  assert (Ls : length samples = 8)
    by (unfold samples; rewrite length_map, length_seq, W; reflexivity).
  assert (Seg : forall i, i < 8 ->
            exists x, Fl.segment_of ar one_sample_config samples i = [x]).
  { intros i Hi. unfold Fl.segment_of. rewrite W, Nat.mul_1_r.
    destruct (skipn i samples) as [|x rest] eqn:E.
    - apply (f_equal (@length R)) in E. rewrite length_skipn, Ls in E.
      cbn [length] in E. lia.
    - exists x. reflexivity. }
  rewrite (@rounded_decode_audio_to_binary_spec ar one_sample_config 1%R [0%R]
             ltac:(rewrite S; lia) Hd Hq samples).
  - rewrite Ls, W. change (8 / 1) with 8.
    rewrite (@map_constant _ _ _ "0"%char).
    + rewrite length_seq. reflexivity.
    + intros i Hi. apply in_seq in Hi.
      destruct (Seg i ltac:(lia)) as [x ->].
      specialize (Hf x). destruct (Fl.np_abs_fft ar [x]) as [|m [|m' rest]];
        try discriminate.
      cbn [peak_of Np.argmax_from nth]. exact C.
  - intros i Hi. rewrite Ls, W in Hi.
    destruct (Seg i ltac:(lia)) as [x ->]. apply Hf.
Qed.
